(** * Chevrotain parser runtime: a shallow embedding of the recognizer core

    The development follows the TypeScript source of the [Parser] class
    (rule wrapper, token consumption, single token recovery, re-sync,
    backtracking, self analysis) and of the GAST clone visitor.

    Conventions.
    - A JavaScript array is a [list] in array order: [push] appends at the
      end, [pop] removes the last element, [a[i]] is [js_index a i].
    - A JavaScript value of static type [Token] is an [option Token]:
      [None] stands for [undefined] (an out of range array read).
    - A method of the parser is a function from the parser state to an
      outcome ([Ret], [Throw] or [OutOfFuel]) and the next parser state.
    - Loops of the source that have no syntactic bound take a [fuel].
    - A look-ahead function, and a predicate that a grammar passes to a
      method of the DSL, reads the parser and answers: [Parser -> bool]. *)

From stdpp Require Import base strings pretty list gmap.
From Stdlib Require Import ZArith Lia.

#[local] Open Scope string_scope.
#[local] Open Scope Z_scope.
#[local] Open Scope list_scope.
#[local] Unset Default Proof Using.

(** ** Token classes and tokens *)

(** A token class is a constructor function; its prototype chain is the
    chain of [Extends].  A class is told from another by its name and its
    chain. *)
Inductive TokClass : Type :=
| TokenRoot
| Extends (name : string) (parent : TokClass).

#[global] Instance TokClass_eq_dec : EqDecision TokClass.
Proof. solve_decision. Defined.

(** Modelled from the spec: the [EOF] token class of [scan/tokens_public],
    the sentinel class of the end of the input. *)
Definition EOF : TokClass := Extends "EOF" TokenRoot.

(** Modelled from the spec: the [Token] objects of [scan/tokens_public]
    (token type, image, offsets) with the [isInsertedInRecovery] flag the
    recovery code sets. *)
Record Token : Type := mkToken {
  tokenType : TokClass;
  image : string;
  startOffset : Z;
  endOffset : Z;
  isInsertedInRecovery : bool
}.

#[global] Instance Token_eq_dec : EqDecision Token.
Proof. solve_decision. Defined.

(** [new EOF()] *)
Definition new_EOF : Token := mkToken EOF EmptyString (-1) (-1) false.

(** [c] is [T] or inherits from it: the walk of the prototype chain that
    [instanceof] performs. *)
Fixpoint isSubclassOf (c T : TokClass) : bool :=
  bool_decide (c = T) ||
  match c with
  | TokenRoot => false
  | Extends _ parent => isSubclassOf parent T
  end.

(** [tok instanceof T]; [undefined instanceof T] is [false]. *)
Definition instanceOf (tok : option Token) (T : TokClass) : bool :=
  match tok with
  | None => false
  | Some t => isSubclassOf (tokenType t) T
  end.

(** ** JavaScript arrays *)

(** [arr[i]]: [undefined] out of range. *)
Definition js_index {A : Type} (arr : list A) (i : Z) : option A :=
  if i <? 0 then None else arr !! Z.to_nat i.

Definition js_length {A : Type} (arr : list A) : Z := Z.of_nat (length arr).

(** [arr.push(x)] *)
Definition push {A : Type} (arr : list A) (x : A) : list A := arr ++ [x].

(** [arr.pop()], as far as the array is concerned; nothing happens on the
    empty array. *)
Definition pop {A : Type} (arr : list A) : list A := removelast arr.

(** [dropRight(arr)] of the utilities: all but the last element. *)
Definition dropRight {A : Type} (arr : list A) : list A := removelast arr.

(** ** Exceptions *)

Inductive RecognitionKind : Type :=
| MismatchedTokenException
| NoViableAltException
| EarlyExitException
| NotAllInputParsedException.

#[global] Instance RecognitionKind_eq_dec : EqDecision RecognitionKind.
Proof. solve_decision. Defined.

(** The [context] that [SAVE_ERROR] attaches. *)
Record ErrorContext : Type := mkContext {
  ruleStack : list string;
  ruleOccurrenceStack : list Z
}.

(** Modelled from the spec: the recognition exceptions of
    [exceptions_public], carrying message, token, context and
    resyncedTokens.  [excId] is the identity of the exception object: the
    same object is thrown and stored in [errors], and the rule wrapper
    writes its [resyncedTokens] after it was stored. *)
Record RecognitionException : Type := mkRecognitionException {
  excId : nat;
  excKind : RecognitionKind;
  message : string;
  token : option Token;
  context : option ErrorContext;
  resyncedTokens : list (option Token)
}.

Inductive Exn : Type :=
| Recognition (e : RecognitionException)
| InRuleRecoveryException (msg : string)
| JsError (msg : string).

(** [exceptions.isRecognitionException(e)] *)
Definition isRecognitionException (e : Exn) : bool :=
  match e with
  | Recognition _ => true
  | _ => false
  end.

(** The [TypeError] of a property read on [undefined]. *)
Definition TypeError : Exn := JsError "TypeError".

Definition set_context (e : RecognitionException) (c : ErrorContext)
  : RecognitionException :=
  mkRecognitionException (excId e) (excKind e) (message e) (token e)
    (Some c) (resyncedTokens e).

Definition set_resyncedTokens (e : RecognitionException)
  (toks : list (option Token)) : RecognitionException :=
  mkRecognitionException (excId e) (excKind e) (message e) (token e)
    (context e) toks.

(** ** The parser instance *)

Record Parser : Type := mkParser {
  errors : list RecognitionException;
  recoveryEnabled : bool;
  _input : list Token;
  inputIdx : Z;
  isBackTrackingStack : list Z;
  RULE_STACK : list string;
  RULE_OCCURRENCE_STACK : list Z;
  savedTokenIdx : option Z;
  (** allocation counter of exception objects *)
  nextExcId : nat
}.

Definition set_errors (p : Parser) (v : list RecognitionException) : Parser :=
  mkParser v (recoveryEnabled p) (_input p) (inputIdx p)
    (isBackTrackingStack p) (RULE_STACK p) (RULE_OCCURRENCE_STACK p)
    (savedTokenIdx p) (nextExcId p).

Definition set_input_field (p : Parser) (v : list Token) : Parser :=
  mkParser (errors p) (recoveryEnabled p) v (inputIdx p)
    (isBackTrackingStack p) (RULE_STACK p) (RULE_OCCURRENCE_STACK p)
    (savedTokenIdx p) (nextExcId p).

Definition set_inputIdx (p : Parser) (v : Z) : Parser :=
  mkParser (errors p) (recoveryEnabled p) (_input p) v
    (isBackTrackingStack p) (RULE_STACK p) (RULE_OCCURRENCE_STACK p)
    (savedTokenIdx p) (nextExcId p).

Definition set_isBackTrackingStack (p : Parser) (v : list Z) : Parser :=
  mkParser (errors p) (recoveryEnabled p) (_input p) (inputIdx p)
    v (RULE_STACK p) (RULE_OCCURRENCE_STACK p)
    (savedTokenIdx p) (nextExcId p).

Definition set_RULE_STACK (p : Parser) (v : list string) : Parser :=
  mkParser (errors p) (recoveryEnabled p) (_input p) (inputIdx p)
    (isBackTrackingStack p) v (RULE_OCCURRENCE_STACK p)
    (savedTokenIdx p) (nextExcId p).

Definition set_RULE_OCCURRENCE_STACK (p : Parser) (v : list Z) : Parser :=
  mkParser (errors p) (recoveryEnabled p) (_input p) (inputIdx p)
    (isBackTrackingStack p) (RULE_STACK p) v
    (savedTokenIdx p) (nextExcId p).

Definition set_savedTokenIdx (p : Parser) (v : option Z) : Parser :=
  mkParser (errors p) (recoveryEnabled p) (_input p) (inputIdx p)
    (isBackTrackingStack p) (RULE_STACK p) (RULE_OCCURRENCE_STACK p)
    v (nextExcId p).

Definition set_nextExcId (p : Parser) (v : nat) : Parser :=
  mkParser (errors p) (recoveryEnabled p) (_input p) (inputIdx p)
    (isBackTrackingStack p) (RULE_STACK p) (RULE_OCCURRENCE_STACK p)
    (savedTokenIdx p) v.

(** The state of a parser right after its constructor ran. *)
Definition new_Parser (input : list Token) (recovery : bool) : Parser :=
  mkParser [] recovery input (-1) [] [] [] None 0.

(** ** Access to the token vector *)

(** [LA(howMuch)] *)
Definition LA (p : Parser) (howMuch : Z) : option Token :=
  if js_length (_input p) <=? inputIdx p + howMuch
  then Some new_EOF
  else js_index (_input p) (inputIdx p + howMuch).

(** [consumeToken()] *)
Definition consumeToken (p : Parser) : Parser :=
  set_inputIdx p (inputIdx p + 1).

(** [saveLexerState()] *)
Definition saveLexerState (p : Parser) : Parser :=
  set_savedTokenIdx p (Some (inputIdx p)).

(** [resetLexerState()] *)
Definition resetLexerState (p : Parser) : Parser :=
  set_inputIdx p (-1).

(** [reset()] *)
Definition reset (p : Parser) : Parser :=
  let p := resetLexerState p in
  let p := set_isBackTrackingStack p [] in
  let p := set_errors p [] in
  let p := set_input_field p [] in
  let p := set_RULE_STACK p [] in
  set_RULE_OCCURRENCE_STACK p [].

(** [set input(newInput)] *)
Definition input_setter (newInput : list Token) (p : Parser) : Parser :=
  let p := reset p in
  set_input_field p newInput.

(** [isAtEndOfInput()] *)
Definition isAtEndOfInput (p : Parser) : bool :=
  instanceOf (LA p 1) EOF.

(** [isBackTracking()] *)
Definition isBackTracking (p : Parser) : bool :=
  negb (bool_decide (isBackTrackingStack p = [])).

(** The input index never goes below its initial value. *)
Definition idx_ok (p : Parser) : Prop := -1 <= inputIdx p.


(** ** Outcomes and the parser monad *)

Inductive Res (A : Type) : Type :=
| Ret (a : A)
| Throw (e : Exn)
| OutOfFuel.

Arguments Ret {A} a.
Arguments Throw {A} e.
Arguments OutOfFuel {A}.

Definition M (A : Type) : Type := Parser -> Res A * Parser.

Definition ret {A : Type} (a : A) : M A := fun p => (Ret a, p).

Definition throw {A : Type} (e : Exn) : M A := fun p => (Throw e, p).

(** Sequencing of two statements: an exception of the first skips the
    second. *)
Definition bind {A B : Type} (m : M A) (k : A -> M B) : M B :=
  fun p =>
    match m p with
    | (Ret a, q) => k a q
    | (Throw e, q) => (Throw e, q)
    | (OutOfFuel, q) => (OutOfFuel, q)
    end.

Notation "x <- m ;; k" := (bind m (fun x => k))
  (at level 100, m at next level, right associativity).

(** [try { body } finally { fin }]: [fin] runs after a return and after an
    exception alike, and an exception of [fin] replaces the outcome. *)
Definition try_finally {A : Type} (body : M A) (fin : M unit) : M A :=
  fun p =>
    match body p with
    | (OutOfFuel, q) => (OutOfFuel, q)
    | (r, q) =>
        match fin q with
        | (Ret _, q') => (r, q')
        | (Throw e, q') => (Throw e, q')
        | (OutOfFuel, q') => (OutOfFuel, q')
        end
    end.

(** The values that grammar actions return. *)
Inductive JsValue : Type :=
| JsUndefined
| JsBool (b : bool)
| JsNumber (z : Z)
| JsString (s : string)
| JsTok (t : option Token).

(** ** The grammar class: cached analysis results and overridable methods *)

(** Modelled from the spec: the production types of [grammar/lookahead]
    that the parser names. *)
Inductive PROD_TYPE : Type :=
| REPETITION_MANDATORY
| REPETITION_MANDATORY_WITH_SEPARATOR.

(** The line feed of the message templates. *)
Definition NL : string := String (Ascii.ascii_of_nat 10) EmptyString.

(** [ITokenGrammarPath] *)
Record ITokenGrammarPath : Type := mkGrammarPath {
  pathRuleStack : list string;
  pathOccurrenceStack : list Z;
  lastTok : TokClass;
  lastTokOccurrence : Z
}.

(** What [startWalking()] of a [NextTerminalAfter...Walker] returns; an
    absent property is [None]. *)
Record IFirstAfterRepetition : Type := mkFirstAfterRepetition {
  far_token : option TokClass;
  far_occurrence : option Z;
  far_isEndOfRule : bool
}.

(** What a parser instance reads from its class: the FOLLOW table of the
    class cache, read by key, the grammar walker behind
    [getNextPossibleTokenTypes], and the protected methods a grammar may
    override.  The walker, the cache and the token labels are not part of
    the parser source and are taken as they are. *)
Record ParserClass : Type := mkParserClass {
  className : string;
  resyncFollows : string -> list TokClass;
  getNextPossibleTokenTypes : ITokenGrammarPath -> list TokClass;
  canTokenTypeBeInsertedInRecovery : TokClass -> bool;
  getTokenToInsert : TokClass -> Token;
  getMisMatchTokenErrorMessage : TokClass -> Token -> string;
  (** the joined texts of the look-ahead paths of an alternation
      ([getLookaheadPathsForOr]) and of a repetition
      ([getLookaheadPathsForOptionalProd]) of a rule *)
  orLookaheadPathsText : option string -> Z -> string;
  optionalProdLookaheadPathsText : option string -> Z -> PROD_TYPE -> string;
  (** what the walker of the terminal after a repetition answers, by the
      key of the repetition *)
  firstAfterRepetition : string -> IFirstAfterRepetition
}.

(** Modelled from the spec: the key separator [IN] of [constants]. *)
Definition IN : string := "IN".

(** [getTokenToInsert] of the base class: [new tokClass(-1, -1)]. *)
Definition default_getTokenToInsert (tokClass : TokClass) : Token :=
  mkToken tokClass EmptyString (-1) (-1) false.

(** [canTokenTypeBeInsertedInRecovery] of the base class. *)
Definition default_canTokenTypeBeInsertedInRecovery (tokClass : TokClass)
  : bool := true.

(** [IRuleConfig]; an absent property is [None]. *)
Record IRuleConfig : Type := mkRuleConfig {
  recoveryValueFunc : option (unit -> JsValue);
  resyncEnabled : option bool
}.

Definition DEFAULT_RULE_CONFIG_recoveryValueFunc : unit -> JsValue :=
  fun _ => JsUndefined.

Definition DEFAULT_RULE_CONFIG_resyncEnabled : bool := true.

Definition DEFAULT_RULE_CONFIG : IRuleConfig :=
  mkRuleConfig (Some DEFAULT_RULE_CONFIG_recoveryValueFunc)
    (Some DEFAULT_RULE_CONFIG_resyncEnabled).

(** [contains(arr, item)] *)
Definition contains (arr : list TokClass) (item : TokClass) : bool :=
  bool_decide (item ∈ arr).

(** [tokToInsert.isInsertedInRecovery = true] *)
Definition mark_inserted (t : Token) : Token :=
  mkToken (tokenType t) (image t) (startOffset t) (endOffset t) true.

(** The string of a number or of [undefined] in a concatenation. *)
Definition num_to_string (n : option Z) : string :=
  match n with
  | Some z => pretty z
  | None => "undefined"
  end.

Definition str_to_string (s : option string) : string :=
  match s with
  | Some s => s
  | None => "undefined"
  end.

(** [last(arr)] *)
Definition js_last {A : Type} (arr : list A) : option A := last arr.

(** ** Errors *)

(** [new exceptions.X(message, token)]: a new exception object. *)
Definition new_exception (kind : RecognitionKind) (msg : string)
  (tok : option Token) (p : Parser) : RecognitionException * Parser :=
  (mkRecognitionException (nextExcId p) kind msg tok None [],
   set_nextExcId p (S (nextExcId p))).

(** [SAVE_ERROR(error)] for a recognition exception. *)
Definition SAVE_ERROR (error : RecognitionException) (p : Parser)
  : RecognitionException * Parser :=
  let error := set_context error
                 (mkContext (RULE_STACK p) (RULE_OCCURRENCE_STACK p)) in
  (error, set_errors p (push (errors p) error)).

(** [throw this.SAVE_ERROR(new exceptions.X(message, token))] *)
Definition throw_saved {A : Type} (kind : RecognitionKind) (msg : string)
  (tok : option Token) : M A :=
  fun p =>
    let '(e, p) := new_exception kind msg tok p in
    let '(e, p) := SAVE_ERROR e p in
    (Throw (Recognition e), p).

(** [e.resyncedTokens = toks] on the exception object [e]: the object
    stored in [errors] is the same one. *)
Definition write_resyncedTokens (e : RecognitionException)
  (toks : list (option Token)) (p : Parser) : Parser :=
  set_errors p
    (map (fun x => if bool_decide (excId x = excId e)
                   then set_resyncedTokens x toks else x)
       (errors p)).

Section Runtime.

Variable C : ParserClass.

(** ** Rule stack *)

(** [ruleInvocationStateUpdate(ruleName, idxInCallingRule)] *)
Definition ruleInvocationStateUpdate (ruleName : string)
  (idxInCallingRule : Z) (p : Parser) : Parser :=
  let p := set_RULE_OCCURRENCE_STACK p
             (push (RULE_OCCURRENCE_STACK p) idxInCallingRule) in
  set_RULE_STACK p (push (RULE_STACK p) ruleName).

(** [ruleFinallyStateUpdate()] *)
Definition ruleFinallyStateUpdate : M unit :=
  fun p =>
    let p := set_RULE_STACK p (pop (RULE_STACK p)) in
    let p := set_RULE_OCCURRENCE_STACK p (pop (RULE_OCCURRENCE_STACK p)) in
    if (js_length (RULE_STACK p) =? 0) && negb (isAtEndOfInput p) then
      let firstRedundantTok := LA p 1 in
      match firstRedundantTok with
      | None => (Throw TypeError, p)
      | Some t =>
          let '(e, p) :=
            new_exception NotAllInputParsedException
              ("Redundant input, expecting EOF but found: " +:+ image t)
              firstRedundantTok p in
          let '(_, p) := SAVE_ERROR e p in
          (Ret tt, p)
      end
    else (Ret tt, p).

(** ** Consuming a token *)

(** [SKIP_TOKEN()] *)
Definition SKIP_TOKEN (p : Parser) : option Token * Parser :=
  if inputIdx p <=? js_length (_input p) - 2 then
    let p := consumeToken p in
    (LA p 1, p)
  else (Some new_EOF, p).

(** [consumeInternalOptimized(expectedTokClass)] *)
Definition consumeInternalOptimized (expectedTokClass : TokClass)
  : M (option Token) :=
  fun p =>
    let nextToken := LA p 1 in
    if instanceOf nextToken expectedTokClass then
      (Ret nextToken, consumeToken p)
    else
      match nextToken with
      | None => (Throw TypeError, p)
      | Some t =>
          let msg := getMisMatchTokenErrorMessage C expectedTokClass t in
          throw_saved MismatchedTokenException msg nextToken p
      end.

(** [getCurrentGrammarPath(tokClass, tokIdxInRule)] *)
Definition getCurrentGrammarPath (tokClass : TokClass) (tokIdxInRule : Z)
  (p : Parser) : ITokenGrammarPath :=
  mkGrammarPath (RULE_STACK p) (RULE_OCCURRENCE_STACK p) tokClass tokIdxInRule.

(** [getFollowsForInRuleRecovery(tokClass, tokIdxInRule)] *)
Definition getFollowsForInRuleRecovery (tokClass : TokClass)
  (tokIdxInRule : Z) (p : Parser) : list TokClass :=
  let grammarPath := getCurrentGrammarPath tokClass tokIdxInRule p in
  getNextPossibleTokenTypes C grammarPath.

(** [canRecoverWithSingleTokenInsertion(expectedTokType, follows)] *)
Definition canRecoverWithSingleTokenInsertion (expectedTokType : TokClass)
  (follows : list TokClass) (p : Parser) : bool :=
  if negb (canTokenTypeBeInsertedInRecovery C expectedTokType) then false
  else if bool_decide (follows = []) then false
  else
    let mismatchedTok := LA p 1 in
    existsb (fun possibleFollowsTokType =>
               instanceOf mismatchedTok possibleFollowsTokType) follows.

(** [canRecoverWithSingleTokenDeletion(expectedTokType)] *)
Definition canRecoverWithSingleTokenDeletion (expectedTokType : TokClass)
  (p : Parser) : bool :=
  instanceOf (LA p 2) expectedTokType.

(** [canPerformInRuleRecovery(expectedToken, follows)] *)
Definition canPerformInRuleRecovery (expectedToken : TokClass)
  (follows : list TokClass) (p : Parser) : bool :=
  canRecoverWithSingleTokenInsertion expectedToken follows p ||
  canRecoverWithSingleTokenDeletion expectedToken p.

(** [tryInRuleRecovery(expectedTokType, follows)] *)
Definition tryInRuleRecovery (expectedTokType : TokClass)
  (follows : list TokClass) : M (option Token) :=
  fun p =>
    if canRecoverWithSingleTokenInsertion expectedTokType follows p then
      let tokToInsert := getTokenToInsert C expectedTokType in
      (Ret (Some (mark_inserted tokToInsert)), p)
    else if canRecoverWithSingleTokenDeletion expectedTokType p then
      let '(nextTok, p) := SKIP_TOKEN p in
      let p := consumeToken p in
      (Ret nextTok, p)
    else (Throw (InRuleRecoveryException "sad sad panda"), p).

Definition isMismatchedTokenException (e : Exn) : bool :=
  match e with
  | Recognition r => bool_decide (excKind r = MismatchedTokenException)
  | _ => false
  end.

Definition isInRuleRecoveryException (e : Exn) : bool :=
  match e with
  | InRuleRecoveryException _ => true
  | _ => false
  end.

(** [consumeInternal(tokClass, idx)] *)
Definition consumeInternal (tokClass : TokClass) (idx : Z)
  : M (option Token) :=
  fun p =>
    match consumeInternalOptimized tokClass p with
    | (Throw eFromConsumption, p) =>
        if recoveryEnabled p && isMismatchedTokenException eFromConsumption
           && negb (isBackTracking p)
        then
          let follows := getFollowsForInRuleRecovery tokClass idx p in
          match tryInRuleRecovery tokClass follows p with
          | (Throw eFromInRuleRecovery, p) =>
              if isInRuleRecoveryException eFromInRuleRecovery
              then (Throw eFromConsumption, p)
              else (Throw eFromInRuleRecovery, p)
          | r => r
          end
        else (Throw eFromConsumption, p)
    | r => r
    end.

(** [CONSUME1] ... [CONSUME5] and [CONSUME] *)
Definition CONSUME1 (tokClass : TokClass) := consumeInternal tokClass 1.
Definition CONSUME2 (tokClass : TokClass) := consumeInternal tokClass 2.
Definition CONSUME3 (tokClass : TokClass) := consumeInternal tokClass 3.
Definition CONSUME4 (tokClass : TokClass) := consumeInternal tokClass 4.
Definition CONSUME5 (tokClass : TokClass) := consumeInternal tokClass 5.
Definition CONSUME (tokClass : TokClass) := CONSUME1 tokClass.

(** ** Backtracking *)

(** [IParserState] *)
Record IParserState : Type := mkParserState {
  st_errors : list RecognitionException;
  st_lexerState : Z;
  st_RULE_STACK : list string
}.

(** [saveRecogState()]; [cloneArr] copies an array, and a list is its own
    copy. *)
Definition saveRecogState (p : Parser) : IParserState :=
  let savedErrors := errors p in
  let savedRuleStack := RULE_STACK p in
  mkParserState savedErrors (inputIdx p) savedRuleStack.

(** [reloadRecogState(newState)] *)
Definition reloadRecogState (newState : IParserState) (p : Parser) : Parser :=
  let p := set_errors p (st_errors newState) in
  let p := set_inputIdx p (st_lexerState newState) in
  set_RULE_STACK p (st_RULE_STACK newState).

(** The function that [BACKTRACK(grammarRule, isValid)] returns. *)
Definition BACKTRACK (grammarRule : M JsValue) (isValid : JsValue -> M bool)
  : M bool :=
  fun p =>
    let p := set_isBackTrackingStack p (push (isBackTrackingStack p) 1) in
    let orgState := saveRecogState p in
    try_finally
      (fun p =>
         match (ruleResult <- grammarRule ;; isValid ruleResult) p with
         | (Throw e, q) =>
             if isRecognitionException e then (Ret false, q)
             else (Throw e, q)
         | r => r
         end)
      (fun p =>
         let p := reloadRecogState orgState p in
         (Ret tt, set_isBackTrackingStack p (pop (isBackTrackingStack p))))
      p.

(** ** Re-synchronisation between rules *)

(** [IFollowKey]; [EOF_FOLLOW_KEY] is the key of the top rule. *)
Inductive IFollowKey : Type :=
| EOF_FOLLOW_KEY
| FollowKey (ruleName : option string) (idxInCallingRule : option Z)
    (inRule : option string).

(** [getCurrFollowKey()] *)
Definition getCurrFollowKey (p : Parser) : IFollowKey :=
  if js_length (RULE_STACK p) =? 1 then EOF_FOLLOW_KEY
  else
    let currRuleIdx := js_length (RULE_STACK p) - 1 in
    let currRuleOccIdx := currRuleIdx in
    let prevRuleIdx := currRuleIdx - 1 in
    FollowKey (js_index (RULE_STACK p) currRuleIdx)
      (js_index (RULE_OCCURRENCE_STACK p) currRuleOccIdx)
      (js_index (RULE_STACK p) prevRuleIdx).

(** [buildFullFollowKeyStack()] *)
Definition buildFullFollowKeyStack (p : Parser) : list IFollowKey :=
  imap (fun idx ruleName =>
          if bool_decide (idx = 0%nat) then EOF_FOLLOW_KEY
          else FollowKey (Some ruleName)
                 (js_index (RULE_OCCURRENCE_STACK p) (Z.of_nat idx))
                 (js_index (RULE_STACK p) (Z.of_nat idx - 1)))
    (RULE_STACK p).

(** [getFollowSetFromFollowKey(followKey)] *)
Definition getFollowSetFromFollowKey (followKey : IFollowKey)
  : list TokClass :=
  match followKey with
  | EOF_FOLLOW_KEY => [EOF]
  | FollowKey ruleName idxInCallingRule inRule =>
      let followName :=
        str_to_string ruleName +:+ num_to_string idxInCallingRule +:+ IN
        +:+ str_to_string inRule in
      resyncFollows C followName
  end.

(** [flattenFollowSet()] *)
Definition flattenFollowSet (p : Parser) : list TokClass :=
  let followStack := map getFollowSetFromFollowKey (buildFullFollowKeyStack p) in
  concat followStack.

(** [isInCurrentRuleReSyncSet(token)] *)
Definition isInCurrentRuleReSyncSet (tokClass : TokClass) (p : Parser)
  : bool :=
  let followKey := getCurrFollowKey p in
  let currentRuleReSyncSet := getFollowSetFromFollowKey followKey in
  contains currentRuleReSyncSet tokClass.

(** The loop of [findReSyncTokenType()]. *)
Fixpoint findReSyncTokenType_loop (fuel : nat)
  (allPossibleReSyncTokTypes : list TokClass) (p : Parser)
  (nextToken : option Token) (k : Z) : Res TokClass :=
  match fuel with
  | O => OutOfFuel
  | S fuel =>
      match nextToken with
      | None => Throw TypeError
      | Some t =>
          let nextTokenType := tokenType t in
          if contains allPossibleReSyncTokTypes nextTokenType
          then Ret nextTokenType
          else findReSyncTokenType_loop fuel allPossibleReSyncTokTypes p
                 (LA p k) (k + 1)
      end
  end.

(** [findReSyncTokenType()] *)
Definition findReSyncTokenType (fuel : nat) (p : Parser) : Res TokClass :=
  let allPossibleReSyncTokTypes := flattenFollowSet p in
  let nextToken := LA p 1 in
  findReSyncTokenType_loop fuel allPossibleReSyncTokTypes p nextToken 2.

(** [addToResyncTokens(token, resyncTokens)] *)
Definition addToResyncTokens (tok : option Token)
  (resyncTokens : list (option Token)) : list (option Token) :=
  if negb (instanceOf tok EOF) then push resyncTokens tok else resyncTokens.

(** The loop of [reSyncTo(tokClass)]. *)
Fixpoint reSyncTo_loop (fuel : nat) (tokClass : TokClass)
  (nextTok : option Token) (resyncedTokens : list (option Token))
  (p : Parser) : Res (list (option Token)) * Parser :=
  match fuel with
  | O => (OutOfFuel, p)
  | S fuel =>
      if negb (instanceOf nextTok tokClass) then
        let '(nextTok, p) := SKIP_TOKEN p in
        let resyncedTokens := addToResyncTokens nextTok resyncedTokens in
        reSyncTo_loop fuel tokClass nextTok resyncedTokens p
      else (Ret (dropRight resyncedTokens), p)
  end.

(** [reSyncTo(tokClass)] *)
Definition reSyncTo (fuel : nat) (tokClass : TokClass)
  : M (list (option Token)) :=
  fun p =>
    let resyncedTokens := [] in
    let nextTok := LA p 1 in
    reSyncTo_loop fuel tokClass nextTok resyncedTokens p.

(** ** The rule wrapper *)

(** The [try] and [catch] blocks of the function that [defineRule]
    returns, entered after [ruleInvocationStateUpdate]. *)
Definition wrappedGrammarRule_try_catch (fuel : nat)
  (impl : list JsValue -> M JsValue) (config : IRuleConfig)
  (args : list JsValue) : M JsValue :=
  let resyncEnabled :=
    default DEFAULT_RULE_CONFIG_resyncEnabled (resyncEnabled config) in
  let recoveryValueFunc :=
    default DEFAULT_RULE_CONFIG_recoveryValueFunc (recoveryValueFunc config) in
  fun p =>
    match impl args p with
    | (Throw e, p) =>
        let isFirstInvokedRule := js_length (RULE_STACK p) =? 1 in
        let reSyncEnabled :=
          isFirstInvokedRule ||
          (resyncEnabled && negb (isBackTracking p) && recoveryEnabled p) in
        match e with
        | Recognition exc =>
            if reSyncEnabled then
              match findReSyncTokenType fuel p with
              | Ret reSyncTokType =>
                  if isInCurrentRuleReSyncSet reSyncTokType p then
                    match reSyncTo fuel reSyncTokType p with
                    | (Ret toks, p) =>
                        (Ret (recoveryValueFunc tt),
                         write_resyncedTokens exc toks p)
                    | (Throw e', p) => (Throw e', p)
                    | (OutOfFuel, p) => (OutOfFuel, p)
                    end
                  else (Throw e, p)
              | Throw e' => (Throw e', p)
              | OutOfFuel => (OutOfFuel, p)
              end
            else (Throw e, p)
        | _ => (Throw e, p)
        end
    | r => r
    end.

(** The function that [defineRule(ruleName, impl, config)] returns. *)
Definition wrappedGrammarRule (fuel : nat) (ruleName : string)
  (impl : list JsValue -> M JsValue) (config : IRuleConfig)
  (idxInCallingRule : Z) (args : list JsValue) : M JsValue :=
  fun p =>
    let p := ruleInvocationStateUpdate ruleName idxInCallingRule p in
    try_finally (wrappedGrammarRule_try_catch fuel impl config args)
      ruleFinallyStateUpdate p.

(** [SUBRULE1] ... and [SUBRULE]: [ruleToCall.call(this, occ, args)]. *)
Definition SUBRULE1 (ruleToCall : Z -> list JsValue -> M JsValue)
  (args : list JsValue) : M JsValue := ruleToCall 1 args.
Definition SUBRULE2 (ruleToCall : Z -> list JsValue -> M JsValue)
  (args : list JsValue) : M JsValue := ruleToCall 2 args.
Definition SUBRULE (ruleToCall : Z -> list JsValue -> M JsValue)
  (args : list JsValue) : M JsValue := SUBRULE1 ruleToCall args.

(** ** Alternation and option *)

(** [raiseNoAltException(occurrence, errMsgTypes)] *)
Definition raiseNoAltException {A : Type} (occurrence : Z)
  (errMsgTypes : option string) : M A :=
  fun p =>
    match LA p 1 with
    | None => (Throw TypeError, p)
    | Some t =>
        let errSuffix := " but found: '" +:+ image t +:+ "'" in
        let errMsgTypes :=
          match errMsgTypes with
          | Some s => s
          | None =>
              let ruleName := js_last (RULE_STACK p) in
              "one of these possible Token sequences:" +:+ NL +:+ "  <"
              +:+ orLookaheadPathsText C ruleName occurrence +:+ ">"
          end in
        throw_saved NoViableAltException
          ("Expecting: " +:+ errMsgTypes +:+ " " +:+ errSuffix) (LA p 1) p
    end.

(** [raiseEarlyExitException(occurrence, prodType, userDefinedErrMsg)] *)
Definition raiseEarlyExitException {A : Type} (occurrence : Z)
  (prodType : PROD_TYPE) (userDefinedErrMsg : option string) : M A :=
  fun p =>
    match LA p 1 with
    | None => (Throw TypeError, p)
    | Some t =>
        let errSuffix := " but found: '" +:+ image t +:+ "'" in
        let userDefinedErrMsg :=
          match userDefinedErrMsg with
          | None =>
              let ruleName := js_last (RULE_STACK p) in
              "expecting at least one iteration which starts with one of these possible Token sequences::"
              +:+ NL +:+ "  <"
              +:+ optionalProdLookaheadPathsText C ruleName occurrence prodType
              +:+ ">"
          | Some s => "Expecting at least one " +:+ s
          end in
        throw_saved EarlyExitException (userDefinedErrMsg +:+ errSuffix)
          (LA p 1) p
    end.

(** [orInternal(alts, errMsgTypes, occurrence)]; [laFunc] is the look-ahead
    function of the occurrence, which reads the parser and picks an
    alternative or answers -1. *)
Definition orInternal (laFunc : Parser -> Z) (alts : list (M JsValue))
  (errMsgTypes : option string) (occurrence : Z) : M JsValue :=
  fun p =>
    let altToTake := laFunc p in
    if negb (altToTake =? -1) then
      match js_index alts altToTake with
      | Some grammarAction => grammarAction p
      | None => (Throw TypeError, p)
      end
    else raiseNoAltException occurrence errMsgTypes p.

(** [optionInternal(predicateOrAction, action, occurrence)] without a
    predicate ([action === undefined]) and with one. *)
Definition optionInternal (lookAheadFunc : Parser -> bool)
  (predicate : option (Parser -> bool)) (action : M JsValue) : M bool :=
  fun p =>
    match predicate with
    | Some pred =>
        if negb (pred p) then (Ret false, p)
        else if lookAheadFunc p then (_ <- action ;; ret true) p
        else (Ret false, p)
    | None =>
        if lookAheadFunc p then (_ <- action ;; ret true) p
        else (Ret false, p)
    end.

(** ** Repetitions and the recovery inside them *)

(** [restoreLexerState()]; [saveLexerState()] has run before. *)
Definition restoreLexerState (p : Parser) : Parser :=
  match savedTokenIdx p with
  | Some idx => set_inputIdx p idx
  | None => p
  end.

(** [getKeyForAutomaticLookahead(prodName, prodKeys, occurrence)]: the key
    as the method builds it when the table [prodKeys] of the class holds
    none for the occurrence and the current rule.  The tables, which keep
    the key that the first call has built, belong to the class cache and
    are not part of the parser state here; the key is read by the tables
    of the class only ([firstAfterRepetition]). *)
Definition getKeyForAutomaticLookahead (prodName : string) (occurrence : Z)
  (p : Parser) : string :=
  let currRule := js_last (RULE_STACK p) in
  prodName +:+ pretty occurrence +:+ IN +:+ str_to_string currRule.

(** [shouldInRepetitionRecoveryBeTried(expectTokAfterLastMatch, nextTokIdx)] *)
Definition shouldInRepetitionRecoveryBeTried
  (expectTokAfterLastMatch : option TokClass) (nextTokIdx : option Z)
  (p : Parser) : bool :=
  match expectTokAfterLastMatch, nextTokIdx with
  | Some expectTok, Some idx =>
      if instanceOf (LA p 1) expectTok then false
      else if isBackTracking p then false
      else if canPerformInRuleRecovery expectTok
                (getFollowsForInRuleRecovery expectTok idx p) p
      then false
      else true
  | _, _ => false
  end.

(** [generateErrorMessage()] of [tryInRepetitionRecovery]. *)
Definition generateErrorMessage (expectedTokType : TokClass)
  (nextTokenWithoutResync : option Token)
  (resyncedTokens : list (option Token)) : M unit :=
  fun p =>
    match nextTokenWithoutResync with
    | None => (Throw TypeError, p)
    | Some t =>
        let msg := getMisMatchTokenErrorMessage C expectedTokType t in
        let '(error, p) :=
          new_exception MismatchedTokenException msg nextTokenWithoutResync p
        in
        let error := set_resyncedTokens error (dropRight resyncedTokens) in
        let '(_, p) := SAVE_ERROR error p in
        (Ret tt, p)
    end.

(** The loop of [tryInRepetitionRecovery] and what follows it; the answer
    is the result of [grammarRule] when the repetition was entered
    again. *)
Fixpoint tryInRepetitionRecovery_loop {A : Type} (fuel : nat)
  (grammarRule : M A) (lookAheadFunc : Parser -> bool)
  (expectedTokType reSyncTokType : TokClass)
  (nextTokenWithoutResync currToken : option Token)
  (resyncedTokens : list (option Token)) (p : Parser)
  : Res (option A) * Parser :=
  match fuel with
  | O => (OutOfFuel, p)
  | S fuel =>
      if instanceOf currToken expectedTokType then
        (_ <- generateErrorMessage expectedTokType nextTokenWithoutResync
                resyncedTokens ;;
         ret None) p
      else if lookAheadFunc p then
        (_ <- generateErrorMessage expectedTokType nextTokenWithoutResync
                resyncedTokens ;;
         x <- grammarRule ;;
         ret (Some x)) p
      else if instanceOf currToken reSyncTokType then
        (Ret None, restoreLexerState p)
      else
        let '(currToken, p) := SKIP_TOKEN p in
        let resyncedTokens := addToResyncTokens currToken resyncedTokens in
        tryInRepetitionRecovery_loop fuel grammarRule lookAheadFunc
          expectedTokType reSyncTokType nextTokenWithoutResync currToken
          resyncedTokens p
  end.

(** [tryInRepetitionRecovery(grammarRule, grammarRuleArgs, lookAheadFunc,
    expectedTokType)] *)
Definition tryInRepetitionRecovery {A : Type} (fuel : nat)
  (grammarRule : M A) (lookAheadFunc : Parser -> bool)
  (expectedTokType : TokClass) : M (option A) :=
  fun p =>
    match findReSyncTokenType fuel p with
    | Ret reSyncTokType =>
        let p := saveLexerState p in
        let resyncedTokens := [] in
        let nextTokenWithoutResync := LA p 1 in
        let currToken := LA p 1 in
        tryInRepetitionRecovery_loop fuel grammarRule lookAheadFunc
          expectedTokType reSyncTokType nextTokenWithoutResync currToken
          resyncedTokens p
    | Throw e => (Throw e, p)
    | OutOfFuel => (OutOfFuel, p)
    end.

(** [attemptInRepetitionRecovery(prodFunc, args, lookaheadFunc, prodName,
    prodOccurrence, nextToksWalker, prodKeys)] *)
Definition attemptInRepetitionRecovery {A : Type} (fuel : nat)
  (prodFunc : M A) (lookaheadFunc : Parser -> bool) (prodName : string)
  (prodOccurrence : Z) : M (option A) :=
  fun p =>
    let key := getKeyForAutomaticLookahead prodName prodOccurrence p in
    let firstAfterRepInfo := firstAfterRepetition C key in
    let expectTokAfterLastMatch := far_token firstAfterRepInfo in
    let nextTokIdx := far_occurrence firstAfterRepInfo in
    let isEndOfRule := far_isEndOfRule firstAfterRepInfo in
    let '(expectTokAfterLastMatch, nextTokIdx) :=
      if (js_length (RULE_STACK p) =? 1) && isEndOfRule
         && bool_decide (expectTokAfterLastMatch = None)
      then (Some EOF, Some 1)
      else (expectTokAfterLastMatch, nextTokIdx) in
    if shouldInRepetitionRecoveryBeTried expectTokAfterLastMatch nextTokIdx p
    then
      match expectTokAfterLastMatch with
      | Some expectTok =>
          tryInRepetitionRecovery fuel prodFunc lookaheadFunc expectTok p
      | None => (Ret None, p)
      end
    else (Ret None, p).

(** [while (cond.call(this)) { body.call(this) }] *)
Fixpoint while_do {A : Type} (fuel : nat) (cond : Parser -> bool)
  (body : M A) : M unit :=
  match fuel with
  | O => fun p => (OutOfFuel, p)
  | S fuel =>
      fun p =>
        if cond p then (_ <- body ;; while_do fuel cond body) p
        else (Ret tt, p)
  end.

(** The look-ahead function of a repetition with a predicate. *)
Definition with_predicate (predicate : option (Parser -> bool))
  (orgLookaheadFunction : Parser -> bool) : Parser -> bool :=
  match predicate with
  | None => orgLookaheadFunction
  | Some predicate => fun p => predicate p && orgLookaheadFunction p
  end.

(** [manyInternal(prodFunc, prodName, prodOccurrence, predicate, action)];
    [orgLookaheadFunction] is the look-ahead function of the occurrence and
    [prodFunc] is the DSL method that called, entered again by the
    recovery with the look-ahead function as its predicate. *)
Fixpoint manyInternal (fuel : nat) (prodName : string) (prodOccurrence : Z)
  (orgLookaheadFunction : Parser -> bool)
  (predicate : option (Parser -> bool)) (action : M JsValue) : M unit :=
  match fuel with
  | O => fun p => (OutOfFuel, p)
  | S fuel =>
      let lookaheadFunction := with_predicate predicate orgLookaheadFunction in
      _ <- while_do fuel lookaheadFunction action ;;
      fun p =>
        if recoveryEnabled p then
          (_ <- attemptInRepetitionRecovery fuel
                  (manyInternal fuel prodName prodOccurrence
                     orgLookaheadFunction (Some lookaheadFunction) action)
                  lookaheadFunction prodName prodOccurrence ;;
           ret tt) p
        else (Ret tt, p)
  end.

(** [MANY1(predicateOrAction, action)] and [MANY] *)
Definition MANY1 (fuel : nat) (orgLookaheadFunction : Parser -> bool)
  (predicate : option (Parser -> bool)) (action : M JsValue) : M unit :=
  manyInternal fuel "MANY1" 1 orgLookaheadFunction predicate action.

Definition MANY (fuel : nat) (orgLookaheadFunction : Parser -> bool)
  (predicate : option (Parser -> bool)) (action : M JsValue) : M unit :=
  MANY1 fuel orgLookaheadFunction predicate action.

(** [atLeastOneInternal(prodFunc, prodName, prodOccurrence, predicate,
    action, userDefinedErrMsg)] *)
Fixpoint atLeastOneInternal (fuel : nat) (prodName : string)
  (prodOccurrence : Z) (orgLookAheadFunc : Parser -> bool)
  (predicate : option (Parser -> bool)) (action : M JsValue)
  (userDefinedErrMsg : option string) : M unit :=
  match fuel with
  | O => fun p => (OutOfFuel, p)
  | S fuel =>
      let lookAheadFunc := with_predicate predicate orgLookAheadFunc in
      _ <- (fun p =>
              if lookAheadFunc p then
                (_ <- action ;; while_do fuel lookAheadFunc action) p
              else
                raiseEarlyExitException prodOccurrence REPETITION_MANDATORY
                  userDefinedErrMsg p) ;;
      fun p =>
        if recoveryEnabled p then
          (_ <- attemptInRepetitionRecovery fuel
                  (atLeastOneInternal fuel prodName prodOccurrence
                     orgLookAheadFunc (Some lookAheadFunc) action
                     userDefinedErrMsg)
                  lookAheadFunc prodName prodOccurrence ;;
           ret tt) p
        else (Ret tt, p)
  end.

(** [AT_LEAST_ONE1(predicateOrAction, action, errMsg)] and [AT_LEAST_ONE] *)
Definition AT_LEAST_ONE1 (fuel : nat) (orgLookAheadFunc : Parser -> bool)
  (predicate : option (Parser -> bool)) (action : M JsValue)
  (errMsg : option string) : M unit :=
  atLeastOneInternal fuel "AT_LEAST_ONE1" 1 orgLookAheadFunc predicate action
    errMsg.

Definition AT_LEAST_ONE (fuel : nat) (orgLookAheadFunc : Parser -> bool)
  (predicate : option (Parser -> bool)) (action : M JsValue)
  (errMsg : option string) : M unit :=
  AT_LEAST_ONE1 fuel orgLookAheadFunc predicate action errMsg.

(** [() => this.LA(1) instanceof separator] *)
Definition separatorLookAheadFunc (separator : TokClass) (p : Parser) : bool :=
  instanceOf (LA p 1) separator.

(** The loop over the second and later iterations of a repetition with a
    separator; [separatorsResult] is the array the separators are pushed
    to. *)
Fixpoint separator_loop (fuel : nat) (separator : TokClass)
  (action : M JsValue) (separatorsResult : list (option Token))
  : M (list (option Token)) :=
  match fuel with
  | O => fun p => (OutOfFuel, p)
  | S fuel =>
      fun p =>
        if separatorLookAheadFunc separator p then
          (sep <- CONSUME separator ;;
           _ <- action ;;
           separator_loop fuel separator action (push separatorsResult sep)) p
        else (Ret separatorsResult, p)
  end.

(** [repetitionSepSecondInternal(prodName, prodOccurrence, separator,
    separatorLookAheadFunc, action, separatorsResult, laKeys,
    nextTerminalAfterWalker)]; the answer is the array of separators, which
    the caller shares. *)
Fixpoint repetitionSepSecondInternal (fuel : nat) (prodName : string)
  (prodOccurrence : Z) (separator : TokClass) (action : M JsValue)
  (separatorsResult : list (option Token)) : M (list (option Token)) :=
  match fuel with
  | O => fun p => (OutOfFuel, p)
  | S fuel =>
      separatorsResult <- separator_loop fuel separator action
                            separatorsResult ;;
      fun p =>
        if recoveryEnabled p then
          (again <- attemptInRepetitionRecovery fuel
                      (repetitionSepSecondInternal fuel prodName
                         prodOccurrence separator action separatorsResult)
                      (separatorLookAheadFunc separator) prodName
                      prodOccurrence ;;
           ret (default separatorsResult again)) p
        else (Ret separatorsResult, p)
  end.

(** The first iteration and the rest of a repetition with a separator,
    shared by [manySepFirstInternal] and [atLeastOneSepFirstInternal]. *)
Definition sep_iterations (fuel : nat) (prodName : string)
  (prodOccurrence : Z) (separator : TokClass) (action : M JsValue)
  : M (list (option Token)) :=
  _ <- action ;;
  separatorsResult <- separator_loop fuel separator action [] ;;
  fun p =>
    if recoveryEnabled p then
      (again <- attemptInRepetitionRecovery fuel
                  (repetitionSepSecondInternal fuel prodName prodOccurrence
                     separator action separatorsResult)
                  (separatorLookAheadFunc separator) prodName
                  prodOccurrence ;;
       ret (default separatorsResult again)) p
    else (Ret separatorsResult, p).

(** [manySepFirstInternal(prodFunc, prodName, prodOccurrence, separator,
    action)] *)
Definition manySepFirstInternal (fuel : nat) (prodName : string)
  (prodOccurrence : Z) (firstIterationLaFunc : Parser -> bool)
  (separator : TokClass) (action : M JsValue) : M (list (option Token)) :=
  fun p =>
    if firstIterationLaFunc p then
      sep_iterations fuel prodName prodOccurrence separator action p
    else (Ret [], p).

(** [atLeastOneSepFirstInternal(prodFunc, prodName, prodOccurrence,
    separator, action, userDefinedErrMsg)] *)
Definition atLeastOneSepFirstInternal (fuel : nat) (prodName : string)
  (prodOccurrence : Z) (firstIterationLookaheadFunc : Parser -> bool)
  (separator : TokClass) (action : M JsValue)
  (userDefinedErrMsg : option string) : M (list (option Token)) :=
  fun p =>
    if firstIterationLookaheadFunc p then
      sep_iterations fuel prodName prodOccurrence separator action p
    else
      raiseEarlyExitException prodOccurrence
        REPETITION_MANDATORY_WITH_SEPARATOR userDefinedErrMsg p.

(** [MANY_SEP1(separator, action)] and [AT_LEAST_ONE_SEP1(separator, action,
    errMsg)] *)
Definition MANY_SEP1 (fuel : nat) (firstIterationLaFunc : Parser -> bool)
  (separator : TokClass) (action : M JsValue) : M (list (option Token)) :=
  manySepFirstInternal fuel "MANY_SEP1" 1 firstIterationLaFunc separator
    action.

Definition AT_LEAST_ONE_SEP1 (fuel : nat)
  (firstIterationLookaheadFunc : Parser -> bool) (separator : TokClass)
  (action : M JsValue) (errMsg : option string) : M (list (option Token)) :=
  atLeastOneSepFirstInternal fuel "AT_LEAST_ONE_SEP1" 1
    firstIterationLookaheadFunc separator action errMsg.

End Runtime.

(** ** The grammar AST and its clone visitor *)

Module gast.

(** Modelled from the spec: the production classes of
    [grammar/gast_public] (data model of the GAST), with the constructor
    arguments the clone visitor passes.  [oid] is the identity of the node
    object; [referencedRule] is the reference a non terminal holds to its
    rule, [None] while it is [undefined]. *)
#[warnings="-register-all"]
Inductive IProduction : Type :=
| Rule (oid : nat) (name : string) (definition : list IProduction)
    (orgText : string)
| Flat (oid : nat) (definition : list IProduction)
| NonTerminal (oid : nat) (nonTerminalName : string)
    (referencedRule : option nat) (occurrenceInParent : Z)
| Terminal (oid : nat) (terminalType : TokClass) (occurrenceInParent : Z)
| Option (oid : nat) (definition : list IProduction) (occurrenceInParent : Z)
| Repetition (oid : nat) (definition : list IProduction)
    (occurrenceInParent : Z)
| RepetitionMandatory (oid : nat) (definition : list IProduction)
    (occurrenceInParent : Z)
| RepetitionMandatoryWithSeparator (oid : nat)
    (definition : list IProduction) (separator : TokClass)
    (occurrenceInParent : Z)
| RepetitionWithSeparator (oid : nat) (definition : list IProduction)
    (separator : TokClass) (occurrenceInParent : Z)
| Alternation (oid : nat) (definition : list IProduction)
    (occurrenceInParent : Z).

(** The children of a node; terminals and non terminals are leaves. *)
Definition definition_of (node : IProduction) : list IProduction :=
  match node with
  | Rule _ _ d _ | Flat _ d | Option _ d _ | Repetition _ d _
  | RepetitionMandatory _ d _ | RepetitionMandatoryWithSeparator _ d _ _
  | RepetitionWithSeparator _ d _ _ | Alternation _ d _ => d
  | NonTerminal _ _ _ _ | Terminal _ _ _ => []
  end.

(** The identities of all the node objects of a tree. *)
Fixpoint oids (node : IProduction) : list nat :=
  match node with
  | Rule o _ d _ | Flat o d | Option o d _ | Repetition o d _
  | RepetitionMandatory o d _ | RepetitionMandatoryWithSeparator o d _ _
  | RepetitionWithSeparator o d _ _ | Alternation o d _ =>
      o :: flat_map oids d
  | NonTerminal o _ _ _ | Terminal o _ _ => [o]
  end.

(** The structure of a tree: the tree with the identities of its nodes and
    the rule references of its non terminals wiped.  Variant, child order,
    names, token classes, separators and occurrence indices remain. *)
Fixpoint structure (node : IProduction) : IProduction :=
  match node with
  | Rule _ name d orgText => Rule 0 name (map structure d) orgText
  | Flat _ d => Flat 0 (map structure d)
  | NonTerminal _ name _ occ => NonTerminal 0 name None occ
  | Terminal _ ty occ => Terminal 0 ty occ
  | Option _ d occ => Option 0 (map structure d) occ
  | Repetition _ d occ => Repetition 0 (map structure d) occ
  | RepetitionMandatory _ d occ => RepetitionMandatory 0 (map structure d) occ
  | RepetitionMandatoryWithSeparator _ d sep occ =>
      RepetitionMandatoryWithSeparator 0 (map structure d) sep occ
  | RepetitionWithSeparator _ d sep occ =>
      RepetitionWithSeparator 0 (map structure d) sep occ
  | Alternation _ d occ => Alternation 0 (map structure d) occ
  end.

(** No non terminal of the tree holds a rule reference. *)
Fixpoint references_unset (node : IProduction) : bool :=
  match node with
  | NonTerminal _ _ r _ => bool_decide (r = None)
  | Terminal _ _ _ => true
  | Rule _ _ d _ | Flat _ d | Option _ d _ | Repetition _ d _
  | RepetitionMandatory _ d _ | RepetitionMandatoryWithSeparator _ d _ _
  | RepetitionWithSeparator _ d _ _ | Alternation _ d _ =>
      forallb references_unset d
  end.

(** [GastCloneVisitor.visit(node)], the dispatch on the class of the node
    with the [visitX] methods inlined.  [next] is the next free object
    identity; [map(node.definition, ...)] visits the children from left to
    right before the [new] of the node itself. *)
Fixpoint visit (node : IProduction) (next : nat) {struct node}
  : IProduction * nat :=
  let visit_each :=
    fix visit_each (l : list IProduction) (next : nat) {struct l}
      : list IProduction * nat :=
      match l with
      | [] => ([], next)
      | currSubDef :: rest =>
          let '(x, next) := visit currSubDef next in
          let '(xs, next) := visit_each rest next in
          (x :: xs, next)
      end in
  match node with
  | NonTerminal _ nonTerminalName _ occurrenceInParent =>
      (NonTerminal next nonTerminalName None occurrenceInParent, S next)
  | Flat _ d =>
      let '(definition, next) := visit_each d next in
      (Flat next definition, S next)
  | Option _ d occurrenceInParent =>
      let '(definition, next) := visit_each d next in
      (Option next definition occurrenceInParent, S next)
  | Repetition _ d occurrenceInParent =>
      let '(definition, next) := visit_each d next in
      (Repetition next definition occurrenceInParent, S next)
  | RepetitionMandatory _ d occurrenceInParent =>
      let '(definition, next) := visit_each d next in
      (RepetitionMandatory next definition occurrenceInParent, S next)
  | RepetitionMandatoryWithSeparator _ d separator occurrenceInParent =>
      let '(definition, next) := visit_each d next in
      (RepetitionMandatoryWithSeparator next definition separator
         occurrenceInParent, S next)
  | RepetitionWithSeparator _ d separator occurrenceInParent =>
      let '(definition, next) := visit_each d next in
      (RepetitionWithSeparator next definition separator occurrenceInParent,
       S next)
  | Alternation _ d occurrenceInParent =>
      let '(definition, next) := visit_each d next in
      (Alternation next definition occurrenceInParent, S next)
  | Terminal _ terminalType occurrenceInParent =>
      (Terminal next terminalType occurrenceInParent, S next)
  | Rule _ name d orgText =>
      let '(definition, next) := visit_each d next in
      (Rule next name definition orgText, S next)
  end.

(** [map(definition, (currSubDef) => this.visit(currSubDef))] *)
Fixpoint visit_each (l : list IProduction) (next : nat)
  : list IProduction * nat :=
  match l with
  | [] => ([], next)
  | currSubDef :: rest =>
      let '(x, next) := visit currSubDef next in
      let '(xs, next) := visit_each rest next in
      (x :: xs, next)
  end.

(** [cloneProduction(prod)] *)
Definition cloneProduction (prod : IProduction) (next : nat)
  : IProduction * nat :=
  visit prod next.

(** What one visit yields: a copy of the same structure, without rule
    references, whose node objects are the ones allocated meanwhile. *)
Definition copies (node : IProduction) : Prop :=
  forall next,
    let '(clone, next') := visit node next in
    structure clone = structure node /\
    references_unset clone = true /\
    (next <= next')%nat /\
    Forall (fun o => (next <= o < next')%nat) (oids clone).

End gast.

(** ** Self analysis of a grammar class *)

Module analysis.

Import gast.

(** [ParserDefinitionErrorType] *)
Inductive ParserDefinitionErrorType : Type :=
| INVALID_RULE_NAME
| DUPLICATE_RULE_NAME
| INVALID_RULE_OVERRIDE
| DUPLICATE_PRODUCTIONS
| UNRESOLVED_SUBRULE_REF
| LEFT_RECURSION
| NONE_LAST_EMPTY_ALT
| AMBIGUOUS_ALTS.

(** [IParserDefinitionError] *)
Record IParserDefinitionError : Type := mkDefinitionError {
  message : string;
  type : ParserDefinitionErrorType;
  ruleName : string
}.

(** [IgnoredParserIssues] *)
Abbreviation IgnoredParserIssues := (gmap string (gmap string bool)).

(** Modelled from the spec: the [HashTable] of [lang/lang_extensions], a
    map from strings that lists its keys in the order of their first
    [put]. *)
Abbreviation HashTable V := (list (string * V)).

Definition ht_containsKey {V : Type} (t : HashTable V) (key : string) : bool :=
  existsb (fun kv => bool_decide (fst kv = key)) t.

Fixpoint ht_get {V : Type} (t : HashTable V) (key : string) : option V :=
  match t with
  | [] => None
  | (k, v) :: rest => if bool_decide (k = key) then Some v else ht_get rest key
  end.

Fixpoint ht_put {V : Type} (t : HashTable V) (key : string) (value : V)
  : HashTable V :=
  match t with
  | [] => [(key, value)]
  | (k, v) :: rest =>
      if bool_decide (k = key) then (k, value) :: rest
      else (k, v) :: ht_put rest key value
  end.

Definition ht_putAll {V : Type} (t other : HashTable V) : HashTable V :=
  fold_left (fun acc kv => ht_put acc (fst kv) (snd kv)) other t.

Definition ht_keys {V : Type} (t : HashTable V) : list string := map fst t.

Definition ht_values {V : Type} (t : HashTable V) : list V := map snd t.

(** The fields of a parser instance that self analysis reads. *)
Record ParserInstance : Type := mkParserInstance {
  (** [classNameFromInstance(parserInstance)] *)
  className : string;
  _productions : HashTable IProduction;
  maxLookahead : Z;
  ignoredIssues : IgnoredParserIssues
}.

(** The calls of the analysis steps, in the order they were made. *)
Inductive AnalysisCall : Type :=
| CallResolveGrammar
| CallValidateGrammar
| CallComputeAllProdsFollows.

#[global] Instance AnalysisCall_eq_dec : EqDecision AnalysisCall.
Proof. solve_decision. Defined.

(** Modelled from the spec: the class keyed tables of the [cache] module
    (analysis-done flag, definition errors, productions, FOLLOW sets,
    each per grammar class), together with the static
    [Parser.DEFER_DEFINITION_ERRORS_HANDLING], the allocation counter of
    GAST node objects and the log of the analysis calls. *)
Record World : Type := mkWorld {
  CLASS_TO_SELF_ANALYSIS_DONE : gmap string bool;
  CLASS_TO_DEFINITION_ERRORS : gmap string (list IParserDefinitionError);
  CLASS_TO_GRAMMAR_PRODUCTIONS : gmap string (HashTable IProduction);
  CLASS_TO_RESYNC_FOLLOW_SETS : gmap string (HashTable (list TokClass));
  DEFER_DEFINITION_ERRORS_HANDLING : bool;
  nextOid : nat;
  calls : list AnalysisCall
}.

Definition set_done (w : World) (v : gmap string bool) : World :=
  mkWorld v (CLASS_TO_DEFINITION_ERRORS w) (CLASS_TO_GRAMMAR_PRODUCTIONS w)
    (CLASS_TO_RESYNC_FOLLOW_SETS w) (DEFER_DEFINITION_ERRORS_HANDLING w)
    (nextOid w) (calls w).

Definition set_definition_errors (w : World)
  (v : gmap string (list IParserDefinitionError)) : World :=
  mkWorld (CLASS_TO_SELF_ANALYSIS_DONE w) v (CLASS_TO_GRAMMAR_PRODUCTIONS w)
    (CLASS_TO_RESYNC_FOLLOW_SETS w) (DEFER_DEFINITION_ERRORS_HANDLING w)
    (nextOid w) (calls w).

Definition set_productions (w : World)
  (v : gmap string (HashTable IProduction)) : World :=
  mkWorld (CLASS_TO_SELF_ANALYSIS_DONE w) (CLASS_TO_DEFINITION_ERRORS w) v
    (CLASS_TO_RESYNC_FOLLOW_SETS w) (DEFER_DEFINITION_ERRORS_HANDLING w)
    (nextOid w) (calls w).

Definition set_follows (w : World)
  (v : gmap string (HashTable (list TokClass))) : World :=
  mkWorld (CLASS_TO_SELF_ANALYSIS_DONE w) (CLASS_TO_DEFINITION_ERRORS w)
    (CLASS_TO_GRAMMAR_PRODUCTIONS w) v (DEFER_DEFINITION_ERRORS_HANDLING w)
    (nextOid w) (calls w).

Definition set_nextOid (w : World) (v : nat) : World :=
  mkWorld (CLASS_TO_SELF_ANALYSIS_DONE w) (CLASS_TO_DEFINITION_ERRORS w)
    (CLASS_TO_GRAMMAR_PRODUCTIONS w) (CLASS_TO_RESYNC_FOLLOW_SETS w)
    (DEFER_DEFINITION_ERRORS_HANDLING w) v (calls w).

Definition log_call (w : World) (c : AnalysisCall) : World :=
  mkWorld (CLASS_TO_SELF_ANALYSIS_DONE w) (CLASS_TO_DEFINITION_ERRORS w)
    (CLASS_TO_GRAMMAR_PRODUCTIONS w) (CLASS_TO_RESYNC_FOLLOW_SETS w)
    (DEFER_DEFINITION_ERRORS_HANDLING w) (nextOid w) (calls w ++ [c]).

(** [cache.getProductionsForClass(className)] *)
Definition getProductionsForClass (w : World) (className : string)
  : HashTable IProduction :=
  default [] (CLASS_TO_GRAMMAR_PRODUCTIONS w !! className).

(** [cache.setResyncFollowsForClass(className, followSet)] *)
Definition setResyncFollowsForClass (w : World) (className : string)
  (followSet : HashTable (list TokClass)) : World :=
  set_follows w (<[className := followSet]> (CLASS_TO_RESYNC_FOLLOW_SETS w)).

(** [isEmpty(arr)] *)
Definition isEmpty {A : Type} (arr : list A) : bool :=
  match arr with
  | [] => true
  | _ => false
  end.

(** [arr.join(sep)] *)
Fixpoint join (sep : string) (arr : list string) : string :=
  match arr with
  | [] => EmptyString
  | [s] => s
  | s :: rest => s +:+ sep +:+ join sep rest
  end.

(** The error that aggregates the messages of the definition errors. *)
Definition definition_errors_detected
  (definitionErrors : list IParserDefinitionError) : Exn :=
  let defErrorsMsgs := map message definitionErrors in
  JsError ("Parser Definition Errors detected" +:+ NL +:+ ": " +:+
           join (NL +:+ "-------------------------------" +:+ NL)
             defErrorsMsgs).

(** The text [s] occurs in the text [t]. *)
Definition occurs_in (s t : string) : Prop :=
  exists before after : string, t = before +:+ s +:+ after.

Definition anonymous_parser_error : Exn :=
  JsError ("A Parser's constructor may not be an anonymous Function, it must be a named function"
           +:+ NL +:+
           "The constructor's name is used at runtime for performance (caching) purposes.").

(** The loop that clones the productions of the instance into a new
    table. *)
Fixpoint clone_productions (orgProductions : HashTable IProduction)
  (next : nat) : HashTable IProduction * nat :=
  match orgProductions with
  | [] => ([], next)
  | (key, value) :: rest =>
      let '(clone, next) := cloneProduction value next in
      let '(others, next) := clone_productions rest next in
      ((key, clone) :: others, next)
  end.

Section SelfAnalysis.

(** The analysis steps, which are not part of the parser source.  The
    resolver writes the rule references into the productions it is given
    and returns its errors. *)
Variable resolveGrammar :
  HashTable IProduction -> HashTable IProduction * list IParserDefinitionError.
Variable validateGrammar :
  list IProduction -> Z -> IgnoredParserIssues -> list IParserDefinitionError.
Variable computeAllProdsFollows :
  list IProduction -> HashTable (list TokClass).

(** The block of [performSelfAnalysis] that runs once per class. *)
Definition analyse_once (parserInstance : ParserInstance)
  (className : string) (w : World) : Res unit * World :=
  let w := set_done w (<[className := true]> (CLASS_TO_SELF_ANALYSIS_DONE w)) in
  let orgProductions := _productions parserInstance in
  let '(clonedProductions, next) :=
    clone_productions orgProductions (nextOid w) in
  let w := set_nextOid w next in
  let definitionErrors := CLASS_TO_DEFINITION_ERRORS w !! className in
  let '(clonedProductions, resolverErrors) :=
    resolveGrammar clonedProductions in
  let w := log_call w CallResolveGrammar in
  (* the cache holds the very rule objects the resolver has written *)
  let w := set_productions w
             (<[className := ht_putAll (getProductionsForClass w className)
                               clonedProductions]>
                (CLASS_TO_GRAMMAR_PRODUCTIONS w)) in
  match definitionErrors with
  | None => (Throw TypeError, w)
  | Some definitionErrors =>
      let definitionErrors := definitionErrors ++ resolverErrors in
      let '(definitionErrors, w) :=
        if isEmpty resolverErrors then
          let validationErrors :=
            validateGrammar (ht_values clonedProductions)
              (maxLookahead parserInstance) (ignoredIssues parserInstance) in
          (definitionErrors ++ validationErrors,
           log_call w CallValidateGrammar)
        else (definitionErrors, w) in
      (* [definitionErrors] is the array of the cache, pushed in place *)
      let w := set_definition_errors w
                 (<[className := definitionErrors]>
                    (CLASS_TO_DEFINITION_ERRORS w)) in
      if negb (isEmpty definitionErrors)
         && negb (DEFER_DEFINITION_ERRORS_HANDLING w)
      then (Throw (definition_errors_detected definitionErrors), w)
      else if isEmpty definitionErrors then
        let allFollows :=
          computeAllProdsFollows (ht_values clonedProductions) in
        let w := log_call w CallComputeAllProdsFollows in
        (Ret tt, setResyncFollowsForClass w className allFollows)
      else (Ret tt, w)
  end.

(** [Parser.performSelfAnalysis(parserInstance)] *)
Definition performSelfAnalysis (parserInstance : ParserInstance) (w : World)
  : Res unit * World :=
  let className := className parserInstance in
  if bool_decide (className = EmptyString) then (Throw anonymous_parser_error, w)
  else
    let '(r, w) :=
      if negb (bool_decide (is_Some (CLASS_TO_SELF_ANALYSIS_DONE w !! className)))
      then analyse_once parserInstance className w
      else (Ret tt, w) in
    match r with
    | Ret _ =>
        match CLASS_TO_DEFINITION_ERRORS w !! className with
        | None => (Throw TypeError, w)
        | Some definitionErrors =>
            if negb (isEmpty definitionErrors)
               && negb (DEFER_DEFINITION_ERRORS_HANDLING w)
            then (Throw (definition_errors_detected definitionErrors), w)
            else (Ret tt, w)
        end
    | _ => (r, w)
    end.

(** What the resolver and the validator report for the clones of the
    productions of an instance. *)
Definition resolved_productions (parserInstance : ParserInstance) (w : World)
  : HashTable IProduction :=
  fst (resolveGrammar
         (fst (clone_productions (_productions parserInstance) (nextOid w)))).

Definition resolver_errors (parserInstance : ParserInstance) (w : World)
  : list IParserDefinitionError :=
  snd (resolveGrammar
         (fst (clone_productions (_productions parserInstance) (nextOid w)))).

Definition validation_errors (parserInstance : ParserInstance) (w : World)
  : list IParserDefinitionError :=
  validateGrammar (ht_values (resolved_productions parserInstance w))
    (maxLookahead parserInstance) (ignoredIssues parserInstance).

End SelfAnalysis.

End analysis.

(** ** Auxiliary definitions of the statements *)

Section SpecDefs.

Variable C : ParserClass.

(** The exception that a failed [consume] builds and saves. *)
Definition mismatch_exception (tokClass : TokClass) (t : Token) (p : Parser)
  : RecognitionException :=
  mkRecognitionException (nextExcId p) MismatchedTokenException
    (getMisMatchTokenErrorMessage C tokClass t) (Some t)
    (Some (mkContext (RULE_STACK p) (RULE_OCCURRENCE_STACK p))) [].

(** The parser after that exception was saved. *)
Definition after_mismatch (tokClass : TokClass) (t : Token) (p : Parser)
  : Parser :=
  set_errors (set_nextExcId p (S (nextExcId p)))
    (errors p ++ [mismatch_exception tokClass t p]).

End SpecDefs.

(** A grammar class that keeps the methods of the base class, with no
    FOLLOW entries and a token walker that always answers [follows]. *)
Definition sample_class (follows : list TokClass) : ParserClass :=
  mkParserClass "SampleParser" (fun _ => []) (fun _ => follows)
    default_canTokenTypeBeInsertedInRecovery default_getTokenToInsert
    (fun _ t => "Expecting token but found --> '" +:+ image t +:+ "' <--")
    (fun _ _ => EmptyString) (fun _ _ _ => EmptyString)
    (fun _ => mkFirstAfterRepetition None None true).

(** ** The discipline of grammar actions

    Grammar actions are user code written with the parsing DSL.  The
    statements about the rule wrapper and about backtracking quantify over
    every action that keeps this discipline, and the DSL methods are shown
    to keep it. *)

(** What a grammar action leaves as it found it: the rule stacks and the
    backtracking stack (every push is matched by a pop), the recovery flag
    and the input. *)
Definition same_frame (p q : Parser) : Prop :=
  RULE_STACK q = RULE_STACK p /\
  RULE_OCCURRENCE_STACK q = RULE_OCCURRENCE_STACK p /\
  isBackTrackingStack q = isBackTrackingStack p /\
  recoveryEnabled q = recoveryEnabled p /\
  _input q = _input p.

(** A disciplined action keeps the frame and the bound of the input index,
    and has saved every recognition exception it raises. *)
Definition disciplined {A : Type} (m : M A) : Prop :=
  forall p r q, m p = (r, q) -> r <> OutOfFuel ->
    same_frame p q /\
    (idx_ok p -> idx_ok q) /\
    (forall e, r = Throw (Recognition e) -> e ∈ errors q).

(** With recovery disabled, inside a rule, an action records an error only
    by raising it. *)
Definition halts_on_first_error {A : Type} (m : M A) : Prop :=
  forall p r q,
    recoveryEnabled p = false -> RULE_STACK p <> [] -> m p = (r, q) ->
    match r with
    | Ret _ => errors q = errors p
    | Throw (Recognition e) => errors q = errors p ++ [e]
    | _ => True
    end.

(** The recovery value of a rule configuration. *)
Definition recoveryValue (config : IRuleConfig) : JsValue :=
  default DEFAULT_RULE_CONFIG_recoveryValueFunc (recoveryValueFunc config) tt.

(** The exception that the exit of the top rule saves for redundant
    input. *)
Definition redundant_input_exception (t : Token) (p : Parser)
  : RecognitionException :=
  mkRecognitionException (nextExcId p) NotAllInputParsedException
    ("Redundant input, expecting EOF but found: " +:+ image t) (Some t)
    (Some (mkContext (pop (RULE_STACK p)) (pop (RULE_OCCURRENCE_STACK p))))
    [].

(** What [reSyncTo] changes: the input index, forwards. *)
Definition resynced (p q : Parser) : Prop :=
  q = set_inputIdx p (inputIdx q) /\ inputIdx p <= inputIdx q.

(** The parser after the two pops of the rule exit. *)
Definition exit_stacks (p : Parser) : Parser :=
  set_RULE_OCCURRENCE_STACK (set_RULE_STACK p (pop (RULE_STACK p)))
    (pop (RULE_OCCURRENCE_STACK p)).

(** An action that leaves the backtracking stack as it found it. *)
Definition keeps_backtracking_stack {A : Type} (m : M A) : Prop :=
  forall p r q, m p = (r, q) -> r <> OutOfFuel ->
    isBackTrackingStack q = isBackTrackingStack p.

(** A rule body of one statement, [return this.CONSUME(A)], and the token
    classes of the examples. *)
Definition TokA : TokClass := Extends "A" TokenRoot.
Definition TokB : TokClass := Extends "B" TokenRoot.

Definition sample_rule (C : ParserClass) : list JsValue -> M JsValue :=
  fun _ => t <- CONSUME C TokA ;; ret (JsTok t).

(** The saved lexer state, when there is one, respects the bound of the
    input index. *)
Definition saved_ok (p : Parser) : Prop :=
  match savedTokenIdx p with
  | Some idx => -1 <= idx
  | None => True
  end.

(** A second grammar, [list : item (Comma item)*] with [item : A], written
    with [SUBRULE] and [MANY]; the look-ahead function of the repetition
    looks for the comma. *)
Definition TokComma : TokClass := Extends "Comma" TokenRoot.

Definition item_rule (C : ParserClass) (fuel : nat)
  : Z -> list JsValue -> M JsValue :=
  wrappedGrammarRule C fuel "item" (sample_rule C) DEFAULT_RULE_CONFIG.

Definition list_rule (C : ParserClass) (fuel : nat)
  : list JsValue -> M JsValue :=
  fun _ =>
    _ <- SUBRULE (item_rule C fuel) [] ;;
    _ <- MANY C fuel (fun p => instanceOf (LA p 1) TokComma) None
           (_ <- CONSUME C TokComma ;; SUBRULE2 (item_rule C fuel) []) ;;
    ret JsUndefined.

(** ** Auxiliary definitions of the further statements *)

(** The tokens [LA(from)], [LA(from + 1)], ..., [LA(from + n - 1)]. *)
Definition lookahead_window (p : Parser) (from : Z) (n : nat)
  : list (option Token) :=
  map (fun i => LA p (from + Z.of_nat i)) (seq 0 n).

(** The tokens of a list that are not instances of [EOF]: what
    [addToResyncTokens] keeps. *)
Definition without_EOF (toks : list (option Token)) : list (option Token) :=
  List.filter (fun tok => negb (instanceOf tok EOF)) toks.

(** The parser after one more exception [e] was saved. *)
Definition after_saving (e : RecognitionException) (p : Parser) : Parser :=
  set_errors (set_nextExcId p (S (nextExcId p))) (errors p ++ [e]).

(** The exception that [throw this.SAVE_ERROR(new X(msg, LA(1)))] builds in
    the state [p]. *)
Definition saved_exception (kind : RecognitionKind) (msg : string)
  (t : Token) (p : Parser) : RecognitionException :=
  mkRecognitionException (nextExcId p) kind msg (Some t)
    (Some (mkContext (RULE_STACK p) (RULE_OCCURRENCE_STACK p))) [].

(** A token is taken from the input, or is the end of input token. *)
Definition from_input (p : Parser) (tok : option Token) : Prop :=
  exists t, tok = Some t /\ (t ∈ _input p \/ t = new_EOF).

Section MessageDefs.

Variable C : ParserClass.

(** The message of the exception that [raiseEarlyExitException] builds for
    the next token [t]. *)
Definition early_exit_message (occurrence : Z) (prodType : PROD_TYPE)
  (userDefinedErrMsg : option string) (t : Token) (p : Parser) : string :=
  match userDefinedErrMsg with
  | None =>
      "expecting at least one iteration which starts with one of these possible Token sequences::"
      +:+ NL +:+ "  <"
      +:+ optionalProdLookaheadPathsText C (js_last (RULE_STACK p)) occurrence
            prodType
      +:+ ">"
  | Some s => "Expecting at least one " +:+ s
  end +:+ " but found: '" +:+ image t +:+ "'".

(** The message of the exception that [raiseNoAltException] builds for the
    next token [t]. *)
Definition no_alt_message (occurrence : Z) (errMsgTypes : option string)
  (t : Token) (p : Parser) : string :=
  "Expecting: " +:+
  match errMsgTypes with
  | Some s => s
  | None =>
      "one of these possible Token sequences:" +:+ NL +:+ "  <"
      +:+ orLookaheadPathsText C (js_last (RULE_STACK p)) occurrence +:+ ">"
  end +:+ " " +:+ " but found: '" +:+ image t +:+ "'".

End MessageDefs.

(** A separator that a repetition with separator answers: an instance of
    the separator class that was read from the input. *)
Definition separator_from_input (separator : TokClass) (p : Parser)
  (tok : option Token) : Prop :=
  instanceOf tok separator = true /\ from_input p tok.

(** Every error saved in [p] is still saved in [q], at the same index of
    [errors]; at most its [resyncedTokens] were written meanwhile. *)
Definition errors_kept (p q : Parser) : Prop :=
  forall (i : nat) (x : RecognitionException),
    errors p !! i = Some x ->
    exists toks, errors q !! i = Some (set_resyncedTokens x toks).

(** An action that drops no saved error. *)
Definition keeps_errors {A : Type} (m : M A) : Prop :=
  forall p r q, m p = (r, q) -> errors_kept p q.

(** ** The utilities of the grammar AST *)

Module gast_util.

Import gast.

(** Modelled from the spec: the classes of the productions.  Every variant
    of the GAST is a class of its own; all of them but [Terminal] are
    abstract productions, which hold a [definition]. *)
Inductive ProdClass : Type :=
| CRule
| CFlat
| CNonTerminal
| CTerminal
| COption
| CRepetition
| CRepetitionMandatory
| CRepetitionMandatoryWithSeparator
| CRepetitionWithSeparator
| CAlternation.

#[global] Instance ProdClass_eq_dec : EqDecision ProdClass.
Proof. solve_decision. Defined.

(** [prod.constructor] *)
Definition constructor_of (prod : IProduction) : ProdClass :=
  match prod with
  | Rule _ _ _ _ => CRule
  | Flat _ _ => CFlat
  | NonTerminal _ _ _ _ => CNonTerminal
  | Terminal _ _ _ => CTerminal
  | Option _ _ _ => COption
  | Repetition _ _ _ => CRepetition
  | RepetitionMandatory _ _ _ => CRepetitionMandatory
  | RepetitionMandatoryWithSeparator _ _ _ _ =>
      CRepetitionMandatoryWithSeparator
  | RepetitionWithSeparator _ _ _ _ => CRepetitionWithSeparator
  | Alternation _ _ _ => CAlternation
  end.

(** [prod instanceof gast.X] *)
Definition instanceof (prod : IProduction) (X : ProdClass) : bool :=
  bool_decide (constructor_of prod = X).

(** [prod instanceof gast.AbstractProduction] *)
Definition instanceof_AbstractProduction (prod : IProduction) : bool :=
  negb (instanceof prod CTerminal).

(** Modelled from the spec: [functionName(clazz)] of [lang/lang_extensions],
    the name of a class. *)
Definition functionName (clazz : ProdClass) : string :=
  match clazz with
  | CRule => "Rule"
  | CFlat => "Flat"
  | CNonTerminal => "NonTerminal"
  | CTerminal => "Terminal"
  | COption => "Option"
  | CRepetition => "Repetition"
  | CRepetitionMandatory => "RepetitionMandatory"
  | CRepetitionMandatoryWithSeparator => "RepetitionMandatoryWithSeparator"
  | CRepetitionWithSeparator => "RepetitionWithSeparator"
  | CAlternation => "Alternation"
  end.

(** The identity of the node object. *)
Definition oid_of (prod : IProduction) : nat :=
  match prod with
  | Rule o _ _ _ | Flat o _ | NonTerminal o _ _ _ | Terminal o _ _
  | Option o _ _ | Repetition o _ _ | RepetitionMandatory o _ _
  | RepetitionMandatoryWithSeparator o _ _ _
  | RepetitionWithSeparator o _ _ _ | Alternation o _ _ => o
  end.

(** [isSequenceProd(prod)] *)
Definition isSequenceProd (prod : IProduction) : bool :=
  instanceof prod CFlat ||
  instanceof prod COption ||
  instanceof prod CRepetition ||
  instanceof prod CRepetitionMandatory ||
  instanceof prod CRepetitionMandatoryWithSeparator ||
  instanceof prod CRepetitionWithSeparator ||
  instanceof prod CTerminal ||
  instanceof prod CRule.

(** [isBranchingProd(prod)] *)
Definition isBranchingProd (prod : IProduction) : bool :=
  instanceof prod CAlternation.

(** The object [productionToDslName] after the eight assignments. *)
Definition productionToDslName : gmap string string :=
  <[functionName CTerminal := "CONSUME"]>
    (<[functionName CAlternation := "OR"]>
       (<[functionName CRepetition := "MANY"]>
          (<[functionName CRepetitionWithSeparator := "MANY_SEP"]>
             (<[functionName CRepetitionMandatoryWithSeparator
                  := "AT_LEAST_ONE_SEP"]>
                (<[functionName CRepetitionMandatory := "AT_LEAST_ONE"]>
                   (<[functionName COption := "OPTION"]>
                      (<[functionName CNonTerminal := "SUBRULE"]> ∅))))))).

(** [getProductionDslName(prod)]; [None] is [undefined]. *)
Definition getProductionDslName (prod : IProduction) : option string :=
  let clazz := constructor_of prod in
  let prodName := functionName clazz in
  productionToDslName !! prodName.

(** Modelled from the spec: the array helpers [some(arr, predicate)] and
    [every(arr, predicate)] of [utils/utils], left to right scans that stop
    at the first element that decides the answer; here for a predicate
    that reads and writes a state and may run out of fuel. *)
Fixpoint some_with {A S : Type} (predicate : A -> S -> option (bool * S))
  (arr : list A) (s : S) : option (bool * S) :=
  match arr with
  | [] => Some (false, s)
  | x :: rest =>
      match predicate x s with
      | None => None
      | Some (true, s) => Some (true, s)
      | Some (false, s) => some_with predicate rest s
      end
  end.

Fixpoint every_with {A S : Type} (predicate : A -> S -> option (bool * S))
  (arr : list A) (s : S) : option (bool * S) :=
  match arr with
  | [] => Some (true, s)
  | x :: rest =>
      match predicate x s with
      | None => None
      | Some (false, s) => Some (false, s)
      | Some (true, s) => every_with predicate rest s
      end
  end.

Section IsOptionalProd.

(** The [definition] that a non terminal answers is the definition of the
    rule it references; it is read through the reference, whose target is
    not part of the node, and is taken as it is. *)
Variable referencedDefinition : IProduction -> list IProduction.

(** [prod.definition] of an abstract production. *)
Definition definition_read (prod : IProduction) : list IProduction :=
  match prod with
  | NonTerminal _ _ _ _ => referencedDefinition prod
  | _ => definition_of prod
  end.

(** [isOptionalProd(prod, alreadyVisited)]: the answer and the array
    [alreadyVisited], which holds non terminal objects and is shared by all
    the recursive calls; [None] when the fuel is used up. *)
Fixpoint isOptionalProd (fuel : nat) (prod : IProduction)
  (alreadyVisited : list nat) : option (bool * list nat) :=
  match fuel with
  | O => None
  | S fuel =>
      let isDirectlyOptional :=
        instanceof prod COption ||
        instanceof prod CRepetition ||
        instanceof prod CRepetitionWithSeparator in
      if isDirectlyOptional then Some (true, alreadyVisited)
      else if instanceof prod CAlternation then
        some_with (isOptionalProd fuel) (definition_of prod) alreadyVisited
      else if instanceof prod CNonTerminal
              && bool_decide (oid_of prod ∈ alreadyVisited) then
        Some (false, alreadyVisited)
      else if instanceof_AbstractProduction prod then
        let alreadyVisited :=
          if instanceof prod CNonTerminal
          then push alreadyVisited (oid_of prod)
          else alreadyVisited in
        every_with (isOptionalProd fuel) (definition_read prod) alreadyVisited
      else Some (false, alreadyVisited)
  end.

End IsOptionalProd.

(** No node of the tree is a non terminal. *)
Fixpoint reference_free (node : IProduction) : bool :=
  match node with
  | NonTerminal _ _ _ _ => false
  | Terminal _ _ _ => true
  | Rule _ _ d _ | Flat _ d | Option _ d _ | Repetition _ d _
  | RepetitionMandatory _ d _ | RepetitionMandatoryWithSeparator _ d _ _
  | RepetitionWithSeparator _ d _ _ | Alternation _ d _ =>
      forallb reference_free d
  end.

(** The number of levels of a tree. *)
Fixpoint height (node : IProduction) : nat :=
  match node with
  | NonTerminal _ _ _ _ | Terminal _ _ _ => 1
  | Rule _ _ d _ | Flat _ d | Option _ d _ | Repetition _ d _
  | RepetitionMandatory _ d _ | RepetitionMandatoryWithSeparator _ d _ _
  | RepetitionWithSeparator _ d _ _ | Alternation _ d _ =>
      S (list_max (map height d))
  end.

(** What [isOptionalProd] answers for a tree without non terminals. *)
Fixpoint optional_shape (node : IProduction) : bool :=
  match node with
  | Option _ _ _ | Repetition _ _ _ | RepetitionWithSeparator _ _ _ _ => true
  | Alternation _ d _ => existsb optional_shape d
  | Terminal _ _ _ | NonTerminal _ _ _ _ => false
  | Rule _ _ d _ | Flat _ d | RepetitionMandatory _ d _
  | RepetitionMandatoryWithSeparator _ d _ _ => forallb optional_shape d
  end.

(** The number of the non terminal objects of [nts] that are not in
    [alreadyVisited]. *)
Definition unvisited (nts alreadyVisited : list nat) : nat :=
  size (list_to_set nts ∖ list_to_set alreadyVisited : gset nat).

End gast_util.

(** ** The definition of the rules of a grammar *)

Module definition.

Import gast analysis.

(** The fields of a parser instance that [RULE] reads and writes.
    [this.definitionErrors] is not among them: the constructor binds it to
    the array that [CLASS_TO_DEFINITION_ERRORS] holds for the class, and
    nothing in the parser binds either of them again. *)
Record RuleState : Type := mkRuleState {
  className : string;
  definedRulesNames : list string;
  _productions : HashTable IProduction;
  tokensMap : gmap string TokClass
}.

Definition set_definedRulesNames (this : RuleState) (v : list string)
  : RuleState :=
  mkRuleState (className this) v (_productions this) (tokensMap this).

Definition set__productions (this : RuleState) (v : HashTable IProduction)
  : RuleState :=
  mkRuleState (className this) (definedRulesNames this) v (tokensMap this).

(** The fields above right after the field initialisers and the constructor
    ran. *)
Definition new_RuleState (className : string)
  (tokensMap : gmap string TokClass) : RuleState :=
  mkRuleState className [] [] tokensMap.

(** The statement of the constructor that binds [this.definitionErrors]:
    the class gets an empty array when it has none. *)
Definition constructor_definitionErrors (className : string) (w : World)
  : World :=
  if negb (bool_decide (is_Some (CLASS_TO_DEFINITION_ERRORS w !! className)))
  then set_definition_errors w
         (<[className := []]> (CLASS_TO_DEFINITION_ERRORS w))
  else w.

Section Rule.

Variable C : ParserClass.

(** The checks of a rule name and the builder of the GAST of a rule, which
    are not part of the parser source.  The builder reads the source text
    of the implementation and allocates the nodes of the production. *)
Variable validateRuleName : string -> string -> list IParserDefinitionError.
Variable validateRuleDoesNotAlreadyExist :
  string -> list string -> string -> list IParserDefinitionError.
Variable buildTopProduction :
  string -> string -> gmap string TokClass -> nat -> IProduction * nat.

(** [RULE(name, implementation, config)]; [implText] is
    [implementation.toString()]. *)
Definition RULE (fuel : nat) (name : string)
  (implementation : list JsValue -> M JsValue) (implText : string)
  (config : IRuleConfig) (this : RuleState) (w : World)
  : Res (Z -> list JsValue -> M JsValue) * RuleState * World :=
  let ruleErrors := validateRuleName name (className this) in
  let ruleErrors :=
    ruleErrors ++
    validateRuleDoesNotAlreadyExist name (definedRulesNames this)
      (className this) in
  let this := set_definedRulesNames this (push (definedRulesNames this) name) in
  match CLASS_TO_DEFINITION_ERRORS w !! className this with
  | None => (Throw TypeError, this, w)
  | Some definitionErrors =>
      let w := set_definition_errors w
                 (<[className this := definitionErrors ++ ruleErrors]>
                    (CLASS_TO_DEFINITION_ERRORS w)) in
      let '(this, w) :=
        if negb (ht_containsKey (_productions this) name) then
          let '(gastProduction, next) :=
            buildTopProduction implText name (tokensMap this) (nextOid w) in
          (set__productions this
             (ht_put (_productions this) name gastProduction),
           set_nextOid w next)
        else
          let parserClassProductions :=
            getProductionsForClass w (className this) in
          let cachedProduction := ht_get parserClassProductions name in
          match cachedProduction with
          | Some cachedProduction =>
              (set__productions this
                 (ht_put (_productions this) name cachedProduction), w)
          | None => (this, w)
          end in
      (Ret (wrappedGrammarRule C fuel name implementation config), this, w)
  end.

End Rule.

End definition.

(** ** The construction of an instance of a grammar class *)

Module construction.

Import gast analysis definition.

(** One rule of a grammar class: the arguments of its [RULE]; [rule_text]
    is [implementation.toString()]. *)
Record RuleDefinition : Type := mkRuleDefinition {
  rule_name : string;
  rule_implementation : list JsValue -> M JsValue;
  rule_text : string;
  rule_config : IRuleConfig
}.

(** Modelled from the spec: a grammar class, which the user of the parser
    writes.  Its constructor calls the constructor of [Parser] with the
    tokens of the grammar, defines its rules with [RULE], in their order,
    and calls [Parser.performSelfAnalysis(this)] last. *)
Record GrammarClass : Type := mkGrammarClass {
  grammar_name : string;
  grammar_tokensMap : gmap string TokClass;
  grammar_maxLookahead : Z;
  grammar_ignoredIssues : IgnoredParserIssues;
  grammar_rules : list RuleDefinition
}.

(** The instance as [performSelfAnalysis] reads it. *)
Definition self_analysis_instance (G : GrammarClass) (this : RuleState)
  : ParserInstance :=
  mkParserInstance (definition.className this) (definition._productions this)
    (grammar_maxLookahead G) (grammar_ignoredIssues G).

(** What the definition of a rule leaves of the class cache as it is. *)
Definition same_analysis (w w' : World) : Prop :=
  CLASS_TO_SELF_ANALYSIS_DONE w' = CLASS_TO_SELF_ANALYSIS_DONE w /\
  DEFER_DEFINITION_ERRORS_HANDLING w' = DEFER_DEFINITION_ERRORS_HANDLING w /\
  calls w' = calls w.

Section Construct.

Variable C : ParserClass.
Variable validateRuleName : string -> string -> list IParserDefinitionError.
Variable validateRuleDoesNotAlreadyExist :
  string -> list string -> string -> list IParserDefinitionError.
Variable buildTopProduction :
  string -> string -> gmap string TokClass -> nat -> IProduction * nat.
Variable resolveGrammar :
  HashTable IProduction -> HashTable IProduction * list IParserDefinitionError.
Variable validateGrammar :
  list IProduction -> Z -> IgnoredParserIssues -> list IParserDefinitionError.
Variable computeAllProdsFollows :
  list IProduction -> HashTable (list TokClass).
Variable fuel : nat.

(** The [RULE] calls of the constructor of a grammar class, in order. *)
Fixpoint define_rules (rules : list RuleDefinition) (this : RuleState)
  (w : World) : Res unit * RuleState * World :=
  match rules with
  | [] => (Ret tt, this, w)
  | d :: rest =>
      let '(r, this, w) :=
        RULE C validateRuleName validateRuleDoesNotAlreadyExist
          buildTopProduction fuel (rule_name d) (rule_implementation d)
          (rule_text d) (rule_config d) this w in
      match r with
      | Ret _ => define_rules rest this w
      | Throw e => (Throw e, this, w)
      | OutOfFuel => (OutOfFuel, this, w)
      end
  end.

(** [new G(...)]: the constructor of [Parser], as far as the definition
    errors and the fields of [RULE] go, the rules of the class, then the
    self analysis. *)
Definition construct (G : GrammarClass) (w : World) : Res unit * World :=
  let w := constructor_definitionErrors (grammar_name G) w in
  let this := new_RuleState (grammar_name G) (grammar_tokensMap G) in
  let '(r, this, w) := define_rules (grammar_rules G) this w in
  match r with
  | Ret _ =>
      performSelfAnalysis resolveGrammar validateGrammar
        computeAllProdsFollows (self_analysis_instance G this) w
  | Throw e => (Throw e, w)
  | OutOfFuel => (OutOfFuel, w)
  end.

(** The errors that the checks of the rule names report for the rules of a
    class, in the order [RULE] pushes them; [definedRulesNames] are the
    names defined before. *)
Fixpoint rule_errors (className : string) (rules : list RuleDefinition)
  (definedRulesNames : list string) : list IParserDefinitionError :=
  match rules with
  | [] => []
  | d :: rest =>
      (validateRuleName (rule_name d) className ++
       validateRuleDoesNotAlreadyExist (rule_name d) definedRulesNames
         className) ++
      rule_errors className rest (push definedRulesNames (rule_name d))
  end.

(** The state in which the first construction of an instance of a class
    reaches the self analysis. *)
Definition before_analysis (G : GrammarClass) (w : World)
  : RuleState * World :=
  let '(_, this, w) :=
    define_rules (grammar_rules G)
      (new_RuleState (grammar_name G) (grammar_tokensMap G))
      (constructor_definitionErrors (grammar_name G) w) in
  (this, w).

(** What the resolver and, when the resolver reports nothing, the validator
    report at the first construction of an instance of a class. *)
Definition analysis_errors (G : GrammarClass) (w : World)
  : list IParserDefinitionError :=
  let '(this, w) := before_analysis G w in
  let inst := self_analysis_instance G this in
  let resolverErrors := resolver_errors resolveGrammar inst w in
  resolverErrors ++
  (if isEmpty resolverErrors
   then validation_errors resolveGrammar validateGrammar inst w
   else []).

End Construct.

End construction.
(** ** Properties of the token vector *)

Lemma isSubclassOf_refl (c : TokClass) : isSubclassOf c c = true.
Proof.
  destruct c; cbn [isSubclassOf];
    rewrite bool_decide_eq_true_2 by reflexivity; reflexivity.
Qed.

Lemma js_index_in_range {A : Type} (arr : list A) (i : Z) :
  0 <= i < js_length arr -> exists x, js_index arr i = Some x.
Proof.
  intros [Hlo Hhi]. unfold js_index, js_length in *.
  destruct (Z.ltb_spec i 0) as [Hneg | _]; [lia |].
  destruct (lookup_lt_is_Some_2 arr (Z.to_nat i)) as [x Hx]; [lia |].
  exists x. exact Hx.
Qed.

Lemma LA_cases (p : Parser) (howMuch : Z) :
  idx_ok p -> 1 <= howMuch ->
  (js_length (_input p) <= inputIdx p + howMuch ->
     LA p howMuch = Some new_EOF /\ tokenType new_EOF = EOF) /\
  (inputIdx p + howMuch < js_length (_input p) ->
     0 <= inputIdx p + howMuch /\
     exists t, LA p howMuch = Some t /\
               _input p !! Z.to_nat (inputIdx p + howMuch) = Some t) /\
  LA p howMuch <> None.
Proof.
  unfold idx_ok. intros Hidx Hk.
  assert (Hin : inputIdx p + howMuch < js_length (_input p) ->
     0 <= inputIdx p + howMuch /\
     exists t, LA p howMuch = Some t /\
               _input p !! Z.to_nat (inputIdx p + howMuch) = Some t).
  { intros Hlt. split; [lia |].
    destruct (js_index_in_range (_input p) (inputIdx p + howMuch)) as [t Ht];
      [lia |].
    exists t. unfold LA.
    destruct (Z.leb_spec (js_length (_input p)) (inputIdx p + howMuch));
      [lia |].
    split; [exact Ht |].
    unfold js_index in Ht.
    destruct (Z.ltb_spec (inputIdx p + howMuch) 0); [lia | exact Ht]. }
  split; [| split; [exact Hin |]].
  - intros Hge. unfold LA.
    destruct (Z.leb_spec (js_length (_input p)) (inputIdx p + howMuch));
      [split; reflexivity | lia].
  - destruct (Z.le_gt_cases (js_length (_input p)) (inputIdx p + howMuch))
      as [Hge | Hlt].
    + unfold LA.
      destruct (Z.leb_spec (js_length (_input p)) (inputIdx p + howMuch));
        [discriminate | lia].
    + destruct (Hin Hlt) as [_ [t [Ht _]]]. rewrite Ht. discriminate.
Qed.

(** C5: for a look-ahead distance of at least one, [LA] always yields a
    token: the end of input token when [inputIdx + howMuch] is past the
    last index of the input, and otherwise the element of the input at the
    index [inputIdx + howMuch], which then lies inside the array. *)
Theorem LA_total (p : Parser) (howMuch : Z) :
  idx_ok p -> 1 <= howMuch ->
  (js_length (_input p) <= inputIdx p + howMuch ->
     LA p howMuch = Some new_EOF /\ tokenType new_EOF = EOF) /\
  (inputIdx p + howMuch < js_length (_input p) ->
     0 <= inputIdx p + howMuch /\
     exists t, LA p howMuch = Some t /\
               _input p !! Z.to_nat (inputIdx p + howMuch) = Some t) /\
  LA p howMuch <> None.
Proof. exact (LA_cases p howMuch). Qed.

Lemma LA_total_witness :
  let p := new_Parser [mkToken (Extends "A" TokenRoot) "a" 0 1 false] false in
  LA p 1 <> None /\ LA p 2 <> None.
Proof.
  split.
  - apply (LA_total _ 1); unfold idx_ok; simpl; lia.
  - apply (LA_total _ 2); unfold idx_ok; simpl; lia.
Defined.

(** C10: the input setter resets the run time state of the instance and
    then installs the new sequence: the errors, both rule stacks and the
    backtracking stack are empty and the input index is -1 again. *)
Theorem input_setter_resets (newInput : list Token) (p : Parser) :
  let q := input_setter newInput p in
  errors q = [] /\
  RULE_STACK q = [] /\
  RULE_OCCURRENCE_STACK q = [] /\
  isBackTrackingStack q = [] /\
  inputIdx q = -1 /\
  _input q = newInput /\
  recoveryEnabled q = recoveryEnabled p.
Proof. simpl. repeat split. Qed.

(** ** Consuming a token and single token recovery *)

Section ConsumeFacts.

Variable C : ParserClass.

Lemma LA_some (p : Parser) (k : Z) :
  idx_ok p -> 1 <= k -> exists t, LA p k = Some t.
Proof.
  intros Hidx Hk. destruct (LA p k) as [t |] eqn:E; [eauto |].
  exfalso. exact (proj2 (proj2 (LA_cases p k Hidx Hk)) E).
Qed.

Lemma consumeInternalOptimized_match (tokClass : TokClass) (p : Parser)
  (t : Token) :
  LA p 1 = Some t -> instanceOf (Some t) tokClass = true ->
  consumeInternalOptimized C tokClass p = (Ret (Some t), consumeToken p).
Proof.
  intros HLA Hinst. unfold consumeInternalOptimized.
  rewrite HLA, Hinst. reflexivity.
Qed.

Lemma consumeInternalOptimized_mismatch (tokClass : TokClass) (p : Parser)
  (t : Token) :
  LA p 1 = Some t -> instanceOf (Some t) tokClass = false ->
  consumeInternalOptimized C tokClass p =
    (Throw (Recognition (mismatch_exception C tokClass t p)),
     after_mismatch C tokClass t p).
Proof.
  intros HLA Hinst. unfold consumeInternalOptimized.
  rewrite HLA, Hinst. reflexivity.
Qed.

Lemma tryInRuleRecovery_throws (tokClass : TokClass) (follows : list TokClass)
  (p q : Parser) (e : Exn) :
  tryInRuleRecovery C tokClass follows p = (Throw e, q) ->
  isInRuleRecoveryException e = true /\ q = p.
Proof.
  unfold tryInRuleRecovery.
  destruct (canRecoverWithSingleTokenInsertion C tokClass follows p);
    [discriminate |].
  destruct (canRecoverWithSingleTokenDeletion tokClass p).
  - destruct (SKIP_TOKEN p) as [nextTok p']. discriminate.
  - intros [= <- <-]. split; reflexivity.
Qed.

(** C3: [consume] returns the next token and advances the input index by
    one when that token is an instance of the expected class; otherwise a
    MismatchedTokenException carrying the rule stacks is built and appended
    to [errors], and unless recovery is enabled and the parser is not
    backtracking this exception is raised with no recovery attempted; when
    recovery is enabled outside backtracking the outcome is the one of the
    single token recovery, whose own failure raises that same exception. *)
Theorem consume_spec (tokClass : TokClass) (idx : Z) (p : Parser) :
  idx_ok p ->
  exists t, LA p 1 = Some t /\
  (instanceOf (Some t) tokClass = true ->
     consumeInternal C tokClass idx p
       = (Ret (Some t), set_inputIdx p (inputIdx p + 1))) /\
  (instanceOf (Some t) tokClass = false ->
     let e := mismatch_exception C tokClass t p in
     let q := after_mismatch C tokClass t p in
     consumeInternalOptimized C tokClass p = (Throw (Recognition e), q) /\
     excKind e = MismatchedTokenException /\
     token e = Some t /\
     context e = Some (mkContext (RULE_STACK p) (RULE_OCCURRENCE_STACK p)) /\
     errors q = errors p ++ [e] /\
     inputIdx q = inputIdx p /\
     (recoveryEnabled p && negb (isBackTracking p) = false ->
        consumeInternal C tokClass idx p = (Throw (Recognition e), q)) /\
     (recoveryEnabled p && negb (isBackTracking p) = true ->
        consumeInternal C tokClass idx p =
          match tryInRuleRecovery C tokClass
                  (getFollowsForInRuleRecovery C tokClass idx q) q with
          | (Throw _, q') => (Throw (Recognition e), q')
          | r => r
          end)).
Proof.
  intros Hidx. destruct (LA_some p 1 Hidx) as [t HLA]; [lia |].
  exists t. split; [exact HLA |]. split.
  - intros Hinst. unfold consumeInternal.
    rewrite (consumeInternalOptimized_match tokClass p t HLA Hinst).
    reflexivity.
  - intros Hinst e q.
    pose proof (consumeInternalOptimized_mismatch tokClass p t HLA Hinst)
      as Hopt.
    fold e q in Hopt.
    repeat (split; [first [exact Hopt | reflexivity] |]).
    split.
    + intros Hoff. unfold consumeInternal. rewrite Hopt.
      change (recoveryEnabled q) with (recoveryEnabled p).
      change (isBackTracking q) with (isBackTracking p).
      cbn [isMismatchedTokenException].
      destruct (recoveryEnabled p); [| reflexivity].
      destruct (isBackTracking p); [| discriminate].
      rewrite andb_false_r. reflexivity.
    + intros Hon. unfold consumeInternal. rewrite Hopt.
      change (recoveryEnabled q) with (recoveryEnabled p).
      change (isBackTracking q) with (isBackTracking p).
      apply andb_true_iff in Hon as [Hrec Hbt]. rewrite Hrec, Hbt.
      cbn [isMismatchedTokenException andb].
      change (bool_decide (excKind e = MismatchedTokenException)) with true.
      cbn iota.
      destruct (tryInRuleRecovery C tokClass
                  (getFollowsForInRuleRecovery C tokClass idx q) q)
        as [[v | e' |] q'] eqn:Etry; try reflexivity.
      destruct (tryInRuleRecovery_throws _ _ _ _ _ Etry) as [Hin _].
      rewrite Hin. reflexivity.
Qed.

End ConsumeFacts.

Lemma consume_spec_witness :
  let A := Extends "A" TokenRoot in
  let C0 := mkParserClass "P" (fun _ => []) (fun _ => [])
              default_canTokenTypeBeInsertedInRecovery
              default_getTokenToInsert (fun _ _ => "mismatch")
              (fun _ _ => EmptyString) (fun _ _ _ => EmptyString)
              (fun _ => mkFirstAfterRepetition None None true) in
  let p := new_Parser [mkToken A "a" 0 1 false] false in
  exists t, LA p 1 = Some t /\
    (instanceOf (Some t) A = true ->
     consumeInternal C0 A 1 p = (Ret (Some t), set_inputIdx p (inputIdx p + 1))).
Proof.
  intros A C0 p.
  destruct (consume_spec C0 A 1 p) as [t [HLA [Hok _]]].
  - unfold idx_ok. simpl. lia.
  - exists t. split; [exact HLA | exact Hok].
Defined.


(** ** Single token insertion and deletion *)

Section InRuleRecoveryFacts.

Variable C : ParserClass.

Lemma canRecoverWithSingleTokenInsertion_eq (tokClass : TokClass)
  (follows : list TokClass) (p : Parser) :
  canRecoverWithSingleTokenInsertion C tokClass follows p =
    canTokenTypeBeInsertedInRecovery C tokClass &&
    existsb (fun f => instanceOf (LA p 1) f) follows.
Proof.
  unfold canRecoverWithSingleTokenInsertion.
  destruct (canTokenTypeBeInsertedInRecovery C tokClass); [| reflexivity].
  cbn [negb andb]. destruct follows as [| f fs]; reflexivity.
Qed.

(** A token that is not expected now but expected next is inside the
    input, so that skipping it really advances the index. *)
Lemma deletion_in_range (tokClass : TokClass) (p : Parser) :
  instanceOf (LA p 1) tokClass = false ->
  instanceOf (LA p 2) tokClass = true ->
  inputIdx p <= js_length (_input p) - 2.
Proof.
  intros H1 H2.
  destruct (Z.le_gt_cases (inputIdx p) (js_length (_input p) - 2))
    as [Hle | Hgt]; [exact Hle | exfalso].
  unfold LA in H1, H2.
  destruct (Z.leb_spec (js_length (_input p)) (inputIdx p + 1)); [| lia].
  destruct (Z.leb_spec (js_length (_input p)) (inputIdx p + 2)); [| lia].
  congruence.
Qed.

Lemma SKIP_TOKEN_in_range (p : Parser) :
  inputIdx p <= js_length (_input p) - 2 ->
  SKIP_TOKEN p = (LA p 2, set_inputIdx p (inputIdx p + 1)).
Proof.
  intros Hle. unfold SKIP_TOKEN.
  destruct (Z.leb_spec (inputIdx p) (js_length (_input p) - 2)); [| lia].
  unfold consumeToken, LA. cbn [_input inputIdx set_inputIdx].
  replace (inputIdx p + 1 + 1) with (inputIdx p + 2) by lia. reflexivity.
Qed.

(** C4 (as amended): when a [consume] of class T fails while recovery is
    enabled and the parser is not backtracking, insertion is tried first:
    if T may be inserted and the next token is an instance of a class of
    the computed follows, the inserted token (of class T for the method of
    the base class, flagged isInsertedInRecovery) is returned and no input
    is consumed; only otherwise, if LA(2) is an instance of T, LA(2) is
    returned and the input index has advanced by two; if neither applies
    the original MismatchedTokenException is raised. *)
Theorem in_rule_recovery_spec (tokClass : TokClass) (idx : Z) (p : Parser)
  (t : Token) :
  LA p 1 = Some t ->
  instanceOf (Some t) tokClass = false ->
  recoveryEnabled p = true ->
  isBackTracking p = false ->
  let e := mismatch_exception C tokClass t p in
  let q := after_mismatch C tokClass t p in
  let follows := getFollowsForInRuleRecovery C tokClass idx p in
  let insertion :=
    canTokenTypeBeInsertedInRecovery C tokClass &&
    existsb (fun f => instanceOf (Some t) f) follows in
  let inserted := mark_inserted (getTokenToInsert C tokClass) in
  (insertion = true ->
     consumeInternal C tokClass idx p = (Ret (Some inserted), q) /\
     isInsertedInRecovery inserted = true /\
     (getTokenToInsert C tokClass = default_getTokenToInsert tokClass ->
      tokenType inserted = tokClass) /\
     inputIdx q = inputIdx p) /\
  (insertion = false -> instanceOf (LA p 2) tokClass = true ->
     consumeInternal C tokClass idx p
       = (Ret (LA p 2), set_inputIdx q (inputIdx p + 2))) /\
  (insertion = false -> instanceOf (LA p 2) tokClass = false ->
     consumeInternal C tokClass idx p = (Throw (Recognition e), q)).
Proof.
  intros HLA Hinst Hrec Hbt e q follows insertion inserted.
  pose proof (consumeInternalOptimized_mismatch C tokClass p t HLA Hinst)
    as Hopt.
  fold e q in Hopt.
  assert (Hstart : consumeInternal C tokClass idx p =
            match tryInRuleRecovery C tokClass follows q with
            | (Throw eIn, q') =>
                if isInRuleRecoveryException eIn
                then (Throw (Recognition e), q') else (Throw eIn, q')
            | r => r
            end).
  { unfold consumeInternal. rewrite Hopt.
    change (recoveryEnabled q) with (recoveryEnabled p).
    change (isBackTracking q) with (isBackTracking p).
    rewrite Hrec, Hbt. reflexivity. }
  assert (Hins : canRecoverWithSingleTokenInsertion C tokClass follows q
                 = insertion).
  { rewrite canRecoverWithSingleTokenInsertion_eq.
    change (LA q 1) with (LA p 1). rewrite HLA. reflexivity. }
  assert (Hdel : canRecoverWithSingleTokenDeletion tokClass q
                 = instanceOf (LA p 2) tokClass) by reflexivity.
  split; [| split].
  - intros Hyes. split; [| split; [reflexivity | split; [| reflexivity]]].
    + rewrite Hstart. unfold tryInRuleRecovery. rewrite Hins, Hyes.
      reflexivity.
    + intros Hbase. unfold inserted. rewrite Hbase. reflexivity.
  - intros Hno Hnext. rewrite Hstart. unfold tryInRuleRecovery.
    rewrite Hins, Hno, Hdel, Hnext.
    rewrite SKIP_TOKEN_in_range.
    + change (LA q 2) with (LA p 2). unfold consumeToken.
      cbn [inputIdx set_inputIdx].
      change (inputIdx q) with (inputIdx p).
      replace (inputIdx p + 1 + 1) with (inputIdx p + 2) by lia.
      reflexivity.
    + apply (deletion_in_range tokClass q); [| exact Hnext].
      change (LA q 1) with (LA p 1). rewrite HLA. exact Hinst.
  - intros Hno Hnext. rewrite Hstart. unfold tryInRuleRecovery.
    rewrite Hins, Hno, Hdel, Hnext. reflexivity.
Qed.

End InRuleRecoveryFacts.

Lemma in_rule_recovery_spec_witness :
  let A := Extends "A" TokenRoot in
  let B := Extends "B" TokenRoot in
  let C0 := sample_class [B] in
  let tb := mkToken B "b" 0 1 false in
  let p := mkParser [] true [tb] (-1) [] ["top"] [1] None 0 in
  consumeInternal C0 A 1 p
    = (Ret (Some (mark_inserted (getTokenToInsert C0 A))),
       after_mismatch C0 A tb p).
Proof.
  intros A B C0 tb p.
  apply (in_rule_recovery_spec C0 A 1 p tb); reflexivity.
Defined.

(** C4 as stated fails while backtracking: recovery is enabled, the next
    token is in the follows and T may be inserted, yet the failed [consume]
    raises the MismatchedTokenException and inserts nothing. *)
Lemma in_rule_recovery_off_while_backtracking :
  let A := Extends "A" TokenRoot in
  let B := Extends "B" TokenRoot in
  let C0 := sample_class [B] in
  let tb := mkToken B "b" 0 1 false in
  let p := mkParser [] true [tb] (-1) [1] ["top"] [1] None 0 in
  recoveryEnabled p = true /\
  LA p 1 = Some tb /\
  instanceOf (Some tb) A = false /\
  canTokenTypeBeInsertedInRecovery C0 A = true /\
  existsb (fun f => instanceOf (Some tb) f)
    (getFollowsForInRuleRecovery C0 A 1 p) = true /\
  consumeInternal C0 A 1 p
    = (Throw (Recognition (mismatch_exception C0 A tb p)),
       after_mismatch C0 A tb p) /\
  consumeInternal C0 A 1 p
    <> (Ret (Some (mark_inserted (getTokenToInsert C0 A))),
        after_mismatch C0 A tb p).
Proof.
  intros A B C0 tb p.
  assert (Hrun : consumeInternal C0 A 1 p
            = (Throw (Recognition (mismatch_exception C0 A tb p)),
               after_mismatch C0 A tb p)) by (vm_compute; reflexivity).
  repeat (split; [first [exact Hrun | vm_compute; reflexivity] |]).
  rewrite Hrun. discriminate.
Qed.

(** ** Re-synchronisation terminates *)

Lemma LA_frame (p q : Parser) (k : Z) :
  _input q = _input p -> inputIdx q = inputIdx p -> LA q k = LA p k.
Proof. intros Hi Hx. unfold LA. rewrite Hi, Hx. reflexivity. Qed.

Lemma LA_shift (p : Parser) (k : Z) :
  LA (consumeToken p) k = LA p (k + 1).
Proof.
  unfold LA, consumeToken. cbn [_input inputIdx set_inputIdx].
  replace (inputIdx p + 1 + k) with (inputIdx p + (k + 1)) by lia.
  reflexivity.
Qed.

Lemma LA_past_end (p : Parser) (k : Z) :
  js_length (_input p) <= inputIdx p + k -> LA p k = Some new_EOF.
Proof.
  intros H. unfold LA.
  destruct (Z.leb_spec (js_length (_input p)) (inputIdx p + k));
    [reflexivity | lia].
Qed.

Lemma contains_true (arr : list TokClass) (T : TokClass) :
  contains arr T = true <-> T ∈ arr.
Proof. unfold contains. apply bool_decide_eq_true. Qed.

Section ResyncFacts.

Variable C : ParserClass.

Lemma flattenFollowSet_has_EOF (p : Parser) :
  RULE_STACK p <> [] -> EOF ∈ flattenFollowSet C p.
Proof.
  intros Hne. unfold flattenFollowSet, buildFullFollowKeyStack.
  destruct (RULE_STACK p) as [| r rs]; [congruence |].
  rewrite imap_cons. cbn. apply elem_of_cons. left. reflexivity.
Qed.

Lemma flattenFollowSet_top (p : Parser) (r : string) :
  RULE_STACK p = [r] -> flattenFollowSet C p = [EOF].
Proof.
  intros Hrs. unfold flattenFollowSet, buildFullFollowKeyStack.
  rewrite Hrs. reflexivity.
Qed.

(** The search for a re-sync token class ends at the latest on the end of
    input token, whose class is in every flattened follow stack. *)
Lemma findReSyncTokenType_loop_ends (all : list TokClass) (p : Parser) :
  idx_ok p -> EOF ∈ all ->
  forall (fuel : nat) (k : Z),
    2 <= k ->
    (Z.to_nat (js_length (_input p) - inputIdx p - (k - 1)) < fuel)%nat ->
    exists (T : TokClass) (j : Z) (t : Token),
      findReSyncTokenType_loop fuel all p (LA p (k - 1)) k = Ret T /\
      T ∈ all /\ k - 1 <= j /\ LA p j = Some t /\ tokenType t = T /\
      j <= Z.max (k - 1) (js_length (_input p) - inputIdx p).
Proof.
  intros Hidx HEOF fuel. induction fuel as [| fuel IH]; intros k Hk Hfuel;
    [lia |].
  destruct (LA_some p (k - 1) Hidx) as [t Ht]; [lia |].
  cbn [findReSyncTokenType_loop]. rewrite Ht.
  destruct (contains all (tokenType t)) eqn:Ec.
  - exists (tokenType t), (k - 1), t.
    repeat split; try (apply contains_true; exact Ec); try exact Ht; lia.
  - assert (Hin : inputIdx p + (k - 1) < js_length (_input p)).
    { destruct (Z.lt_ge_cases (inputIdx p + (k - 1)) (js_length (_input p)))
        as [Hlt | Hge]; [exact Hlt | exfalso].
      rewrite (LA_past_end p (k - 1)) in Ht by lia.
      injection Ht as <-. cbn [tokenType new_EOF] in Ec.
      apply contains_true in HEOF. congruence. }
    destruct (IH (k + 1)) as (T & j & t' & Hrun & HT & Hj & HLA & Hty & Hb);
      [lia | lia |].
    replace (k + 1 - 1) with k in * by lia.
    exists T, j, t'. repeat split; try assumption; lia.
Qed.

Lemma findReSyncTokenType_ends (fuel : nat) (p : Parser) :
  idx_ok p -> RULE_STACK p <> [] ->
  (length (_input p) + 2 <= fuel)%nat ->
  exists (T : TokClass) (j : Z) (t : Token),
    findReSyncTokenType C fuel p = Ret T /\
    T ∈ flattenFollowSet C p /\ 1 <= j /\ LA p j = Some t /\
    tokenType t = T /\ j <= js_length (_input p) + 1.
Proof.
  intros Hidx Hne Hfuel. unfold idx_ok in Hidx.
  destruct (findReSyncTokenType_loop_ends (flattenFollowSet C p) p Hidx
              (flattenFollowSet_has_EOF p Hne) fuel 2)
    as (T & j & t & Hrun & HT & Hj & HLA & Hty & Hb).
  - lia.
  - unfold js_length. lia.
  - exists T, j, t. unfold findReSyncTokenType.
    change (2 - 1) with 1 in *.
    repeat split; try assumption; unfold js_length in *; lia.
Qed.

Lemma findReSyncTokenType_top (fuel : nat) (p : Parser) (r : string) :
  idx_ok p -> RULE_STACK p = [r] ->
  (length (_input p) + 2 <= fuel)%nat ->
  findReSyncTokenType C fuel p = Ret EOF.
Proof.
  intros Hidx Hrs Hfuel.
  destruct (findReSyncTokenType_ends fuel p Hidx) as
    (T & j & t & Hrun & HT & _); [rewrite Hrs; discriminate | exact Hfuel |].
  rewrite (flattenFollowSet_top p r Hrs) in HT.
  apply list_elem_of_singleton in HT. subst T. exact Hrun.
Qed.

Lemma reSyncTo_loop_ends (T : TokClass) :
  forall (fuel : nat) (p : Parser) (k : Z) (acc : list (option Token)),
    idx_ok p -> 1 <= k -> instanceOf (LA p k) T = true ->
    (Z.to_nat k <= fuel)%nat ->
    exists toks q,
      reSyncTo_loop fuel T (LA p 1) acc p = (Ret toks, q) /\
      resynced p q /\ instanceOf (LA q 1) T = true.
Proof.
  induction fuel as [| fuel IH]; intros p k acc Hidx Hk Hinst Hfuel; [lia |].
  cbn [reSyncTo_loop].
  destruct (instanceOf (LA p 1) T) eqn:E1; cbn [negb].
  - exists (dropRight acc), p. split; [reflexivity |]. split; [| exact E1].
    split; [destruct p; reflexivity | lia].
  - assert (Hk2 : 2 <= k).
    { destruct (Z.eq_dec k 1) as [-> | ]; [congruence | lia]. }
    assert (Hrange : inputIdx p <= js_length (_input p) - 2).
    { destruct (Z.le_gt_cases (inputIdx p) (js_length (_input p) - 2))
        as [Hle | Hgt]; [exact Hle | exfalso].
      rewrite (LA_past_end p 1) in E1 by lia.
      rewrite (LA_past_end p k) in Hinst by lia. congruence. }
    rewrite SKIP_TOKEN_in_range by exact Hrange.
    change (set_inputIdx p (inputIdx p + 1)) with (consumeToken p).
    replace (LA p 2) with (LA (consumeToken p) 1)
      by (rewrite LA_shift; reflexivity).
    destruct (IH (consumeToken p) (k - 1)
                (addToResyncTokens (LA (consumeToken p) 1) acc))
      as (toks & q & Hrun & [Hq Hle] & Hend).
    + unfold idx_ok, consumeToken in *. cbn. lia.
    + lia.
    + rewrite LA_shift. replace (k - 1 + 1) with k by lia. exact Hinst.
    + lia.
    + exists toks, q. split; [exact Hrun |]. split; [| exact Hend].
      unfold consumeToken in *. cbn [inputIdx set_inputIdx] in Hle.
      split; [| lia]. rewrite Hq. destruct p; reflexivity.
Qed.

Lemma reSyncTo_ends (fuel : nat) (T : TokClass) (p : Parser) (k : Z) :
  idx_ok p -> 1 <= k -> instanceOf (LA p k) T = true ->
  (Z.to_nat k <= fuel)%nat ->
  exists toks q,
    reSyncTo fuel T p = (Ret toks, q) /\
    resynced p q /\ instanceOf (LA q 1) T = true.
Proof.
  intros Hidx Hk Hinst Hfuel. unfold reSyncTo.
  exact (reSyncTo_loop_ends T fuel p k [] Hidx Hk Hinst Hfuel).
Qed.

End ResyncFacts.

(** ** The exit of a rule *)

Lemma ruleFinallyStateUpdate_eq (p : Parser) :
  ruleFinallyStateUpdate p =
    if bool_decide (pop (RULE_STACK p) = []) && negb (instanceOf (LA p 1) EOF)
    then
      match LA p 1 with
      | None => (Throw TypeError, exit_stacks p)
      | Some t =>
          (Ret tt,
           set_errors (set_nextExcId (exit_stacks p) (S (nextExcId p)))
             (errors p ++ [redundant_input_exception t p]))
      end
    else (Ret tt, exit_stacks p).
Proof.
  unfold ruleFinallyStateUpdate, isAtEndOfInput.
  set (p' := set_RULE_OCCURRENCE_STACK _ _).
  assert (HLA : LA p' 1 = LA p 1) by reflexivity.
  assert (HRS : RULE_STACK p' = pop (RULE_STACK p)) by reflexivity.
  assert (Hlen : (js_length (pop (RULE_STACK p)) =? 0)
                 = bool_decide (pop (RULE_STACK p) = [])).
  { destruct (pop (RULE_STACK p)); reflexivity. }
  rewrite HLA, HRS, Hlen.
  destruct (bool_decide (pop (RULE_STACK p) = []) &&
            negb (instanceOf (LA p 1) EOF)); [| reflexivity].
  destruct (LA p 1); reflexivity.
Qed.

Lemma ruleFinallyStateUpdate_frame (p : Parser) (r : Res unit) (q : Parser) :
  ruleFinallyStateUpdate p = (r, q) ->
  RULE_STACK q = pop (RULE_STACK p) /\
  RULE_OCCURRENCE_STACK q = pop (RULE_OCCURRENCE_STACK p) /\
  isBackTrackingStack q = isBackTrackingStack p /\
  recoveryEnabled q = recoveryEnabled p /\
  _input q = _input p /\
  inputIdx q = inputIdx p /\
  (forall e, e ∈ errors p -> e ∈ errors q) /\
  r <> OutOfFuel /\
  (idx_ok p -> r = Ret tt).
Proof.
  rewrite ruleFinallyStateUpdate_eq. intros H.
  assert (Hsome : idx_ok p -> exists t, LA p 1 = Some t).
  { intros Hidx. apply LA_some; [exact Hidx | lia]. }
  destruct (bool_decide (pop (RULE_STACK p) = []) &&
            negb (instanceOf (LA p 1) EOF)).
  - destruct (LA p 1) as [t |]; injection H as <- <-.
    + repeat split; try discriminate.
      intros e He. cbn. apply elem_of_app. left. exact He.
    + repeat split; try discriminate; try (intros e He; exact He).
      intros Hidx. destruct (Hsome Hidx) as [t Ht]. discriminate.
  - injection H as <- <-.
    repeat split; try discriminate. intros e He. exact He.
Qed.

Lemma classic_OutOfFuel {A : Type} (r : Res A) :
  r = OutOfFuel \/ r <> OutOfFuel.
Proof. destruct r; [right | right | left]; congruence. Qed.

Lemma pop_push {A : Type} (l : list A) (x : A) : pop (push l x) = l.
Proof. unfold pop, push. apply removelast_last. Qed.

Lemma reSyncTo_loop_resynced (T : TokClass) :
  forall (fuel : nat) (tok : option Token) (acc : list (option Token))
         (p : Parser) r q,
    reSyncTo_loop fuel T tok acc p = (r, q) -> resynced p q.
Proof.
  induction fuel as [| fuel IH]; intros tok acc p r q H;
    cbn [reSyncTo_loop] in H.
  - injection H as <- <-. split; [destruct p; reflexivity | lia].
  - destruct (negb (instanceOf tok T)).
    + unfold SKIP_TOKEN in H.
      destruct (inputIdx p <=? js_length (_input p) - 2).
      * apply IH in H. destruct H as [Hq Hle].
        unfold consumeToken in *. cbn [inputIdx set_inputIdx] in Hle.
        split; [| lia]. rewrite Hq. destruct p; reflexivity.
      * apply IH in H. exact H.
    + injection H as <- <-. split; [destruct p; reflexivity | lia].
Qed.

Lemma reSyncTo_loop_no_throw (T : TokClass) :
  forall (fuel : nat) (tok : option Token) (acc : list (option Token))
         (p : Parser) e q,
    reSyncTo_loop fuel T tok acc p <> (Throw e, q).
Proof.
  induction fuel as [| fuel IH]; intros tok acc p e q;
    cbn [reSyncTo_loop]; [discriminate |].
  destruct (negb (instanceOf tok T)); [| discriminate].
  destruct (SKIP_TOKEN p) as [tok' p']. apply IH.
Qed.

Lemma findReSyncTokenType_loop_throw (all : list TokClass) (p : Parser) :
  forall (fuel : nat) (tok : option Token) (k : Z) e,
    findReSyncTokenType_loop fuel all p tok k = Throw e -> e = TypeError.
Proof.
  induction fuel as [| fuel IH]; intros tok k e;
    cbn [findReSyncTokenType_loop]; [discriminate |].
  destruct tok as [t |]; [| intros [= <-]; reflexivity].
  destruct (contains all (tokenType t)); [discriminate |]. apply IH.
Qed.

Lemma resynced_frame (p q : Parser) :
  resynced p q ->
  same_frame p q /\ (idx_ok p -> idx_ok q) /\ errors q = errors p /\
  nextExcId q = nextExcId p.
Proof.
  intros [Hq Hle]. rewrite Hq. unfold same_frame, idx_ok.
  cbn. repeat split; try reflexivity. lia.
Qed.

Section WrapperFacts.

Variable C : ParserClass.

Lemma write_resyncedTokens_frame (e : RecognitionException)
  (toks : list (option Token)) (p : Parser) :
  same_frame p (write_resyncedTokens e toks p) /\
  inputIdx (write_resyncedTokens e toks p) = inputIdx p.
Proof. unfold same_frame. repeat split. Qed.

Lemma write_resyncedTokens_In (e : RecognitionException)
  (toks : list (option Token)) (p : Parser) :
  e ∈ errors p ->
  set_resyncedTokens e toks ∈ errors (write_resyncedTokens e toks p).
Proof.
  intros He. unfold write_resyncedTokens. cbn [errors set_errors].
  apply list_elem_of_In. apply list_elem_of_In in He.
  apply in_map_iff. exists e. split; [| exact He].
  rewrite bool_decide_eq_true_2 by reflexivity. reflexivity.
Qed.

Lemma same_frame_refl (p : Parser) : same_frame p p.
Proof. unfold same_frame. repeat split. Qed.

Lemma same_frame_trans (p q r : Parser) :
  same_frame p q -> same_frame q r -> same_frame p r.
Proof.
  unfold same_frame. intros (a1 & a2 & a3 & a4 & a5) (b1 & b2 & b3 & b4 & b5).
  repeat split; congruence.
Qed.

(** The [try] and [catch] blocks keep the discipline of the body. *)
Lemma try_catch_disciplined (fuel : nat) (impl : list JsValue -> M JsValue)
  (config : IRuleConfig) (args : list JsValue) :
  disciplined (impl args) ->
  disciplined (wrappedGrammarRule_try_catch C fuel impl config args).
Proof.
  intros Himpl p r q Hrun Hr. unfold wrappedGrammarRule_try_catch in Hrun.
  destruct (impl args p) as [r2 q2] eqn:Eimpl.
  assert (Hkeep : r2 <> OutOfFuel -> (r, q) = (r2, q2) ->
            same_frame p q /\ (idx_ok p -> idx_ok q) /\
            (forall e, r = Throw (Recognition e) -> e ∈ errors q)).
  { intros Hr2 [= -> ->]. exact (Himpl p r2 q2 Eimpl Hr2). }
  destruct r2 as [v | e |].
  - apply Hkeep; [discriminate | symmetry; exact Hrun].
  - destruct e as [exc | msg | msg];
      try (apply Hkeep; [discriminate | symmetry; exact Hrun]).
    destruct (Himpl p _ q2 Eimpl) as (Hf & Hi & Hs); [discriminate |].
    destruct ((js_length (RULE_STACK q2) =? 1)
              || default DEFAULT_RULE_CONFIG_resyncEnabled
                   (resyncEnabled config)
                 && negb (isBackTracking q2) && recoveryEnabled q2);
      [| apply Hkeep; [discriminate | symmetry; exact Hrun]].
    destruct (findReSyncTokenType C fuel q2) as [T | e' |] eqn:Efind.
    + destruct (isInCurrentRuleReSyncSet C T q2);
        [| apply Hkeep; [discriminate | symmetry; exact Hrun]].
      destruct (reSyncTo fuel T q2) as [r3 q3] eqn:Esync.
      unfold reSyncTo in Esync. pose proof Esync as Esync0.
      apply reSyncTo_loop_resynced in Esync.
      apply resynced_frame in Esync as (Hf3 & Hi3 & He3 & _).
      destruct r3 as [toks | e' |].
      * injection Hrun as <- <-.
        destruct (write_resyncedTokens_frame exc toks q3) as [Hfw Hiw].
        split; [| split].
        -- eapply same_frame_trans; [exact Hf |].
           eapply same_frame_trans; [exact Hf3 | exact Hfw].
        -- intros Hp. unfold idx_ok in *. rewrite Hiw. auto.
        -- intros e [=].
      * exfalso. exact (reSyncTo_loop_no_throw _ _ _ _ _ _ _ Esync0).
      * injection Hrun as <- <-. congruence.
    + injection Hrun as <- <-. split; [exact Hf | split; [exact Hi |]].
      intros e He. unfold findReSyncTokenType in Efind.
      apply findReSyncTokenType_loop_throw in Efind. subst e'.
      discriminate He.
    + injection Hrun as <- <-. congruence.
  - injection Hrun as <- <-. congruence.
Qed.

End WrapperFacts.

(** ** The rule wrapper *)

Section RuleFacts.

Variable C : ParserClass.

Lemma ruleInvocationStateUpdate_frame (name : string) (idx : Z) (p : Parser) :
  let p1 := ruleInvocationStateUpdate name idx p in
  RULE_STACK p1 = push (RULE_STACK p) name /\
  RULE_OCCURRENCE_STACK p1 = push (RULE_OCCURRENCE_STACK p) idx /\
  isBackTrackingStack p1 = isBackTrackingStack p /\
  recoveryEnabled p1 = recoveryEnabled p /\
  _input p1 = _input p /\
  inputIdx p1 = inputIdx p /\
  errors p1 = errors p.
Proof. cbn. repeat split. Qed.

Lemma wrappedGrammarRule_eq (fuel : nat) (name : string)
  (impl : list JsValue -> M JsValue) (config : IRuleConfig) (idx : Z)
  (args : list JsValue) (p : Parser) r3 q3 :
  wrappedGrammarRule_try_catch C fuel impl config args
    (ruleInvocationStateUpdate name idx p) = (r3, q3) ->
  r3 <> OutOfFuel ->
  wrappedGrammarRule C fuel name impl config idx args p =
    match ruleFinallyStateUpdate q3 with
    | (Ret _, q) => (r3, q)
    | (Throw e, q) => (Throw e, q)
    | (OutOfFuel, q) => (OutOfFuel, q)
    end.
Proof.
  intros Htc Hr. unfold wrappedGrammarRule, try_finally. rewrite Htc.
  destruct r3; [reflexivity | reflexivity | congruence].
Qed.

(** The whole wrapper keeps the discipline of the body: it is a grammar
    action itself, the one that [SUBRULE] runs. *)
Lemma wrappedGrammarRule_disciplined (fuel : nat) (name : string)
  (impl : list JsValue -> M JsValue) (config : IRuleConfig) (idx : Z)
  (args : list JsValue) :
  disciplined (impl args) ->
  disciplined (wrappedGrammarRule C fuel name impl config idx args).
Proof.
  intros Himpl p r q Hrun Hr.
  destruct (wrappedGrammarRule_try_catch C fuel impl config args
              (ruleInvocationStateUpdate name idx p)) as [r3 q3] eqn:Etc.
  destruct (classic_OutOfFuel r3) as [-> | Hr3].
  { unfold wrappedGrammarRule, try_finally in Hrun. rewrite Etc in Hrun.
    injection Hrun as <- <-. congruence. }
  rewrite (wrappedGrammarRule_eq _ _ _ _ _ _ _ _ _ Etc Hr3) in Hrun.
  destruct (try_catch_disciplined C fuel impl config args Himpl _ _ _ Etc Hr3)
    as ((f1 & f2 & f3 & f4 & f5) & Hi & Hs).
  destruct (ruleInvocationStateUpdate_frame name idx p)
    as (g1 & g2 & g3 & g4 & g5 & g6 & g7).
  destruct (ruleFinallyStateUpdate q3) as [rf qf] eqn:Efin.
  destruct (ruleFinallyStateUpdate_frame _ _ _ Efin)
    as (h1 & h2 & h3 & h4 & h5 & h6 & h7 & h8 & h9).
  assert (Hframe : same_frame p qf).
  { unfold same_frame. rewrite h1, h2, h3, h4, h5, f1, f2, f3, f4, f5.
    rewrite g1, g2, g3, g4, g5, !pop_push. repeat split. }
  assert (Hidx : idx_ok p -> idx_ok qf).
  { unfold idx_ok in *. rewrite h6. rewrite g6 in Hi. exact Hi. }
  destruct rf as [u | e |].
  - injection Hrun as <- <-. split; [exact Hframe | split; [exact Hidx |]].
    intros e He. apply h7. apply Hs. exact He.
  - injection Hrun as <- <-. split; [exact Hframe | split; [exact Hidx |]].
    intros e0 He0. rewrite ruleFinallyStateUpdate_eq in Efin.
    destruct (bool_decide (pop (RULE_STACK q3) = []) &&
              negb (instanceOf (LA q3 1) EOF)).
    + destruct (LA q3 1); [discriminate Efin |].
      injection Efin as Hx _. rewrite <- Hx in He0. discriminate He0.
    + discriminate.
  - congruence.
Qed.

(** C6: on every way out of the [try] and [catch] blocks (the value of the
    body, the recovery value after a re-sync, an exception thrown on) the
    rule wrapper runs the same exit: it pops the entry of this invocation
    from the rule stack and from the occurrence stack, and it appends a
    NotAllInputParsedException carrying the next token exactly when the
    rule stack is empty after the pop and that token is not an end of
    input token. *)
Theorem rule_exit_path (fuel : nat) (name : string)
  (impl : list JsValue -> M JsValue) (config : IRuleConfig) (idx : Z)
  (args : list JsValue) (p : Parser) (r3 : Res JsValue) (q3 : Parser) :
  disciplined (impl args) ->
  idx_ok p ->
  wrappedGrammarRule_try_catch C fuel impl config args
    (ruleInvocationStateUpdate name idx p) = (r3, q3) ->
  r3 <> OutOfFuel ->
  exists (t : Token) (q : Parser),
    LA q3 1 = Some t /\
    ruleFinallyStateUpdate q3 = (Ret tt, q) /\
    wrappedGrammarRule C fuel name impl config idx args p = (r3, q) /\
    RULE_STACK q3 = push (RULE_STACK p) name /\
    RULE_OCCURRENCE_STACK q3 = push (RULE_OCCURRENCE_STACK p) idx /\
    RULE_STACK q = pop (RULE_STACK q3) /\
    RULE_OCCURRENCE_STACK q = pop (RULE_OCCURRENCE_STACK q3) /\
    RULE_STACK q = RULE_STACK p /\
    RULE_OCCURRENCE_STACK q = RULE_OCCURRENCE_STACK p /\
    (RULE_STACK q = [] /\ instanceOf (Some t) EOF = false ->
       errors q = errors q3 ++ [redundant_input_exception t q3] /\
       excKind (redundant_input_exception t q3) = NotAllInputParsedException /\
       token (redundant_input_exception t q3) = Some t) /\
    (~ (RULE_STACK q = [] /\ instanceOf (Some t) EOF = false) ->
       errors q = errors q3).
Proof.
  intros Himpl Hidx Etc Hr3.
  destruct (try_catch_disciplined C fuel impl config args Himpl _ _ _ Etc Hr3)
    as ((f1 & f2 & f3 & f4 & f5) & Hi & Hs).
  destruct (ruleInvocationStateUpdate_frame name idx p)
    as (g1 & g2 & g3 & g4 & g5 & g6 & g7).
  assert (Hidx3 : idx_ok q3).
  { apply Hi. unfold idx_ok in *. rewrite g6. exact Hidx. }
  destruct (LA_some q3 1 Hidx3) as [t Ht]; [lia |].
  rewrite (wrappedGrammarRule_eq _ _ _ _ _ _ _ _ _ Etc Hr3).
  rewrite ruleFinallyStateUpdate_eq, Ht.
  assert (Hpop : pop (RULE_STACK q3) = RULE_STACK p)
    by (rewrite f1, g1; apply pop_push).
  assert (Hpop' : pop (RULE_OCCURRENCE_STACK q3) = RULE_OCCURRENCE_STACK p)
    by (rewrite f2, g2; apply pop_push).
  destruct (bool_decide (pop (RULE_STACK q3) = []) &&
            negb (instanceOf (Some t) EOF)) eqn:Econd.
  - apply andb_true_iff in Econd as [He Hn].
    apply bool_decide_eq_true in He. apply negb_true_iff in Hn.
    eexists t, _. split; [reflexivity |]. split; [reflexivity |].
    split; [reflexivity |].
    cbn [RULE_STACK RULE_OCCURRENCE_STACK errors set_errors set_nextExcId
         exit_stacks set_RULE_STACK set_RULE_OCCURRENCE_STACK].
    rewrite f1, f2, g1, g2, !pop_push.
    repeat split; try reflexivity.
    intros Hnot. exfalso. apply Hnot. split; [| exact Hn].
    rewrite <- Hpop. exact He.
  - eexists t, _. split; [reflexivity |]. split; [reflexivity |].
    split; [reflexivity |].
    cbn [RULE_STACK RULE_OCCURRENCE_STACK errors
         exit_stacks set_RULE_STACK set_RULE_OCCURRENCE_STACK].
    rewrite f1, f2, g1, g2, !pop_push.
    repeat split; try reflexivity.
    all: match goal with
         | H : _ /\ _ |- _ =>
             destruct H as [He Hn]; exfalso;
             rewrite Hpop, He, Hn in Econd; discriminate
         end.
Qed.

End RuleFacts.

(** ** The DSL methods keep the discipline *)

Lemma ret_disciplined {A : Type} (a : A) : disciplined (ret a).
Proof.
  intros p r q [= <- <-] _. split; [apply same_frame_refl | split; [auto |]].
  intros e [=].
Qed.

Lemma bind_disciplined {A B : Type} (m : M A) (k : A -> M B) :
  disciplined m -> (forall a, disciplined (k a)) -> disciplined (bind m k).
Proof.
  intros Hm Hk p r q Hrun Hr. unfold bind in Hrun.
  destruct (m p) as [[a | e |] p1] eqn:Em.
  - destruct (Hm p _ p1 Em) as (Hf & Hi & _); [discriminate |].
    destruct (Hk a p1 r q Hrun Hr) as (Hf' & Hi' & Hs').
    split; [eapply same_frame_trans; eassumption | split; [auto | exact Hs']].
  - injection Hrun as <- <-.
    destruct (Hm p _ p1 Em) as (Hf & Hi & Hs); [discriminate |].
    split; [exact Hf | split; [exact Hi |]].
    intros e0 [= ->]. apply Hs. reflexivity.
  - injection Hrun as <- <-. congruence.
Qed.

Lemma ret_halts {A : Type} (a : A) : halts_on_first_error (ret a).
Proof. intros p r q _ _ [= <- <-]. reflexivity. Qed.

Lemma bind_halts {A B : Type} (m : M A) (k : A -> M B) :
  disciplined m -> halts_on_first_error m ->
  (forall a, halts_on_first_error (k a)) -> halts_on_first_error (bind m k).
Proof.
  intros Hd Hm Hk p r q Hrec Hrs Hrun. unfold bind in Hrun.
  destruct (m p) as [[a | e |] p1] eqn:Em.
  - destruct (Hd p _ p1 Em) as ((f1 & f2 & f3 & f4 & f5) & _); [discriminate |].
    pose proof (Hm p _ p1 Hrec Hrs Em) as He. cbn in He.
    pose proof (Hk a p1 r q) as Hk'. rewrite f4, f1, He in Hk'.
    exact (Hk' Hrec Hrs Hrun).
  - injection Hrun as <- <-. exact (Hm p _ p1 Hrec Hrs Em).
  - injection Hrun as <- <-. exact I.
Qed.

Section DisciplineFacts.

Variable C : ParserClass.

Lemma throw_saved_run {A : Type} (kind : RecognitionKind) (msg : string)
  (tok : option Token) (p : Parser) (r : Res A) (q : Parser) :
  throw_saved kind msg tok p = (r, q) ->
  exists e, r = Throw (Recognition e) /\ errors q = errors p ++ [e] /\
            same_frame p q /\ inputIdx q = inputIdx p.
Proof.
  unfold throw_saved, new_exception, SAVE_ERROR. intros [= <- <-].
  eexists. split; [reflexivity |]. split; [reflexivity |].
  unfold same_frame. repeat split.
Qed.

Lemma throw_saved_disciplined {A : Type} (kind : RecognitionKind)
  (msg : string) (tok : option Token) :
  disciplined (throw_saved (A := A) kind msg tok).
Proof.
  intros p r q Hrun _.
  destruct (throw_saved_run _ _ _ _ _ _ Hrun) as (e & -> & He & Hf & Hi).
  split; [exact Hf | split; [unfold idx_ok; rewrite Hi; auto |]].
  intros e' [= <-]. rewrite He. apply elem_of_app. right.
  apply list_elem_of_singleton. reflexivity.
Qed.

Lemma throw_saved_halts {A : Type} (kind : RecognitionKind) (msg : string)
  (tok : option Token) :
  halts_on_first_error (throw_saved (A := A) kind msg tok).
Proof.
  intros p r q _ _ Hrun.
  destruct (throw_saved_run _ _ _ _ _ _ Hrun) as (e & -> & He & _).
  exact He.
Qed.

Lemma consumeInternalOptimized_disciplined (tokClass : TokClass) :
  disciplined (consumeInternalOptimized C tokClass).
Proof.
  intros p r q Hrun Hr. unfold consumeInternalOptimized in Hrun.
  destruct (instanceOf (LA p 1) tokClass).
  - injection Hrun as <- <-. split; [unfold same_frame; repeat split |].
    split; [unfold idx_ok, consumeToken; cbn; lia | intros e [=]].
  - destruct (LA p 1) as [t |].
    + exact (throw_saved_disciplined _ _ _ p r q Hrun Hr).
    + injection Hrun as <- <-.
      split; [apply same_frame_refl | split; [auto | intros e [=]]].
Qed.

Lemma tryInRuleRecovery_disciplined (tokClass : TokClass)
  (follows : list TokClass) :
  disciplined (tryInRuleRecovery C tokClass follows).
Proof.
  intros p r q Hrun Hr. unfold tryInRuleRecovery in Hrun.
  destruct (canRecoverWithSingleTokenInsertion C tokClass follows p).
  - injection Hrun as <- <-.
    split; [apply same_frame_refl | split; [auto | intros e [=]]].
  - destruct (canRecoverWithSingleTokenDeletion tokClass p).
    + unfold SKIP_TOKEN in Hrun.
      destruct (inputIdx p <=? js_length (_input p) - 2);
        injection Hrun as <- <-;
        (split; [unfold same_frame; repeat split |]);
        (split; [unfold idx_ok, consumeToken; cbn; lia | intros e [=]]).
    + injection Hrun as <- <-.
      split; [apply same_frame_refl | split; [auto | intros e [=]]].
Qed.

Lemma consumeInternal_disciplined (tokClass : TokClass) (idx : Z) :
  disciplined (consumeInternal C tokClass idx).
Proof.
  intros p r q Hrun Hr. unfold consumeInternal in Hrun.
  destruct (consumeInternalOptimized C tokClass p) as [r1 p1] eqn:Eopt.
  pose proof (consumeInternalOptimized_disciplined tokClass p r1 p1 Eopt)
    as Hopt.
  destruct r1 as [v | e1 |].
  { injection Hrun as <- <-. apply Hopt. discriminate. }
  2: { injection Hrun as <- <-. congruence. }
  destruct Hopt as (Hf & Hi & Hs); [discriminate |].
  destruct (recoveryEnabled p1 && isMismatchedTokenException e1
            && negb (isBackTracking p1)).
  - destruct (tryInRuleRecovery C tokClass
                (getFollowsForInRuleRecovery C tokClass idx p1) p1)
      as [r2 p2] eqn:Etry.
    pose proof (tryInRuleRecovery_disciplined _ _ p1 r2 p2 Etry) as Htry.
    destruct r2 as [v | e2 |].
    + injection Hrun as <- <-.
      destruct Htry as (Hf' & Hi' & _); [discriminate |].
      split; [eapply same_frame_trans; eassumption |].
      split; [auto | intros e [=]].
    + destruct (tryInRuleRecovery_throws _ _ _ _ _ _ Etry) as [Hin ->].
      rewrite Hin in Hrun. injection Hrun as <- <-.
      split; [exact Hf | split; [exact Hi | exact Hs]].
    + injection Hrun as <- <-. congruence.
  - injection Hrun as <- <-.
    split; [exact Hf | split; [exact Hi | exact Hs]].
Qed.

Lemma consumeInternal_halts (tokClass : TokClass) (idx : Z) :
  halts_on_first_error (consumeInternal C tokClass idx).
Proof.
  intros p r q Hrec _ Hrun. unfold consumeInternal in Hrun.
  unfold consumeInternalOptimized in Hrun.
  destruct (instanceOf (LA p 1) tokClass).
  - injection Hrun as <- <-. reflexivity.
  - destruct (LA p 1) as [t |].
    + destruct (throw_saved MismatchedTokenException
                  (getMisMatchTokenErrorMessage C tokClass t) (Some t) p)
        as [r1 p1] eqn:Ets.
      destruct (throw_saved_run _ _ _ _ _ _ Ets)
        as (e & -> & He & (_ & _ & _ & f4 & _) & _).
      rewrite f4, Hrec in Hrun. cbn [andb] in Hrun.
      injection Hrun as <- <-. exact He.
    + destruct (recoveryEnabled p && isMismatchedTokenException TypeError
                && negb (isBackTracking p)) eqn:Ec.
      * rewrite Hrec in Ec. discriminate.
      * injection Hrun as <- <-. exact I.
Qed.

Lemma raiseNoAltException_disciplined {A : Type} (occurrence : Z)
  (errMsgTypes : option string) :
  disciplined (raiseNoAltException (A := A) C occurrence errMsgTypes).
Proof.
  intros p r q Hrun Hr. unfold raiseNoAltException in Hrun.
  destruct (LA p 1) as [t |].
  - exact (throw_saved_disciplined _ _ _ p r q Hrun Hr).
  - injection Hrun as <- <-.
    split; [apply same_frame_refl | split; [auto | intros e [=]]].
Qed.

Lemma raiseNoAltException_halts {A : Type} (occurrence : Z)
  (errMsgTypes : option string) :
  halts_on_first_error (raiseNoAltException (A := A) C occurrence errMsgTypes).
Proof.
  intros p r q Hrec Hrs Hrun. unfold raiseNoAltException in Hrun.
  destruct (LA p 1) as [t |].
  - exact (throw_saved_halts _ _ _ p r q Hrec Hrs Hrun).
  - injection Hrun as <- <-. exact I.
Qed.

Lemma raiseEarlyExitException_disciplined {A : Type} (occurrence : Z)
  (prodType : PROD_TYPE) (userDefinedErrMsg : option string) :
  disciplined
    (raiseEarlyExitException (A := A) C occurrence prodType userDefinedErrMsg).
Proof.
  intros p r q Hrun Hr. unfold raiseEarlyExitException in Hrun.
  destruct (LA p 1) as [t |].
  - exact (throw_saved_disciplined _ _ _ p r q Hrun Hr).
  - injection Hrun as <- <-.
    split; [apply same_frame_refl | split; [auto | intros e [=]]].
Qed.

Lemma raiseEarlyExitException_halts {A : Type} (occurrence : Z)
  (prodType : PROD_TYPE) (userDefinedErrMsg : option string) :
  halts_on_first_error
    (raiseEarlyExitException (A := A) C occurrence prodType userDefinedErrMsg).
Proof.
  intros p r q Hrec Hrs Hrun. unfold raiseEarlyExitException in Hrun.
  destruct (LA p 1) as [t |].
  - exact (throw_saved_halts _ _ _ p r q Hrec Hrs Hrun).
  - injection Hrun as <- <-. exact I.
Qed.

Lemma js_index_In {A : Type} (arr : list A) (i : Z) (x : A) :
  js_index arr i = Some x -> x ∈ arr.
Proof.
  unfold js_index. destruct (i <? 0); [discriminate |].
  intros H. apply list_elem_of_lookup. eauto.
Qed.

Lemma orInternal_disciplined (laFunc : Parser -> Z) (alts : list (M JsValue))
  (errMsgTypes : option string) (occurrence : Z) :
  (forall alt, alt ∈ alts -> disciplined alt) ->
  disciplined (orInternal C laFunc alts errMsgTypes occurrence).
Proof.
  intros Halts p r q Hrun Hr. unfold orInternal in Hrun.
  destruct (negb (laFunc p =? -1)).
  - destruct (js_index alts (laFunc p)) as [alt |] eqn:Ealt.
    + exact (Halts alt (js_index_In _ _ _ Ealt) p r q Hrun Hr).
    + injection Hrun as <- <-.
      split; [apply same_frame_refl | split; [auto | intros e [=]]].
  - exact (raiseNoAltException_disciplined _ _ p r q Hrun Hr).
Qed.

Lemma orInternal_halts (laFunc : Parser -> Z) (alts : list (M JsValue))
  (errMsgTypes : option string) (occurrence : Z) :
  (forall alt, alt ∈ alts -> halts_on_first_error alt) ->
  halts_on_first_error (orInternal C laFunc alts errMsgTypes occurrence).
Proof.
  intros Halts p r q Hrec Hrs Hrun. unfold orInternal in Hrun.
  destruct (negb (laFunc p =? -1)).
  - destruct (js_index alts (laFunc p)) as [alt |] eqn:Ealt.
    + exact (Halts alt (js_index_In _ _ _ Ealt) p r q Hrec Hrs Hrun).
    + injection Hrun as <- <-. exact I.
  - exact (raiseNoAltException_halts _ _ p r q Hrec Hrs Hrun).
Qed.

Lemma optionInternal_disciplined (lookAheadFunc : Parser -> bool)
  (predicate : option (Parser -> bool)) (action : M JsValue) :
  disciplined action ->
  disciplined (optionInternal lookAheadFunc predicate action).
Proof.
  intros Hact p r q Hrun Hr.
  assert (Hno : (r, q) = (Ret false, p) ->
            same_frame p q /\ (idx_ok p -> idx_ok q) /\
            (forall e, r = Throw (Recognition e) -> e ∈ errors q)).
  { intros [= -> ->].
    split; [apply same_frame_refl | split; [auto | intros e [=]]]. }
  assert (Hyes : (_ <- action ;; ret true) p = (r, q) ->
            same_frame p q /\ (idx_ok p -> idx_ok q) /\
            (forall e, r = Throw (Recognition e) -> e ∈ errors q)).
  { intros H. refine (bind_disciplined _ _ Hact _ p r q H Hr).
    intros a. apply ret_disciplined. }
  unfold optionInternal in Hrun.
  destruct predicate as [pred |].
  - destruct (negb (pred p)); [apply Hno; symmetry; exact Hrun |].
    destruct (lookAheadFunc p);
      [apply Hyes; exact Hrun | apply Hno; symmetry; exact Hrun].
  - destruct (lookAheadFunc p);
      [apply Hyes; exact Hrun | apply Hno; symmetry; exact Hrun].
Qed.

Lemma optionInternal_halts (lookAheadFunc : Parser -> bool)
  (predicate : option (Parser -> bool)) (action : M JsValue) :
  disciplined action -> halts_on_first_error action ->
  halts_on_first_error (optionInternal lookAheadFunc predicate action).
Proof.
  intros Hd Hact p r q Hrec Hrs Hrun.
  assert (Hyes : (_ <- action ;; ret true) p = (r, q) ->
            match r with
            | Ret _ => errors q = errors p
            | Throw (Recognition e) => errors q = errors p ++ [e]
            | _ => True
            end).
  { intros H. refine (bind_halts _ _ Hd Hact _ p r q Hrec Hrs H).
    intros a. apply ret_halts. }
  unfold optionInternal in Hrun.
  destruct predicate as [pred |].
  - destruct (negb (pred p)); [injection Hrun as <- <-; reflexivity |].
    destruct (lookAheadFunc p);
      [apply Hyes; exact Hrun | injection Hrun as <- <-; reflexivity].
  - destruct (lookAheadFunc p);
      [apply Hyes; exact Hrun | injection Hrun as <- <-; reflexivity].
Qed.

End DisciplineFacts.

(** ** Repetitions keep the discipline *)

Lemma cond_disciplined {A : Type} (c : Parser -> bool) (m1 m2 : M A) :
  disciplined m1 -> disciplined m2 ->
  disciplined (fun p => if c p then m1 p else m2 p).
Proof.
  intros H1 H2 p r q Hrun Hr. cbn beta in Hrun.
  destruct (c p); [exact (H1 p r q Hrun Hr) | exact (H2 p r q Hrun Hr)].
Qed.

Lemma cond_halts {A : Type} (c : Parser -> bool) (m1 m2 : M A) :
  halts_on_first_error m1 -> halts_on_first_error m2 ->
  halts_on_first_error (fun p => if c p then m1 p else m2 p).
Proof.
  intros H1 H2 p r q Hrec Hrs Hrun. cbn beta in Hrun.
  destruct (c p);
    [exact (H1 p r q Hrec Hrs Hrun) | exact (H2 p r q Hrec Hrs Hrun)].
Qed.

(** What the recovery does only happens with recovery enabled. *)
Lemma recovery_gate_halts {A : Type} (m : M A) (a : A) :
  halts_on_first_error (fun p => if recoveryEnabled p then m p else (Ret a, p)).
Proof.
  intros p r q Hrec _ Hrun. cbn beta in Hrun. rewrite Hrec in Hrun.
  injection Hrun as <- <-. reflexivity.
Qed.

Lemma while_do_disciplined {A : Type} (cond : Parser -> bool) (body : M A) :
  disciplined body -> forall fuel, disciplined (while_do fuel cond body).
Proof.
  intros Hbody. induction fuel as [| fuel IH]; cbn [while_do].
  - intros p r q [= <- <-] Hr. congruence.
  - apply (cond_disciplined cond (_ <- body ;; while_do fuel cond body)
             (ret tt)).
    + apply bind_disciplined; [exact Hbody | intros _; exact IH].
    + apply ret_disciplined.
Qed.

Lemma while_do_halts {A : Type} (cond : Parser -> bool) (body : M A) :
  disciplined body -> halts_on_first_error body ->
  forall fuel, halts_on_first_error (while_do fuel cond body).
Proof.
  intros Hd Hbody. induction fuel as [| fuel IH]; cbn [while_do].
  - intros p r q _ _ [= <- <-]. exact I.
  - apply (cond_halts cond (_ <- body ;; while_do fuel cond body) (ret tt)).
    + apply bind_halts; [exact Hd | exact Hbody | intros _; exact IH].
    + apply ret_halts.
Qed.

Section RepetitionFacts.

Variable C : ParserClass.

Lemma generateErrorMessage_disciplined (expected : TokClass)
  (next0 : option Token) (acc : list (option Token)) :
  disciplined (generateErrorMessage C expected next0 acc).
Proof.
  intros p r q Hrun Hr. unfold generateErrorMessage in Hrun.
  destruct next0 as [t |]; injection Hrun as <- <-.
  - split; [unfold same_frame; repeat split |].
    split; [auto | intros e [=]].
  - split; [apply same_frame_refl | split; [auto | intros e [=]]].
Qed.

Lemma SKIP_TOKEN_frame (p : Parser) :
  let q := snd (SKIP_TOKEN p) in
  same_frame p q /\ (idx_ok p -> idx_ok q) /\
  savedTokenIdx q = savedTokenIdx p /\ errors q = errors p.
Proof.
  unfold SKIP_TOKEN. destruct (inputIdx p <=? js_length (_input p) - 2);
    cbn [snd]; (split; [unfold same_frame; repeat split |]);
    (split; [unfold idx_ok, consumeToken; cbn; lia | split; reflexivity]).
Qed.

Lemma tryInRepetitionRecovery_loop_disciplined {A : Type}
  (grammarRule : M A) (lookAheadFunc : Parser -> bool)
  (expected resync : TokClass) (next0 : option Token) :
  disciplined grammarRule ->
  forall (fuel : nat) (curr : option Token) (acc : list (option Token))
         (p : Parser) r q,
    tryInRepetitionRecovery_loop C fuel grammarRule lookAheadFunc expected
      resync next0 curr acc p = (r, q) ->
    r <> OutOfFuel ->
    same_frame p q /\
    (saved_ok p -> idx_ok p -> idx_ok q) /\
    (forall e, r = Throw (Recognition e) -> e ∈ errors q).
Proof.
  intros Hrule. induction fuel as [| fuel IH]; intros curr acc p r q Hrun Hr;
    cbn [tryInRepetitionRecovery_loop] in Hrun.
  - injection Hrun as <- <-. congruence.
  - destruct (instanceOf curr expected).
    { assert (Hd : disciplined
                (_ <- generateErrorMessage C expected next0 acc ;;
                 ret (@None A))).
      { apply bind_disciplined;
          [apply generateErrorMessage_disciplined |
           intros _; apply ret_disciplined]. }
      destruct (Hd p r q Hrun Hr) as (Hf & Hi & Hs). auto. }
    destruct (lookAheadFunc p).
    { assert (Hd : disciplined
                (_ <- generateErrorMessage C expected next0 acc ;;
                 x <- grammarRule ;; ret (Some x))).
      { apply bind_disciplined;
          [apply generateErrorMessage_disciplined | intros _].
        apply bind_disciplined; [exact Hrule | intros x; apply ret_disciplined]. }
      destruct (Hd p r q Hrun Hr) as (Hf & Hi & Hs). auto. }
    destruct (instanceOf curr resync).
    { injection Hrun as <- <-. unfold restoreLexerState, saved_ok, idx_ok.
      destruct (savedTokenIdx p) as [i |];
        (split; [unfold same_frame; repeat split |]);
        (split; [cbn; auto | intros e [=]]). }
    pose proof (SKIP_TOKEN_frame p) as Hskip.
    destruct (SKIP_TOKEN p) as [tok p1]. cbn [snd] in Hskip.
    destruct Hskip as (Hf1 & Hi1 & Hsv1 & He1).
    destruct (IH _ _ _ _ _ Hrun Hr) as (Hf & Hi & Hs).
    split; [eapply same_frame_trans; eassumption |]. split; [| exact Hs].
    intros Hsaved Hidx. apply Hi; [| auto].
    unfold saved_ok in *. rewrite Hsv1. exact Hsaved.
Qed.

Lemma tryInRepetitionRecovery_disciplined {A : Type} (fuel : nat)
  (grammarRule : M A) (lookAheadFunc : Parser -> bool) (expected : TokClass) :
  disciplined grammarRule ->
  disciplined (tryInRepetitionRecovery C fuel grammarRule lookAheadFunc
                 expected).
Proof.
  intros Hrule p r q Hrun Hr. unfold tryInRepetitionRecovery in Hrun.
  destruct (findReSyncTokenType C fuel p) as [T | e |] eqn:Efind.
  - destruct (tryInRepetitionRecovery_loop_disciplined grammarRule
                lookAheadFunc expected T _ Hrule _ _ _ _ _ _ Hrun Hr)
      as (Hf & Hi & Hs).
    split; [exact Hf | split; [| exact Hs]].
    intros Hidx. apply Hi; [| exact Hidx].
    unfold saved_ok, saveLexerState. cbn. exact Hidx.
  - injection Hrun as <- <-.
    split; [apply same_frame_refl | split; [auto |]].
    intros e0 He0. unfold findReSyncTokenType in Efind.
    apply findReSyncTokenType_loop_throw in Efind. subst e. discriminate He0.
  - injection Hrun as <- <-. congruence.
Qed.

Lemma attemptInRepetitionRecovery_disciplined {A : Type} (fuel : nat)
  (prodFunc : M A) (lookaheadFunc : Parser -> bool) (prodName : string)
  (prodOccurrence : Z) :
  disciplined prodFunc ->
  disciplined (attemptInRepetitionRecovery C fuel prodFunc lookaheadFunc
                 prodName prodOccurrence).
Proof.
  intros Hprod p r q Hrun Hr. unfold attemptInRepetitionRecovery in Hrun.
  assert (Hno : (Ret (@None A), p) = (r, q) ->
            same_frame p q /\ (idx_ok p -> idx_ok q) /\
            (forall e, r = Throw (Recognition e) -> e ∈ errors q)).
  { intros [= <- <-].
    split; [apply same_frame_refl | split; [auto | intros e [=]]]. }
  destruct ((js_length (RULE_STACK p) =? 1)
            && far_isEndOfRule
                 (firstAfterRepetition C
                    (getKeyForAutomaticLookahead prodName prodOccurrence p))
            && bool_decide
                 (far_token
                    (firstAfterRepetition C
                       (getKeyForAutomaticLookahead prodName prodOccurrence p))
                  = None)).
  - destruct (shouldInRepetitionRecoveryBeTried C (Some EOF) (Some 1) p);
      [| exact (Hno Hrun)].
    exact (tryInRepetitionRecovery_disciplined fuel prodFunc lookaheadFunc
             EOF Hprod p r q Hrun Hr).
  - destruct (shouldInRepetitionRecoveryBeTried C _ _ p);
      [| exact (Hno Hrun)].
    destruct (far_token _) as [T |]; [| exact (Hno Hrun)].
    exact (tryInRepetitionRecovery_disciplined fuel prodFunc lookaheadFunc
             T Hprod p r q Hrun Hr).
Qed.

(** The recovery after a repetition, as the repetitions call it. *)
Lemma recovery_step_disciplined {A B : Type} (fuel : nat) (prodFunc : M A)
  (lookaheadFunc : Parser -> bool) (prodName : string) (prodOccurrence : Z)
  (k : option A -> B) (b : B) :
  disciplined prodFunc ->
  disciplined
    (fun p =>
       if recoveryEnabled p then
         (again <- attemptInRepetitionRecovery C fuel prodFunc lookaheadFunc
                     prodName prodOccurrence ;;
          ret (k again)) p
       else (Ret b, p)).
Proof.
  intros Hprod.
  apply (cond_disciplined recoveryEnabled
           (again <- attemptInRepetitionRecovery C fuel prodFunc lookaheadFunc
                       prodName prodOccurrence ;;
            ret (k again)) (ret b)).
  - apply bind_disciplined;
      [apply attemptInRepetitionRecovery_disciplined; exact Hprod |
       intros x; apply ret_disciplined].
  - apply ret_disciplined.
Qed.

Lemma manyInternal_disciplined (prodName : string) (prodOccurrence : Z)
  (org : Parser -> bool) (action : M JsValue) :
  disciplined action ->
  forall fuel predicate,
    disciplined (manyInternal C fuel prodName prodOccurrence org predicate
                   action).
Proof.
  intros Hact. induction fuel as [| fuel IH]; intros predicate;
    cbn [manyInternal].
  - intros p r q [= <- <-] Hr. congruence.
  - apply bind_disciplined; [apply while_do_disciplined; exact Hact |].
    intros _.
    apply (recovery_step_disciplined fuel _ _ prodName prodOccurrence
             (fun _ => tt) tt).
    apply IH.
Qed.

Lemma manyInternal_halts (prodName : string) (prodOccurrence : Z)
  (org : Parser -> bool) (action : M JsValue) :
  disciplined action -> halts_on_first_error action ->
  forall fuel predicate,
    halts_on_first_error (manyInternal C fuel prodName prodOccurrence org
                            predicate action).
Proof.
  intros Hd Hact fuel predicate. destruct fuel as [| fuel]; cbn [manyInternal].
  - intros p r q _ _ [= <- <-]. exact I.
  - apply bind_halts.
    + apply while_do_disciplined. exact Hd.
    + apply while_do_halts; assumption.
    + intros _. apply recovery_gate_halts.
Qed.

Lemma atLeastOneInternal_disciplined (prodName : string) (prodOccurrence : Z)
  (org : Parser -> bool) (action : M JsValue) (errMsg : option string) :
  disciplined action ->
  forall fuel predicate,
    disciplined (atLeastOneInternal C fuel prodName prodOccurrence org
                   predicate action errMsg).
Proof.
  intros Hact. induction fuel as [| fuel IH]; intros predicate;
    cbn [atLeastOneInternal].
  - intros p r q [= <- <-] Hr. congruence.
  - apply bind_disciplined.
    + apply (cond_disciplined (with_predicate predicate org)
               (_ <- action ;;
                while_do fuel (with_predicate predicate org) action)
               (raiseEarlyExitException C prodOccurrence REPETITION_MANDATORY
                  errMsg)).
      * apply bind_disciplined;
          [exact Hact | intros _; apply while_do_disciplined; exact Hact].
      * apply raiseEarlyExitException_disciplined.
    + intros _.
      apply (recovery_step_disciplined fuel _ _ prodName prodOccurrence
               (fun _ => tt) tt).
      apply IH.
Qed.

Lemma atLeastOneInternal_halts (prodName : string) (prodOccurrence : Z)
  (org : Parser -> bool) (action : M JsValue) (errMsg : option string) :
  disciplined action -> halts_on_first_error action ->
  forall fuel predicate,
    halts_on_first_error (atLeastOneInternal C fuel prodName prodOccurrence
                            org predicate action errMsg).
Proof.
  intros Hd Hact fuel predicate.
  destruct fuel as [| fuel]; cbn [atLeastOneInternal].
  - intros p r q _ _ [= <- <-]. exact I.
  - apply bind_halts.
    + apply (cond_disciplined (with_predicate predicate org)
               (_ <- action ;;
                while_do fuel (with_predicate predicate org) action)
               (raiseEarlyExitException C prodOccurrence REPETITION_MANDATORY
                  errMsg)).
      * apply bind_disciplined;
          [exact Hd | intros _; apply while_do_disciplined; exact Hd].
      * apply raiseEarlyExitException_disciplined.
    + apply (cond_halts (with_predicate predicate org)
               (_ <- action ;;
                while_do fuel (with_predicate predicate org) action)
               (raiseEarlyExitException C prodOccurrence REPETITION_MANDATORY
                  errMsg)).
      * apply bind_halts;
          [exact Hd | exact Hact | intros _; apply while_do_halts; assumption].
      * apply raiseEarlyExitException_halts.
    + intros _. apply recovery_gate_halts.
Qed.

Lemma separator_loop_disciplined (separator : TokClass) (action : M JsValue) :
  disciplined action ->
  forall fuel acc, disciplined (separator_loop C fuel separator action acc).
Proof.
  intros Hact. induction fuel as [| fuel IH]; intros acc;
    cbn [separator_loop].
  - intros p r q [= <- <-] Hr. congruence.
  - apply (cond_disciplined (separatorLookAheadFunc separator)
             (sep <- CONSUME C separator ;;
              _ <- action ;;
              separator_loop C fuel separator action (push acc sep))
             (ret acc)).
    + apply bind_disciplined; [apply consumeInternal_disciplined |].
      intros sep. apply bind_disciplined; [exact Hact | intros _; apply IH].
    + apply ret_disciplined.
Qed.

Lemma separator_loop_halts (separator : TokClass) (action : M JsValue) :
  disciplined action -> halts_on_first_error action ->
  forall fuel acc,
    halts_on_first_error (separator_loop C fuel separator action acc).
Proof.
  intros Hd Hact. induction fuel as [| fuel IH]; intros acc;
    cbn [separator_loop].
  - intros p r q _ _ [= <- <-]. exact I.
  - apply (cond_halts (separatorLookAheadFunc separator)
             (sep <- CONSUME C separator ;;
              _ <- action ;;
              separator_loop C fuel separator action (push acc sep))
             (ret acc)).
    + apply bind_halts;
        [apply consumeInternal_disciplined | apply consumeInternal_halts |].
      intros sep. apply bind_halts; [exact Hd | exact Hact | intros _; apply IH].
    + apply ret_halts.
Qed.

Lemma repetitionSepSecondInternal_disciplined (prodName : string)
  (prodOccurrence : Z) (separator : TokClass) (action : M JsValue) :
  disciplined action ->
  forall fuel acc,
    disciplined (repetitionSepSecondInternal C fuel prodName prodOccurrence
                   separator action acc).
Proof.
  intros Hact. induction fuel as [| fuel IH]; intros acc;
    cbn [repetitionSepSecondInternal].
  - intros p r q [= <- <-] Hr. congruence.
  - apply bind_disciplined;
      [apply separator_loop_disciplined; exact Hact |].
    intros seps.
    apply (recovery_step_disciplined fuel _ _ prodName prodOccurrence
             (fun again => default seps again) seps).
    apply IH.
Qed.

Lemma sep_iterations_disciplined (fuel : nat) (prodName : string)
  (prodOccurrence : Z) (separator : TokClass) (action : M JsValue) :
  disciplined action ->
  disciplined (sep_iterations C fuel prodName prodOccurrence separator action).
Proof.
  intros Hact. unfold sep_iterations.
  apply bind_disciplined; [exact Hact | intros _].
  apply bind_disciplined; [apply separator_loop_disciplined; exact Hact |].
  intros seps.
  apply (recovery_step_disciplined fuel _ _ prodName prodOccurrence
           (fun again => default seps again) seps).
  apply repetitionSepSecondInternal_disciplined. exact Hact.
Qed.

Lemma sep_iterations_halts (fuel : nat) (prodName : string)
  (prodOccurrence : Z) (separator : TokClass) (action : M JsValue) :
  disciplined action -> halts_on_first_error action ->
  halts_on_first_error
    (sep_iterations C fuel prodName prodOccurrence separator action).
Proof.
  intros Hd Hact. unfold sep_iterations.
  apply bind_halts; [exact Hd | exact Hact | intros _].
  apply bind_halts;
    [apply separator_loop_disciplined; exact Hd |
     apply separator_loop_halts; assumption |].
  intros seps. apply recovery_gate_halts.
Qed.

Lemma manySepFirstInternal_disciplined (fuel : nat) (prodName : string)
  (prodOccurrence : Z) (la : Parser -> bool) (separator : TokClass)
  (action : M JsValue) :
  disciplined action ->
  disciplined (manySepFirstInternal C fuel prodName prodOccurrence la
                 separator action).
Proof.
  intros Hact.
  apply (cond_disciplined la
           (sep_iterations C fuel prodName prodOccurrence separator action)
           (ret [])).
  - apply sep_iterations_disciplined. exact Hact.
  - apply ret_disciplined.
Qed.

Lemma manySepFirstInternal_halts (fuel : nat) (prodName : string)
  (prodOccurrence : Z) (la : Parser -> bool) (separator : TokClass)
  (action : M JsValue) :
  disciplined action -> halts_on_first_error action ->
  halts_on_first_error (manySepFirstInternal C fuel prodName prodOccurrence
                          la separator action).
Proof.
  intros Hd Hact.
  apply (cond_halts la
           (sep_iterations C fuel prodName prodOccurrence separator action)
           (ret [])).
  - apply sep_iterations_halts; assumption.
  - apply ret_halts.
Qed.

Lemma atLeastOneSepFirstInternal_disciplined (fuel : nat) (prodName : string)
  (prodOccurrence : Z) (la : Parser -> bool) (separator : TokClass)
  (action : M JsValue) (errMsg : option string) :
  disciplined action ->
  disciplined (atLeastOneSepFirstInternal C fuel prodName prodOccurrence la
                 separator action errMsg).
Proof.
  intros Hact.
  apply (cond_disciplined la
           (sep_iterations C fuel prodName prodOccurrence separator action)
           (raiseEarlyExitException C prodOccurrence
              REPETITION_MANDATORY_WITH_SEPARATOR errMsg)).
  - apply sep_iterations_disciplined. exact Hact.
  - apply raiseEarlyExitException_disciplined.
Qed.

Lemma atLeastOneSepFirstInternal_halts (fuel : nat) (prodName : string)
  (prodOccurrence : Z) (la : Parser -> bool) (separator : TokClass)
  (action : M JsValue) (errMsg : option string) :
  disciplined action -> halts_on_first_error action ->
  halts_on_first_error (atLeastOneSepFirstInternal C fuel prodName
                          prodOccurrence la separator action errMsg).
Proof.
  intros Hd Hact.
  apply (cond_halts la
           (sep_iterations C fuel prodName prodOccurrence separator action)
           (raiseEarlyExitException C prodOccurrence
              REPETITION_MANDATORY_WITH_SEPARATOR errMsg)).
  - apply sep_iterations_halts; assumption.
  - apply raiseEarlyExitException_halts.
Qed.

End RepetitionFacts.

(** ** The first invoked rule *)

Section TopRuleFacts.

Variable C : ParserClass.

Lemma set_resyncedTokens_same (x : RecognitionException) :
  set_resyncedTokens x (resyncedTokens x) = x.
Proof. destruct x; reflexivity. Qed.

Lemma write_resyncedTokens_keeps (e x : RecognitionException)
  (toks : list (option Token)) (p : Parser) :
  x ∈ errors p ->
  exists toks', set_resyncedTokens x toks' ∈ errors (write_resyncedTokens e toks p).
Proof.
  intros Hx. unfold write_resyncedTokens. cbn [errors set_errors].
  apply list_elem_of_In in Hx.
  destruct (bool_decide (excId x = excId e)) eqn:Eid.
  - exists toks. apply list_elem_of_In. apply in_map_iff. exists x.
    rewrite Eid. split; [reflexivity | exact Hx].
  - exists (resyncedTokens x). rewrite set_resyncedTokens_same.
    apply list_elem_of_In. apply in_map_iff. exists x.
    rewrite Eid. split; [reflexivity | exact Hx].
Qed.

(** The state in which the body of the first invoked rule ends. *)
Lemma top_body_state (name : string) (idx : Z)
  (impl : list JsValue -> M JsValue) (args : list JsValue) (p : Parser)
  r2 q2 :
  RULE_STACK p = [] -> idx_ok p -> disciplined (impl args) ->
  impl args (ruleInvocationStateUpdate name idx p) = (r2, q2) ->
  r2 <> OutOfFuel ->
  RULE_STACK q2 = [name] /\
  RULE_OCCURRENCE_STACK q2 = push (RULE_OCCURRENCE_STACK p) idx /\
  idx_ok q2 /\ _input q2 = _input p /\
  recoveryEnabled q2 = recoveryEnabled p /\
  (forall e, r2 = Throw (Recognition e) -> e ∈ errors q2).
Proof.
  intros Hrs Hidx Himpl Hrun Hr2.
  destruct (Himpl _ _ _ Hrun Hr2) as ((f1 & f2 & f3 & f4 & f5) & Hi & Hs).
  destruct (ruleInvocationStateUpdate_frame name idx p)
    as (g1 & g2 & g3 & g4 & g5 & g6 & g7).
  rewrite f1, f2, f4, f5, g1, g2, g4, g5, Hrs.
  repeat split; try assumption. apply Hi. unfold idx_ok in *.
  rewrite g6. exact Hidx.
Qed.

Lemma top_rule_returns (fuel : nat) (name : string)
  (impl : list JsValue -> M JsValue) (config : IRuleConfig) (idx : Z)
  (args : list JsValue) (p : Parser) (r2 : Res JsValue) (q2 : Parser) :
  RULE_STACK p = [] -> idx_ok p -> disciplined (impl args) ->
  impl args (ruleInvocationStateUpdate name idx p) = (r2, q2) ->
  r2 <> OutOfFuel -> (forall e, r2 <> Throw (Recognition e)) ->
  exists t,
    LA q2 1 = Some t /\
    wrappedGrammarRule C fuel name impl config idx args p =
      (r2,
       if negb (instanceOf (Some t) EOF)
       then set_errors (set_nextExcId (exit_stacks q2) (S (nextExcId q2)))
              (errors q2 ++ [redundant_input_exception t q2])
       else exit_stacks q2).
Proof.
  intros Hrs Hidx Himpl Hrun Hr2 Hnr.
  destruct (top_body_state name idx impl args p r2 q2 Hrs Hidx Himpl Hrun Hr2)
    as (s1 & s2 & s3 & s4 & s5 & s6).
  destruct (LA_some q2 1 s3) as [t Ht]; [lia |]. exists t.
  split; [exact Ht |].
  assert (Etc : wrappedGrammarRule_try_catch C fuel impl config args
                  (ruleInvocationStateUpdate name idx p) = (r2, q2)).
  { unfold wrappedGrammarRule_try_catch. rewrite Hrun.
    destruct r2 as [v | [e | m | m] |]; try reflexivity.
    exfalso. exact (Hnr e eq_refl). }
  rewrite (wrappedGrammarRule_eq C _ _ _ _ _ _ _ _ _ Etc Hr2).
  rewrite ruleFinallyStateUpdate_eq, Ht, s1. cbn [pop removelast].
  rewrite bool_decide_eq_true_2 by reflexivity. cbn [andb].
  destruct (negb (instanceOf (Some t) EOF)); reflexivity.
Qed.

Lemma top_rule_recovers (fuel : nat) (name : string)
  (impl : list JsValue -> M JsValue) (config : IRuleConfig) (idx : Z)
  (args : list JsValue) (p : Parser) (e : RecognitionException)
  (q2 : Parser) :
  RULE_STACK p = [] -> idx_ok p -> disciplined (impl args) ->
  (length (_input p) + 2 <= fuel)%nat ->
  impl args (ruleInvocationStateUpdate name idx p)
    = (Throw (Recognition e), q2) ->
  exists toks q3,
    findReSyncTokenType C fuel q2 = Ret EOF /\
    isInCurrentRuleReSyncSet C EOF q2 = true /\
    reSyncTo fuel EOF q2 = (Ret toks, q3) /\
    resynced q2 q3 /\
    isAtEndOfInput q3 = true /\
    wrappedGrammarRule C fuel name impl config idx args p =
      (Ret (recoveryValue config),
       exit_stacks (write_resyncedTokens e toks q3)).
Proof.
  intros Hrs Hidx Himpl Hfuel Hrun.
  destruct (top_body_state name idx impl args p _ q2 Hrs Hidx Himpl Hrun)
    as (s1 & s2 & s3 & s4 & s5 & s6); [discriminate |].
  assert (Hfind : findReSyncTokenType C fuel q2 = Ret EOF).
  { apply (findReSyncTokenType_top C fuel q2 name s3 s1).
    rewrite s4. exact Hfuel. }
  assert (Hset : isInCurrentRuleReSyncSet C EOF q2 = true).
  { unfold isInCurrentRuleReSyncSet, getCurrFollowKey. rewrite s1.
    reflexivity. }
  set (k := Z.max 1 (js_length (_input q2) - inputIdx q2)).
  destruct (reSyncTo_ends fuel EOF q2 k s3) as (toks & q3 & Hsync & Hres & Hend).
  { unfold k. lia. }
  { rewrite LA_past_end by (unfold k; lia). reflexivity. }
  { unfold k, idx_ok, js_length in *. rewrite s4. lia. }
  exists toks, q3. repeat split; try assumption; try apply Hres.
  destruct (resynced_frame q2 q3 Hres) as ((f1 & f2 & f3 & f4 & f5) & Hi & He & _).
  assert (Etc : wrappedGrammarRule_try_catch C fuel impl config args
                  (ruleInvocationStateUpdate name idx p)
                = (Ret (recoveryValue config),
                   write_resyncedTokens e toks q3)).
  { unfold wrappedGrammarRule_try_catch. rewrite Hrun, s1.
    cbn [js_length length Z.of_nat Z.eqb Pos.eqb orb].
    rewrite Hfind, Hset, Hsync. reflexivity. }
  rewrite (wrappedGrammarRule_eq C _ _ _ _ _ _ _ _ _ Etc) by discriminate.
  rewrite ruleFinallyStateUpdate_eq.
  change (LA (write_resyncedTokens e toks q3) 1) with (LA q3 1).
  rewrite Hend. rewrite andb_false_r. reflexivity.
Qed.

(** C1: with recovery enabled, whatever the body of a rule invoked on an
    empty rule stack does, no recognition exception leaves the invocation:
    a recognition exception of the body is caught, the re-sync token class
    found is EOF, the input is skipped up to the end of input, the recovery
    value of the rule is returned, and the exception (with the skipped
    tokens written into it) is in [errors], as is every error recorded
    before. *)
Theorem top_rule_never_throws_recognition (fuel : nat) (name : string)
  (impl : list JsValue -> M JsValue) (config : IRuleConfig) (idx : Z)
  (args : list JsValue) (p : Parser) (r2 : Res JsValue) (q2 : Parser) :
  recoveryEnabled p = true ->
  RULE_STACK p = [] ->
  idx_ok p ->
  disciplined (impl args) ->
  (length (_input p) + 2 <= fuel)%nat ->
  impl args (ruleInvocationStateUpdate name idx p) = (r2, q2) ->
  r2 <> OutOfFuel ->
  exists r q,
    wrappedGrammarRule C fuel name impl config idx args p = (r, q) /\
    r <> OutOfFuel /\
    (forall e, r <> Throw (Recognition e)) /\
    (forall x, x ∈ errors q2 ->
       exists toks, set_resyncedTokens x toks ∈ errors q) /\
    (forall e, r2 = Throw (Recognition e) ->
       findReSyncTokenType C fuel q2 = Ret EOF /\
       r = Ret (recoveryValue config) /\
       isAtEndOfInput q = true /\
       exists toks, set_resyncedTokens e toks ∈ errors q).
Proof.
  intros _ Hrs Hidx Himpl Hfuel Hrun Hr2.
  destruct (top_body_state name idx impl args p r2 q2 Hrs Hidx Himpl Hrun Hr2)
    as (s1 & s2 & s3 & s4 & s5 & s6).
  assert (Hcases : (exists e, r2 = Throw (Recognition e)) \/
                   (forall e, r2 <> Throw (Recognition e))).
  { destruct r2 as [v | [e | m | m] |];
      first [left; eexists; reflexivity | right; intros e'; discriminate]. }
  destruct Hcases as [[e ->] | Hnr].
  - destruct (top_rule_recovers fuel name impl config idx args p e q2
                Hrs Hidx Himpl Hfuel Hrun)
      as (toks & q3 & Hfind & Hset & Hsync & Hres & Hend & Hw).
    destruct (resynced_frame q2 q3 Hres) as (_ & _ & He & _).
    eexists _, _. split; [exact Hw |]. split; [discriminate |].
    split; [intros e'; discriminate |]. split; [| intros e' [= <-]].
    + intros x Hx. cbn [errors exit_stacks set_RULE_STACK
                        set_RULE_OCCURRENCE_STACK].
      apply write_resyncedTokens_keeps. rewrite He. exact Hx.
    + split; [exact Hfind |]. split; [reflexivity |]. split; [exact Hend |].
      exists toks. apply (write_resyncedTokens_In e toks q3).
      rewrite He. apply s6. reflexivity.
  - destruct (top_rule_returns fuel name impl config idx args p r2 q2
                Hrs Hidx Himpl Hrun Hr2 Hnr) as (t & Ht & Hw).
    eexists _, _. split; [exact Hw |]. split; [exact Hr2 |].
    split; [exact Hnr |]. split; [| intros e ->; exfalso; exact (Hnr e eq_refl)].
    intros x Hx. exists (resyncedTokens x). rewrite set_resyncedTokens_same.
    destruct (negb (instanceOf (Some t) EOF)); cbn; [| exact Hx].
    apply elem_of_app. left. exact Hx.
Qed.

(** C2 (as amended): with recovery disabled, when the input does not match
    the grammar (the body of the first invoked rule raises a recognition
    exception, or returns before the end of the input), the parse stops at
    the first error: no recognition exception leaves the invocation of the
    first rule, a raised one is caught there and answered by a re-sync to
    the end of input and the recovery value, and afterwards [errors] holds
    exactly one error. *)
Theorem no_recovery_single_error (fuel : nat) (name : string)
  (impl : list JsValue -> M JsValue) (config : IRuleConfig) (idx : Z)
  (args : list JsValue) (p : Parser) (r2 : Res JsValue) (q2 : Parser) :
  recoveryEnabled p = false ->
  RULE_STACK p = [] ->
  errors p = [] ->
  idx_ok p ->
  disciplined (impl args) ->
  halts_on_first_error (impl args) ->
  (length (_input p) + 2 <= fuel)%nat ->
  impl args (ruleInvocationStateUpdate name idx p) = (r2, q2) ->
  match r2 with
  | Ret _ => isAtEndOfInput q2 = false
  | Throw (Recognition _) => True
  | _ => False
  end ->
  exists r q,
    wrappedGrammarRule C fuel name impl config idx args p = (r, q) /\
    (forall e, r <> Throw (Recognition e)) /\
    length (errors q) = 1%nat /\
    (forall e, r2 = Throw (Recognition e) ->
       r = Ret (recoveryValue config) /\
       exists toks, errors q = [set_resyncedTokens e toks]) /\
    (forall v, r2 = Ret v ->
       r = Ret v /\
       exists x, errors q = [x] /\ excKind x = NotAllInputParsedException).
Proof.
  intros Hrec Hrs Herr Hidx Himpl Hhalt Hfuel Hrun Hbad.
  assert (Hr2 : r2 <> OutOfFuel) by (intros ->; exact Hbad).
  destruct (top_body_state name idx impl args p r2 q2 Hrs Hidx Himpl Hrun Hr2)
    as (s1 & s2 & s3 & s4 & s5 & s6).
  assert (Hne : push (RULE_STACK p) name <> []).
  { rewrite Hrs. discriminate. }
  pose proof (Hhalt (ruleInvocationStateUpdate name idx p) r2 q2 Hrec Hne Hrun)
    as Hh.
  change (errors (ruleInvocationStateUpdate name idx p)) with (errors p) in Hh.
  rewrite Herr in Hh.
  destruct r2 as [v | [e | m | m] |]; try contradiction.
  - destruct (top_rule_returns fuel name impl config idx args p (Ret v) q2
                Hrs Hidx Himpl Hrun Hr2) as (t & Ht & Hw);
      [intros e; discriminate |].
    unfold isAtEndOfInput in Hbad. rewrite Ht in Hbad. rewrite Hbad in Hw.
    cbn [negb] in Hw.
    eexists _, _. split; [exact Hw |].
    split; [intros e; discriminate |]. cbn [errors set_errors].
    rewrite Hh. split; [reflexivity |]. split; [intros e [=] |].
    intros v' [= <-]. split; [reflexivity |].
    eexists. split; reflexivity.
  - destruct (top_rule_recovers fuel name impl config idx args p e q2
                Hrs Hidx Himpl Hfuel Hrun)
      as (toks & q3 & Hfind & Hset & Hsync & Hres & Hend & Hw).
    destruct (resynced_frame q2 q3 Hres) as (_ & _ & He & _).
    eexists _, _. split; [exact Hw |].
    split; [intros e'; discriminate |].
    cbn [errors exit_stacks set_RULE_STACK set_RULE_OCCURRENCE_STACK
         write_resyncedTokens set_errors].
    rewrite He, Hh. cbn [app map].
    rewrite bool_decide_eq_true_2 by reflexivity.
    split; [reflexivity |]. split; [| intros v [=]].
    intros e' [= <-]. split; [reflexivity |]. exists toks. reflexivity.
Qed.

(** A nested rule with recovery disabled hands the first error on to its
    caller. *)
Lemma wrappedGrammarRule_halts (fuel : nat) (name : string)
  (impl : list JsValue -> M JsValue) (config : IRuleConfig) (idx : Z)
  (args : list JsValue) :
  disciplined (impl args) -> halts_on_first_error (impl args) ->
  halts_on_first_error (wrappedGrammarRule C fuel name impl config idx args).
Proof.
  intros Himpl Hhalt p r q Hrec Hrs Hrun.
  destruct (ruleInvocationStateUpdate_frame name idx p)
    as (g1 & g2 & g3 & g4 & g5 & g6 & g7).
  set (p1 := ruleInvocationStateUpdate name idx p) in *.
  destruct (impl args p1) as [r2 q2] eqn:Eimpl.
  assert (Hne1 : RULE_STACK p1 <> []).
  { rewrite g1. unfold push. destruct (RULE_STACK p); discriminate. }
  assert (Hrec1 : recoveryEnabled p1 = false) by (rewrite g4; exact Hrec).
  pose proof (Hhalt p1 r2 q2 Hrec1 Hne1 Eimpl) as Hh. rewrite g7 in Hh.
  destruct (classic_OutOfFuel r2) as [-> | Hr2].
  { unfold wrappedGrammarRule, try_finally, wrappedGrammarRule_try_catch
      in Hrun. fold p1 in Hrun. rewrite Eimpl in Hrun.
    injection Hrun as <- <-. exact I. }
  destruct (Himpl p1 r2 q2 Eimpl Hr2) as ((f1 & f2 & f3 & f4 & f5) & Hi & Hs).
  assert (Etc : wrappedGrammarRule_try_catch C fuel impl config args p1
                = (r2, q2)).
  { unfold wrappedGrammarRule_try_catch. rewrite Eimpl.
    destruct r2 as [v | [e | m | m] |]; try reflexivity.
    rewrite f4, Hrec1, andb_false_r, orb_false_r.
    assert (Hlen : (js_length (RULE_STACK q2) =? 1) = false).
    { apply Z.eqb_neq. rewrite f1, g1. unfold js_length, push.
      rewrite length_app. destruct (RULE_STACK p); [congruence |].
      cbn [length]. lia. }
    rewrite Hlen. reflexivity. }
  rewrite (wrappedGrammarRule_eq C _ _ _ _ _ _ _ _ _ Etc Hr2) in Hrun.
  rewrite ruleFinallyStateUpdate_eq in Hrun.
  assert (Hpop : pop (RULE_STACK q2) = RULE_STACK p)
    by (rewrite f1, g1; apply pop_push).
  rewrite Hpop in Hrun. rewrite bool_decide_eq_false_2 in Hrun by exact Hrs.
  cbn [andb] in Hrun. injection Hrun as <- <-.
  destruct r2 as [v | [e | m | m] |]; try exact I; exact Hh.
Qed.

End TopRuleFacts.

(** ** Backtracking *)

Lemma disciplined_keeps_backtracking_stack {A : Type} (m : M A) :
  disciplined m -> keeps_backtracking_stack m.
Proof.
  intros Hm p r q Hrun Hr.
  destruct (Hm p r q Hrun Hr) as ((_ & _ & f3 & _) & _). exact f3.
Qed.

(** The function returned by [BACKTRACK], unfolded: the outcome of the
    [try] and [catch] blocks, then the restored state. *)
Lemma BACKTRACK_eq (grammarRule : M JsValue) (isValid : JsValue -> M bool)
  (p : Parser) :
  let p0 := set_isBackTrackingStack p (push (isBackTrackingStack p) 1) in
  BACKTRACK grammarRule isValid p =
    match (ruleResult <- grammarRule ;; isValid ruleResult) p0 with
    | (OutOfFuel, q) => (OutOfFuel, q)
    | (r, q) =>
        (match r with
         | Throw e => if isRecognitionException e then Ret false else Throw e
         | _ => r
         end,
         set_isBackTrackingStack (reloadRecogState (saveRecogState p0) q)
           (pop (isBackTrackingStack q)))
    end.
Proof.
  intros p0. unfold BACKTRACK, try_finally. fold p0.
  destruct ((ruleResult <- grammarRule ;; isValid ruleResult) p0)
    as [[b | e |] q]; try reflexivity.
  destruct (isRecognitionException e); reflexivity.
Qed.

(** C7: on every way out (valid result, invalid result, recognition
    exception, other exception) the function returned by [BACKTRACK] has
    reloaded the saved errors, input index and rule stack and popped its
    marker, so that the backtracking stack and the input index are those
    of before the call; it answers [false] to a recognition exception and
    lets any other exception through unchanged. *)
Theorem backtrack_restores (grammarRule : M JsValue)
  (isValid : JsValue -> M bool) (p : Parser) (r : Res bool) (q : Parser) :
  keeps_backtracking_stack grammarRule ->
  (forall v, keeps_backtracking_stack (isValid v)) ->
  BACKTRACK grammarRule isValid p = (r, q) ->
  r <> OutOfFuel ->
  let p0 := set_isBackTrackingStack p (push (isBackTrackingStack p) 1) in
  errors q = errors p /\
  inputIdx q = inputIdx p /\
  RULE_STACK q = RULE_STACK p /\
  isBackTrackingStack q = isBackTrackingStack p /\
  (forall v p1 b p2,
     grammarRule p0 = (Ret v, p1) -> isValid v p1 = (Ret b, p2) ->
     r = Ret b) /\
  (forall e p1,
     grammarRule p0 = (Throw (Recognition e), p1) -> r = Ret false) /\
  (forall v p1 e p2,
     grammarRule p0 = (Ret v, p1) ->
     isValid v p1 = (Throw (Recognition e), p2) -> r = Ret false) /\
  (forall e p1,
     grammarRule p0 = (Throw e, p1) -> isRecognitionException e = false ->
     r = Throw e) /\
  (forall v p1 e p2,
     grammarRule p0 = (Ret v, p1) -> isValid v p1 = (Throw e, p2) ->
     isRecognitionException e = false -> r = Throw e).
Proof.
  intros Hrule Hvalid Hrun Hr p0. rewrite BACKTRACK_eq in Hrun. fold p0 in Hrun.
  unfold bind in *.
  destruct (grammarRule p0) as [r1 p1] eqn:Erule.
  assert (Hstack : forall rb qb,
            match r1 with
            | Ret a => isValid a p1
            | Throw e => (Throw e, p1)
            | OutOfFuel => (OutOfFuel, p1)
            end = (rb, qb) -> rb <> OutOfFuel ->
            pop (isBackTrackingStack qb) = isBackTrackingStack p).
  { intros rb qb Hb Hrb.
    assert (H1 : r1 <> OutOfFuel) by (intros ->; injection Hb as <- _; auto).
    pose proof (Hrule p0 r1 p1 Erule H1) as Hk1.
    assert (Hkb : isBackTrackingStack qb = isBackTrackingStack p0).
    { destruct r1 as [a | e |].
      - rewrite (Hvalid a p1 rb qb Hb Hrb). exact Hk1.
      - injection Hb as _ <-. exact Hk1.
      - congruence. }
    rewrite Hkb. apply pop_push. }
  destruct (match r1 with
            | Ret a => isValid a p1
            | Throw e => (Throw e, p1)
            | OutOfFuel => (OutOfFuel, p1)
            end) as [rb qb] eqn:Ebody.
  assert (Hrb : rb <> OutOfFuel).
  { intros ->. injection Hrun as <- _. auto. }
  pose proof (Hstack rb qb eq_refl Hrb) as Hpop.
  assert (Hq : q = set_isBackTrackingStack
                     (reloadRecogState (saveRecogState p0) qb)
                     (pop (isBackTrackingStack qb)) /\
               r = match rb with
                   | Throw e =>
                       if isRecognitionException e then Ret false else Throw e
                   | _ => rb
                   end).
  { destruct rb as [b | e |]; [| | congruence];
      injection Hrun as <- <-; split; reflexivity. }
  destruct Hq as [-> ->].
  split; [reflexivity |]. split; [reflexivity |]. split; [reflexivity |].
  split; [exact Hpop |].
  repeat split.
  - intros v p1' b p2 [= -> ->] Hv. rewrite Hv in Ebody.
    injection Ebody as <- _. reflexivity.
  - intros e p1' [= -> ->]. injection Ebody as <- _. reflexivity.
  - intros v p1' e p2 [= -> ->] Hv. rewrite Hv in Ebody.
    injection Ebody as <- _. reflexivity.
  - intros e p1' [= -> ->] He. injection Ebody as <- _. rewrite He.
    reflexivity.
  - intros v p1' e p2 [= -> ->] Hv He. rewrite Hv in Ebody.
    injection Ebody as <- _. rewrite He. reflexivity.
Qed.

(** [BACKTRACK] is itself a disciplined action, and it never raises a
    recognition exception nor leaves an error behind. *)
Lemma BACKTRACK_disciplined (grammarRule : M JsValue)
  (isValid : JsValue -> M bool) :
  disciplined grammarRule -> (forall v, disciplined (isValid v)) ->
  disciplined (BACKTRACK grammarRule isValid).
Proof.
  intros Hrule Hvalid p r q Hrun Hr. rewrite BACKTRACK_eq in Hrun.
  set (p0 := set_isBackTrackingStack p (push (isBackTrackingStack p) 1)) in *.
  destruct ((ruleResult <- grammarRule ;; isValid ruleResult) p0)
    as [rb qb] eqn:Ebody.
  assert (Hrb : rb <> OutOfFuel).
  { intros ->. injection Hrun as <- _. auto. }
  destruct (bind_disciplined _ _ Hrule Hvalid p0 rb qb Ebody Hrb)
    as ((f1 & f2 & f3 & f4 & f5) & _ & _).
  assert (Hq : q = set_isBackTrackingStack
                     (reloadRecogState (saveRecogState p0) qb)
                     (pop (isBackTrackingStack qb))).
  { destruct rb as [b | e |]; [| | congruence];
      injection Hrun as _ <-; reflexivity. }
  assert (Hres : forall e, r <> Throw (Recognition e)).
  { intros e0 ->. destruct rb as [b | e |]; [| | congruence].
    - injection Hrun as Hx _. discriminate Hx.
    - injection Hrun as Hx _. destruct e; cbn in Hx; discriminate Hx. }
  subst q. split; [| split].
  - unfold same_frame.
    cbn [RULE_STACK RULE_OCCURRENCE_STACK isBackTrackingStack recoveryEnabled
         _input set_isBackTrackingStack reloadRecogState set_RULE_STACK
         set_inputIdx set_errors saveRecogState st_RULE_STACK].
    rewrite f2, f3, f4, f5. cbn [isBackTrackingStack set_isBackTrackingStack p0].
    rewrite pop_push. repeat split.
  - unfold idx_ok. cbn. auto.
  - intros e He. exfalso. exact (Hres e He).
Qed.

Lemma BACKTRACK_halts (grammarRule : M JsValue)
  (isValid : JsValue -> M bool) :
  halts_on_first_error (BACKTRACK grammarRule isValid).
Proof.
  intros p r q _ _ Hrun. rewrite BACKTRACK_eq in Hrun.
  destruct ((ruleResult <- grammarRule ;; isValid ruleResult)
              (set_isBackTrackingStack p (push (isBackTrackingStack p) 1)))
    as [[b | e |] qb].
  - injection Hrun as <- <-. reflexivity.
  - injection Hrun as <- <-.
    destruct e; cbn [isRecognitionException]; try exact I. reflexivity.
  - injection Hrun as <- <-. exact I.
Qed.

(** ** The same rule on concrete parsers *)

(** The discipline of a rule body follows its text. *)
Create HintDb discipline.

#[local] Hint Resolve ret_disciplined bind_disciplined
  consumeInternal_disciplined wrappedGrammarRule_disciplined
  BACKTRACK_disciplined orInternal_disciplined optionInternal_disciplined
  manyInternal_disciplined atLeastOneInternal_disciplined
  manySepFirstInternal_disciplined atLeastOneSepFirstInternal_disciplined
  ret_halts bind_halts consumeInternal_halts wrappedGrammarRule_halts
  BACKTRACK_halts orInternal_halts optionInternal_halts manyInternal_halts
  atLeastOneInternal_halts manySepFirstInternal_halts
  atLeastOneSepFirstInternal_halts : discipline.

Lemma sample_rule_disciplined (C : ParserClass) (args : list JsValue) :
  disciplined (sample_rule C args).
Proof. unfold sample_rule, CONSUME, CONSUME1. auto with discipline. Qed.

Lemma sample_rule_halts (C : ParserClass) (args : list JsValue) :
  halts_on_first_error (sample_rule C args).
Proof. unfold sample_rule, CONSUME, CONSUME1. auto with discipline. Qed.

Lemma item_rule_disciplined (C : ParserClass) (fuel : nat) (idx : Z)
  (args : list JsValue) :
  disciplined (item_rule C fuel idx args).
Proof.
  unfold item_rule. auto using sample_rule_disciplined with discipline.
Qed.

Lemma list_rule_disciplined (C : ParserClass) (fuel : nat)
  (args : list JsValue) :
  disciplined (list_rule C fuel args).
Proof.
  unfold list_rule, SUBRULE, SUBRULE1, SUBRULE2, MANY, MANY1, CONSUME, CONSUME1.
  auto 8 using item_rule_disciplined with discipline.
Qed.

(** [a , a] is a list: no error. *)
Example list_rule_accepts :
  let C0 := sample_class [] in
  let p := new_Parser [mkToken TokA "a" 0 1 false;
                       mkToken TokComma "," 1 2 false;
                       mkToken TokA "a" 2 3 false] true in
  let out := wrappedGrammarRule C0 10 "list" (list_rule C0 10)
               DEFAULT_RULE_CONFIG 1 [] p in
  fst out = Ret JsUndefined /\ errors (snd out) = [] /\
  inputIdx (snd out) = 2 /\ RULE_STACK (snd out) = [].
Proof. vm_compute. repeat split. Qed.

(** [a , b] is not: the exception of the second item passes its own
    wrapper, whose follow set does not hold the re-sync token class, and
    is caught by the wrapper of the first invoked rule. *)
Example list_rule_recovers :
  let C0 := sample_class [] in
  let p := new_Parser [mkToken TokA "a" 0 1 false;
                       mkToken TokComma "," 1 2 false;
                       mkToken TokB "b" 2 3 false] true in
  let out := wrappedGrammarRule C0 10 "list" (list_rule C0 10)
               DEFAULT_RULE_CONFIG 1 [] p in
  fst out = Ret JsUndefined /\
  map excKind (errors (snd out)) = [MismatchedTokenException] /\
  map resyncedTokens (errors (snd out)) = [[]] /\
  isAtEndOfInput (snd out) = true /\ RULE_STACK (snd out) = [].
Proof. vm_compute. repeat split. Qed.

Lemma top_rule_never_throws_recognition_witness :
  let C0 := sample_class [] in
  let p := new_Parser [mkToken TokA "a" 0 1 false;
                       mkToken TokComma "," 1 2 false;
                       mkToken TokB "b" 2 3 false] true in
  exists r q,
    wrappedGrammarRule C0 10 "list" (list_rule C0 10) DEFAULT_RULE_CONFIG 1 [] p
      = (r, q) /\
    (forall e, r <> Throw (Recognition e)).
Proof.
  intros C0 p.
  destruct (top_rule_never_throws_recognition C0 10 "list" (list_rule C0 10)
              DEFAULT_RULE_CONFIG 1 [] p
              (fst (list_rule C0 10 [] (ruleInvocationStateUpdate "list" 1 p)))
              (snd (list_rule C0 10 [] (ruleInvocationStateUpdate "list" 1 p))))
    as (r & q & Hrun & _ & Hnr & _).
  - reflexivity.
  - reflexivity.
  - unfold idx_ok. simpl. lia.
  - apply list_rule_disciplined.
  - simpl. lia.
  - apply surjective_pairing.
  - vm_compute. discriminate.
  - exists r, q. split; [exact Hrun | exact Hnr].
Defined.

(** C2 as stated fails: recovery is disabled, the input [b] does not match
    the rule that consumes an A, and the invocation of the rule returns
    the recovery value instead of raising the exception; one error is
    recorded. *)
Lemma no_recovery_top_rule_returns :
  let C0 := sample_class [] in
  let p := new_Parser [mkToken TokB "b" 0 1 false] false in
  let out :=
    wrappedGrammarRule C0 10 "top" (sample_rule C0) DEFAULT_RULE_CONFIG 1 [] p
  in
  recoveryEnabled p = false /\
  (exists e, fst (sample_rule C0 [] (ruleInvocationStateUpdate "top" 1 p))
             = Throw (Recognition e)) /\
  fst out = Ret JsUndefined /\
  (forall e, fst out <> Throw (Recognition e)) /\
  length (errors (snd out)) = 1%nat.
Proof.
  intros C0 p out.
  assert (Hout : fst out = Ret JsUndefined) by (vm_compute; reflexivity).
  split; [reflexivity |]. split; [eexists; vm_compute; reflexivity |].
  split; [exact Hout |]. split; [| vm_compute; reflexivity].
  intros e. rewrite Hout. discriminate.
Qed.

Lemma no_recovery_single_error_witness :
  let C0 := sample_class [] in
  let p := new_Parser [mkToken TokB "b" 0 1 false] false in
  exists r q,
    wrappedGrammarRule C0 10 "top" (sample_rule C0) DEFAULT_RULE_CONFIG 1 [] p
      = (r, q) /\
    (forall e, r <> Throw (Recognition e)) /\
    length (errors q) = 1%nat.
Proof.
  intros C0 p.
  destruct (no_recovery_single_error C0 10 "top" (sample_rule C0)
              DEFAULT_RULE_CONFIG 1 [] p
              (fst (sample_rule C0 [] (ruleInvocationStateUpdate "top" 1 p)))
              (snd (sample_rule C0 [] (ruleInvocationStateUpdate "top" 1 p))))
    as (r & q & Hrun & Hnr & Hlen & _).
  - reflexivity.
  - reflexivity.
  - reflexivity.
  - unfold idx_ok. simpl. lia.
  - apply sample_rule_disciplined.
  - apply sample_rule_halts.
  - simpl. lia.
  - apply surjective_pairing.
  - vm_compute. exact I.
  - exists r, q. split; [exact Hrun | split; [exact Hnr | exact Hlen]].
Defined.

Lemma rule_exit_path_witness :
  let C0 := sample_class [] in
  let ta := mkToken TokA "a" 0 1 false in
  let tb := mkToken TokB "b" 1 2 false in
  let p := new_Parser [ta; tb] false in
  exists q x,
    wrappedGrammarRule C0 10 "top" (sample_rule C0) DEFAULT_RULE_CONFIG 1 [] p
      = (Ret (JsTok (Some ta)), q) /\
    RULE_STACK q = [] /\ RULE_OCCURRENCE_STACK q = [] /\
    errors q = [x] /\ excKind x = NotAllInputParsedException /\
    token x = Some tb.
Proof.
  intros C0 ta tb p.
  destruct (rule_exit_path C0 10 "top" (sample_rule C0) DEFAULT_RULE_CONFIG
              1 [] p (Ret (JsTok (Some ta)))
              (set_inputIdx (ruleInvocationStateUpdate "top" 1 p) 0))
    as (t & q & Ht & Hfin & Hrun & _ & _ & _ & _ & Hrs & Hocc & Hyes & _).
  - apply sample_rule_disciplined.
  - unfold idx_ok. simpl. lia.
  - reflexivity.
  - discriminate.
  - assert (Htb : Some t = Some tb) by (rewrite <- Ht; reflexivity).
    injection Htb as ->.
    destruct Hyes as (Herr & Hk & Htok).
    + split; [exact Hrs | reflexivity].
    + exists q, (redundant_input_exception tb
                   (set_inputIdx (ruleInvocationStateUpdate "top" 1 p) 0)).
      repeat split; assumption.
Defined.

Lemma backtrack_restores_witness :
  let C0 := sample_class [] in
  let p := mkParser [] true [mkToken TokB "b" 0 1 false] (-1) [] ["top"] [1]
             None 0 in
  let rule := wrappedGrammarRule C0 10 "sub" (sample_rule C0)
                DEFAULT_RULE_CONFIG 1 [] in
  let out := BACKTRACK rule (fun _ => ret true) p in
  fst out = Ret false /\
  errors (snd out) = errors p /\ inputIdx (snd out) = inputIdx p /\
  RULE_STACK (snd out) = RULE_STACK p /\
  isBackTrackingStack (snd out) = isBackTrackingStack p.
Proof.
  intros C0 p rule out.
  destruct (backtrack_restores rule (fun _ => ret true) p (fst out) (snd out))
    as (He & Hi & Hs & Hb & _).
  - apply disciplined_keeps_backtracking_stack.
    apply wrappedGrammarRule_disciplined. apply sample_rule_disciplined.
  - intros v. apply disciplined_keeps_backtracking_stack.
    apply ret_disciplined.
  - apply surjective_pairing.
  - vm_compute. discriminate.
  - split; [vm_compute; reflexivity |]. repeat split; assumption.
Defined.

(** ** Cloning a production *)

Module gast_facts.

Import gast.

(** Induction over a production and all the productions below it. *)
Lemma IProduction_ind_nested (P : IProduction -> Prop) :
  (forall node, Forall P (definition_of node) -> P node) ->
  forall node, P node.
Proof.
  intros Hstep. fix IH 1. intros node. apply Hstep.
  destruct node as [o name d t | o d | o name r occ | o ty occ | o d occ
                   | o d occ | o d occ | o d sep occ | o d sep occ | o d occ];
    cbn [definition_of]; try (constructor; fail);
    induction d as [| x xs IHxs];
    constructor; first [apply IH | exact IHxs].
Qed.

(** The equations of [visit]. *)
Lemma visit_Rule o name d orgText next :
  visit (Rule o name d orgText) next =
    let '(definition, next) := visit_each d next in
    (Rule next name definition orgText, S next).
Proof. reflexivity. Qed.

Lemma visit_Flat o d next :
  visit (Flat o d) next =
    let '(definition, next) := visit_each d next in
    (Flat next definition, S next).
Proof. reflexivity. Qed.

Lemma visit_Option o d occ next :
  visit (Option o d occ) next =
    let '(definition, next) := visit_each d next in
    (Option next definition occ, S next).
Proof. reflexivity. Qed.

Lemma visit_Repetition o d occ next :
  visit (Repetition o d occ) next =
    let '(definition, next) := visit_each d next in
    (Repetition next definition occ, S next).
Proof. reflexivity. Qed.

Lemma visit_RepetitionMandatory o d occ next :
  visit (RepetitionMandatory o d occ) next =
    let '(definition, next) := visit_each d next in
    (RepetitionMandatory next definition occ, S next).
Proof. reflexivity. Qed.

Lemma visit_RepetitionMandatoryWithSeparator o d sep occ next :
  visit (RepetitionMandatoryWithSeparator o d sep occ) next =
    let '(definition, next) := visit_each d next in
    (RepetitionMandatoryWithSeparator next definition sep occ, S next).
Proof. reflexivity. Qed.

Lemma visit_RepetitionWithSeparator o d sep occ next :
  visit (RepetitionWithSeparator o d sep occ) next =
    let '(definition, next) := visit_each d next in
    (RepetitionWithSeparator next definition sep occ, S next).
Proof. reflexivity. Qed.

Lemma visit_Alternation o d occ next :
  visit (Alternation o d occ) next =
    let '(definition, next) := visit_each d next in
    (Alternation next definition occ, S next).
Proof. reflexivity. Qed.

Ltac visit_equations :=
  rewrite ?visit_Rule, ?visit_Flat, ?visit_Option, ?visit_Repetition,
    ?visit_RepetitionMandatory, ?visit_RepetitionMandatoryWithSeparator,
    ?visit_RepetitionWithSeparator, ?visit_Alternation.

Lemma visit_each_copies (d : list IProduction) :
  Forall copies d ->
  forall next,
    let '(definition, next') := visit_each d next in
    map structure definition = map structure d /\
    forallb references_unset definition = true /\
    (next <= next')%nat /\
    Forall (fun o => (next <= o < next')%nat) (flat_map oids definition).
Proof.
  induction 1 as [| x xs Hx Hxs IH]; intros next; cbn [visit_each].
  - repeat split; [lia | constructor].
  - specialize (Hx next). destruct (visit x next) as [x' n1].
    destruct Hx as (Hs & Hr & Hle & Hin).
    specialize (IH n1). destruct (visit_each xs n1) as [xs' n2].
    destruct IH as (Hs' & Hr' & Hle' & Hin').
    cbn [map forallb flat_map]. rewrite Hs, Hs', Hr, Hr'.
    repeat split; [lia |]. apply Forall_app. split.
    + eapply Forall_impl; [exact Hin |]. cbn. intros o Ho. lia.
    + eapply Forall_impl; [exact Hin' |]. cbn. intros o Ho. lia.
Qed.

Lemma visit_copies (node : IProduction) : copies node.
Proof.
  induction node as [node IH] using IProduction_ind_nested.
  intros next.
  destruct node as [o name d t | o d | o name r occ | o ty occ | o d occ
                   | o d occ | o d occ | o d sep occ | o d sep occ | o d occ];
    cbn [definition_of] in IH;
    try (cbn; repeat split; [lia | repeat constructor; lia]).
  all: visit_equations;
    pose proof (visit_each_copies d IH next) as Hd;
    destruct (visit_each d next) as [d' n'];
    destruct Hd as (Hs & Hr & Hle & Hin);
    cbn [structure references_unset oids]; rewrite Hs, Hr;
    (repeat split; [lia |]);
    (constructor; [lia |]);
    (eapply Forall_impl; [exact Hin |]); cbn; intros x Hx; lia.
Qed.

(** C9: the clone of a production has the structure of the original (same
    variants in the same order with the same names, token classes,
    separators and occurrence indices), none of its non terminals holds a
    rule reference, and all its node objects are new: none is a node
    object of the original. *)
Theorem cloneProduction_deep_copy (prod : IProduction) (next : nat) :
  Forall (fun o => (o < next)%nat) (oids prod) ->
  let clone := fst (cloneProduction prod next) in
  structure clone = structure prod /\
  references_unset clone = true /\
  (forall o, o ∈ oids clone -> o ∉ oids prod).
Proof.
  intros Hold clone. unfold clone, cloneProduction.
  pose proof (visit_copies prod next) as H.
  destruct (visit prod next) as [c n']. destruct H as (Hs & Hr & Hle & Hin).
  cbn [fst]. split; [exact Hs |]. split; [exact Hr |].
  intros o Ho Ho'.
  rewrite Forall_forall in Hold, Hin.
  specialize (Hold o Ho'). specialize (Hin o Ho). lia.
Qed.

(** What the visitor does on a non terminal: the name and the occurrence
    are copied, the rule reference is not. *)
Lemma visitNonTerminal_eq o name r occ next :
  visit (NonTerminal o name r occ) next
    = (NonTerminal next name None occ, S next).
Proof. reflexivity. Qed.

Lemma cloneProduction_deep_copy_witness :
  let A := Extends "A" TokenRoot in
  let prod :=
    Rule 0 "top"
      [Flat 1 [Terminal 2 A 1; NonTerminal 3 "sub" (Some 9%nat) 1];
       RepetitionWithSeparator 4 [Terminal 5 A 2] A 1] "text" in
  let clone := fst (cloneProduction prod 10) in
  structure clone = structure prod /\
  references_unset clone = true /\
  (forall o, o ∈ oids clone -> o ∉ oids prod).
Proof.
  intros A prod clone.
  apply (cloneProduction_deep_copy prod 10).
  repeat (constructor; [lia |]). constructor.
Defined.

End gast_facts.

(** ** Self analysis runs once per class *)

Module analysis_facts.

Import gast analysis.

Section SelfAnalysisFacts.

Variable resolveGrammar :
  HashTable IProduction -> HashTable IProduction * list IParserDefinitionError.
Variable validateGrammar :
  list IProduction -> Z -> IgnoredParserIssues -> list IParserDefinitionError.
Variable computeAllProdsFollows :
  list IProduction -> HashTable (list TokClass).

Abbreviation run := (performSelfAnalysis resolveGrammar validateGrammar
                       computeAllProdsFollows).

(** The calls of a log. *)
Ltac in_calls := solve [repeat constructor].

Ltac not_in_calls H :=
  repeat (apply elem_of_cons in H as [H | H]; [discriminate H |]);
  apply elem_of_nil in H; contradiction.

Ltac analysis_goals :=
  repeat split; try reflexivity; try congruence;
  try (eexists; reflexivity);
  try match goal with
      | |- _ ∈ _ -> _ => let H := fresh in intros H; not_in_calls H
      | |- _ -> _ ∈ _ => intros _; in_calls
      end.

Lemma isEmpty_true {A : Type} (l : list A) : isEmpty l = true <-> l = [].
Proof. destruct l; cbn; split; congruence. Qed.

(** A construction after the analysis of the class was done reads the
    cache only. *)
Lemma performSelfAnalysis_done (inst : ParserInstance) (w : World)
  (errs : list IParserDefinitionError) :
  className inst <> EmptyString ->
  is_Some (CLASS_TO_SELF_ANALYSIS_DONE w !! className inst) ->
  CLASS_TO_DEFINITION_ERRORS w !! className inst = Some errs ->
  run inst w =
    (if negb (isEmpty errs) && negb (DEFER_DEFINITION_ERRORS_HANDLING w)
     then Throw (definition_errors_detected errs) else Ret tt, w).
Proof.
  intros Hname Hdone Herrs. unfold performSelfAnalysis.
  rewrite bool_decide_eq_false_2 by exact Hname.
  rewrite bool_decide_eq_true_2 by exact Hdone. cbn [negb].
  rewrite Herrs.
  destruct (negb (isEmpty errs) && negb (DEFER_DEFINITION_ERRORS_HANDLING w));
    reflexivity.
Qed.

(** The first run of the analysis of a class. *)
Lemma performSelfAnalysis_first (inst : ParserInstance) (w : World)
  (errs0 : list IParserDefinitionError) :
  className inst <> EmptyString ->
  CLASS_TO_SELF_ANALYSIS_DONE w !! className inst = None ->
  CLASS_TO_DEFINITION_ERRORS w !! className inst = Some errs0 ->
  let resolverErrors := resolver_errors resolveGrammar inst w in
  let validationErrors :=
    validation_errors resolveGrammar validateGrammar inst w in
  let total :=
    errs0 ++ resolverErrors ++
    (if isEmpty resolverErrors then validationErrors else []) in
  let defer := DEFER_DEFINITION_ERRORS_HANDLING w in
  exists r1 w1 new,
    run inst w = (r1, w1) /\
    calls w1 = calls w ++ new /\
    (CallValidateGrammar ∈ new <-> resolverErrors = []) /\
    (CallComputeAllProdsFollows ∈ new <-> total = []) /\
    (total <> [] ->
       CLASS_TO_RESYNC_FOLLOW_SETS w1 = CLASS_TO_RESYNC_FOLLOW_SETS w) /\
    (total = [] ->
       CLASS_TO_RESYNC_FOLLOW_SETS w1 !! className inst =
         Some (computeAllProdsFollows
                 (ht_values (resolved_productions resolveGrammar inst w)))) /\
    CLASS_TO_DEFINITION_ERRORS w1 !! className inst = Some total /\
    r1 = (if negb (isEmpty total) && negb defer
          then Throw (definition_errors_detected total) else Ret tt) /\
    is_Some (CLASS_TO_SELF_ANALYSIS_DONE w1 !! className inst) /\
    DEFER_DEFINITION_ERRORS_HANDLING w1 = defer.
Proof.
  intros Hname Hfirst Herrs resolverErrors validationErrors total defer.
  unfold resolver_errors, validation_errors, resolved_productions in *.
  unfold performSelfAnalysis, analyse_once.
  rewrite bool_decide_eq_false_2 by exact Hname.
  rewrite Hfirst.
  rewrite bool_decide_eq_false_2 by (intros [x Hx]; discriminate).
  cbn [negb].
  cbn [nextOid set_done _productions CLASS_TO_DEFINITION_ERRORS set_nextOid].
  subst resolverErrors validationErrors total defer.
  destruct (clone_productions (_productions inst) (nextOid w))
    as [cloned next].
  cbn [fst]. rewrite Herrs.
  destruct (resolveGrammar cloned) as [resolved rerrs]. cbn [fst snd].
  destruct rerrs as [| re res]; cbn [isEmpty].
  - set (verrs := validateGrammar (ht_values resolved) (maxLookahead inst)
                    (ignoredIssues inst)).
    rewrite app_nil_l.
    cbn [DEFER_DEFINITION_ERRORS_HANDLING set_definition_errors log_call
         set_productions set_nextOid set_done].
    rewrite app_nil_r.
    destruct (errs0 ++ verrs) as [| e es] eqn:Etot; cbn [isEmpty negb andb].
    + eexists _, _, [CallResolveGrammar; CallValidateGrammar;
                     CallComputeAllProdsFollows].
      split.
      { cbn. rewrite lookup_insert_eq. cbn. reflexivity. }
      cbn. rewrite !lookup_insert_eq. rewrite <- !app_assoc.
      analysis_goals.
    + destruct (DEFER_DEFINITION_ERRORS_HANDLING w) eqn:Edef; cbn [negb].
      * eexists _, _, [CallResolveGrammar; CallValidateGrammar].
        split.
        { cbn. rewrite lookup_insert_eq. cbn. rewrite Edef. reflexivity. }
        cbn. rewrite !lookup_insert_eq, ?Edef. rewrite <- !app_assoc.
        analysis_goals.
      * eexists _, _, [CallResolveGrammar; CallValidateGrammar].
        split; [reflexivity |].
        cbn. rewrite !lookup_insert_eq, ?Edef. rewrite <- !app_assoc.
        analysis_goals.
  - rewrite app_nil_r.
    cbn [DEFER_DEFINITION_ERRORS_HANDLING set_definition_errors log_call
         set_productions set_nextOid set_done].
    assert (Hne : isEmpty (errs0 ++ re :: res) = false)
      by (destruct errs0; reflexivity).
    rewrite Hne. cbn [negb andb].
    destruct (DEFER_DEFINITION_ERRORS_HANDLING w) eqn:Edef; cbn [negb].
    + eexists _, _, [CallResolveGrammar].
      split.
      { cbn. rewrite lookup_insert_eq. rewrite Hne. cbn. rewrite Edef.
        reflexivity. }
      cbn. rewrite !lookup_insert_eq, ?Edef, ?Hne.
      analysis_goals.
      all: intros H; destruct errs0; discriminate H.
    + eexists _, _, [CallResolveGrammar].
      split; [reflexivity |].
      cbn. rewrite !lookup_insert_eq, ?Edef, ?Hne.
      analysis_goals.
      all: intros H; destruct errs0; discriminate H.
Qed.

Lemma string_app_assoc (a b c : string) : (a +:+ b) +:+ c = a +:+ b +:+ c.
Proof.
  induction a as [| x a IH]; [reflexivity |].
  change (String x ((a +:+ b) +:+ c) = String x (a +:+ b +:+ c)).
  f_equal. exact IH.
Qed.

Lemma occurs_in_app_l (s t pre : string) :
  occurs_in s t -> occurs_in s (pre +:+ t).
Proof.
  intros (a & b & ->). exists (pre +:+ a), b.
  rewrite string_app_assoc. reflexivity.
Qed.

Lemma occurs_in_app_r (s t post : string) :
  occurs_in s t -> occurs_in s (t +:+ post).
Proof.
  intros (a & b & ->). exists a, (b +:+ post).
  rewrite !string_app_assoc. reflexivity.
Qed.

Lemma occurs_in_refl (s : string) : occurs_in s s.
Proof.
  exists EmptyString, EmptyString.
  change (s = s +:+ EmptyString).
  induction s as [| x s IH]; [reflexivity |].
  change (String x s = String x (s +:+ EmptyString)). f_equal. exact IH.
Qed.

(** Every text of an array occurs in the joined text. *)
Lemma join_occurs (sep x : string) (arr : list string) :
  x ∈ arr -> occurs_in x (join sep arr).
Proof.
  induction arr as [| y ys IH]; intros Hin.
  { apply elem_of_nil in Hin. contradiction. }
  apply elem_of_cons in Hin as [-> | Hin].
  - destruct ys as [| z zs]; cbn [join]; [apply occurs_in_refl |].
    apply occurs_in_app_r, occurs_in_refl.
  - destruct ys as [| z zs]; [apply elem_of_nil in Hin; contradiction |].
    change (join sep (y :: z :: zs))
      with (y +:+ sep +:+ join sep (z :: zs)).
    apply occurs_in_app_l, occurs_in_app_l, IH, Hin.
Qed.

(** The aggregated error holds the message of every definition error. *)
Lemma definition_errors_detected_aggregates
  (definitionErrors : list IParserDefinitionError)
  (x : IParserDefinitionError) :
  x ∈ definitionErrors ->
  exists msg, definition_errors_detected definitionErrors = JsError msg /\
              occurs_in (message x) msg.
Proof.
  intros Hin. unfold definition_errors_detected. eexists. split; [reflexivity |].
  apply occurs_in_app_l, occurs_in_app_l, occurs_in_app_l, join_occurs.
  apply list_elem_of_fmap. exists x. split; [reflexivity | exact Hin].
Qed.

(** X28: the first call of [performSelfAnalysis] for a class calls the
    validator exactly when the resolver reported no error, computes and
    stores the FOLLOW sets exactly when the whole list of definition
    errors is empty, and, when that list is not empty and the errors are
    not deferred, raises one error whose text holds the message of every
    definition error of the list.  A later call that finds the cache as
    this one left it makes no analysis call, changes nothing and ends the
    same way. *)
Theorem self_analysis_once (inst : ParserInstance) (w : World)
  (errs0 : list IParserDefinitionError) :
  className inst <> EmptyString ->
  CLASS_TO_SELF_ANALYSIS_DONE w !! className inst = None ->
  CLASS_TO_DEFINITION_ERRORS w !! className inst = Some errs0 ->
  let resolverErrors := resolver_errors resolveGrammar inst w in
  let validationErrors :=
    validation_errors resolveGrammar validateGrammar inst w in
  let total :=
    errs0 ++ resolverErrors ++
    (if isEmpty resolverErrors then validationErrors else []) in
  let defer := DEFER_DEFINITION_ERRORS_HANDLING w in
  exists r1 w1 new,
    run inst w = (r1, w1) /\
    calls w1 = calls w ++ new /\
    (CallValidateGrammar ∈ new <-> resolverErrors = []) /\
    (CallComputeAllProdsFollows ∈ new <-> total = []) /\
    (total <> [] ->
       CLASS_TO_RESYNC_FOLLOW_SETS w1 = CLASS_TO_RESYNC_FOLLOW_SETS w) /\
    (total = [] ->
       CLASS_TO_RESYNC_FOLLOW_SETS w1 !! className inst =
         Some (computeAllProdsFollows
                 (ht_values (resolved_productions resolveGrammar inst w)))) /\
    CLASS_TO_DEFINITION_ERRORS w1 !! className inst = Some total /\
    r1 = (if negb (isEmpty total) && negb defer
          then Throw (definition_errors_detected total) else Ret tt) /\
    (defer = false ->
     forall x, x ∈ total ->
       exists msg, r1 = Throw (JsError msg) /\ occurs_in (message x) msg) /\
    is_Some (CLASS_TO_SELF_ANALYSIS_DONE w1 !! className inst) /\
    run inst w1 = (r1, w1) /\
    (forall n, Nat.iter n (fun rw => run inst (snd rw)) (r1, w1) = (r1, w1)).
Proof.
  intros Hname Hfirst Herrs resolverErrors validationErrors total defer.
  destruct (performSelfAnalysis_first inst w errs0 Hname Hfirst Herrs)
    as (r1 & w1 & new & H1 & H2 & H3 & H4 & H5 & H6 & H7 & H8 & H9 & H10).
  fold resolverErrors validationErrors total defer in H3, H4, H5, H6, H7,
    H8, H10.
  exists r1, w1, new.
  repeat (split; [assumption |]).
  split.
  { intros Hdefer x Hx.
    destruct (definition_errors_detected_aggregates total x Hx)
      as (msg & Hmsg & Hocc).
    exists msg. split; [| exact Hocc].
    rewrite H8, Hdefer, <- Hmsg.
    destruct total; [apply elem_of_nil in Hx; contradiction | reflexivity]. }
  split; [assumption |].
  assert (Hagain : run inst w1 = (r1, w1)).
  { rewrite (performSelfAnalysis_done inst w1 total Hname H9 H7).
    rewrite H10, H8. reflexivity. }
  split; [exact Hagain |].
  induction n as [| n IH]; [reflexivity |].
  rewrite Nat.iter_succ, IH. exact Hagain.
Qed.

End SelfAnalysisFacts.

Lemma self_analysis_once_witness :
  let resolveGrammar :=
    fun t : HashTable IProduction =>
      (t, @nil IParserDefinitionError) in
  let validateGrammar :=
    fun (_ : list IProduction) (_ : Z) (_ : IgnoredParserIssues) =>
      [mkDefinitionError "Ambiguous alternatives" AMBIGUOUS_ALTS "top"] in
  let computeAllProdsFollows :=
    fun _ : list IProduction => @nil (string * list TokClass) in
  let inst :=
    mkParserInstance "SampleParser"
      [("top", Rule 0 "top" [Terminal 1 TokA 1] "text")] 5 ∅ in
  let w := mkWorld ∅ {["SampleParser" := []]} ∅ ∅ false 2 [] in
  exists w1,
    performSelfAnalysis resolveGrammar validateGrammar computeAllProdsFollows
      inst w
    = (Throw (definition_errors_detected
                [mkDefinitionError "Ambiguous alternatives" AMBIGUOUS_ALTS
                   "top"]), w1) /\
    calls w1 = [CallResolveGrammar; CallValidateGrammar] /\
    performSelfAnalysis resolveGrammar validateGrammar computeAllProdsFollows
      inst w1
    = (Throw (definition_errors_detected
                [mkDefinitionError "Ambiguous alternatives" AMBIGUOUS_ALTS
                   "top"]), w1).
Proof.
  intros resolveGrammar validateGrammar computeAllProdsFollows inst w.
  destruct (self_analysis_once resolveGrammar validateGrammar
              computeAllProdsFollows inst w [])
    as (r1 & w1 & new & Hrun & Hcalls & Hval & Hfol & _ & _ & _ & Hr & _ & _
        & Hagain & _).
  - discriminate.
  - reflexivity.
  - reflexivity.
  - cbn in Hr. subst r1. exists w1. split; [exact Hrun |].
    split; [| exact Hagain].
    assert (Hw1 : snd (performSelfAnalysis resolveGrammar validateGrammar
                         computeAllProdsFollows inst w) = w1)
      by (rewrite Hrun; reflexivity).
    rewrite <- Hw1. vm_compute. reflexivity.
Defined.

End analysis_facts.

(** ** Further properties of the access to the token vector *)

(** X1: [LA(howMuch)] is [undefined] exactly when [inputIdx + howMuch] is
    negative, as for [LA(0)] on a parser that has consumed nothing; once a
    token was consumed, [LA(0)] is the token consumed last. *)
Theorem LA_undefined_iff (p : Parser) (howMuch : Z) :
  (LA p howMuch = None <-> inputIdx p + howMuch < 0) /\
  (LA (new_Parser (_input p) (recoveryEnabled p)) 0 = None) /\
  (0 <= inputIdx p < js_length (_input p) ->
   LA p 0 = _input p !! Z.to_nat (inputIdx p)).
Proof.
  split; [| split].
  - unfold LA, js_index, js_length.
    destruct (Z.leb_spec (Z.of_nat (length (_input p))) (inputIdx p + howMuch)).
    + split; [discriminate | lia].
    + destruct (Z.ltb_spec (inputIdx p + howMuch) 0).
      * split; [lia | reflexivity].
      * split; [| lia]. intros Hnone. apply lookup_ge_None in Hnone. lia.
  - unfold LA, js_index, js_length, new_Parser. cbn [_input inputIdx].
    destruct (Z.leb_spec (Z.of_nat (length (_input p))) (-1 + 0)); [lia |].
    reflexivity.
  - intros [Hlo Hhi]. unfold LA, js_index.
    rewrite Z.add_0_r.
    destruct (Z.leb_spec (js_length (_input p)) (inputIdx p)); [lia |].
    destruct (Z.ltb_spec (inputIdx p) 0); [lia | reflexivity].
Qed.

Lemma SKIP_TOKEN_cases (p : Parser) :
  let tok := fst (SKIP_TOKEN p) in
  let q := snd (SKIP_TOKEN p) in
  tok = LA q 1 /\
  q = set_inputIdx p (inputIdx q) /\
  (inputIdx p <= js_length (_input p) - 2 ->
     inputIdx q = inputIdx p + 1 /\ tok = LA p 2) /\
  (js_length (_input p) - 2 < inputIdx p -> q = p /\ tok = Some new_EOF) /\
  inputIdx q <= Z.max (inputIdx p) (js_length (_input p) - 1).
Proof.
  unfold SKIP_TOKEN.
  destruct (Z.leb_spec (inputIdx p) (js_length (_input p) - 2)) as [Hin | Hout];
    cbn [fst snd].
  - split; [reflexivity |]. split; [reflexivity |].
    split; [| split; [lia |]].
    + intros _. split; [reflexivity |]. rewrite LA_shift. reflexivity.
    + unfold consumeToken. cbn [inputIdx set_inputIdx]. lia.
  - split; [| split; [| split; [lia | split; [| lia]]]].
    + rewrite LA_past_end; [reflexivity | lia].
    + destruct p; reflexivity.
    + intros _. split; reflexivity.
Qed.

(** X2: [SKIP_TOKEN] always answers the token that is [LA(1)] afterwards.
    While the input has a next token it skips that token, advancing by
    exactly one position; once every token was consumed it answers the end
    of input token and leaves the parser as it is, so that skipping never
    moves the input index past the last index of the input. *)
Theorem SKIP_TOKEN_returns_next (p : Parser) :
  let tok := fst (SKIP_TOKEN p) in
  let q := snd (SKIP_TOKEN p) in
  tok = LA q 1 /\
  q = set_inputIdx p (inputIdx q) /\
  (inputIdx p <= js_length (_input p) - 2 ->
     inputIdx q = inputIdx p + 1 /\ tok = LA p 2) /\
  (js_length (_input p) - 2 < inputIdx p -> q = p /\ tok = Some new_EOF) /\
  inputIdx q <= Z.max (inputIdx p) (js_length (_input p) - 1).
Proof. exact (SKIP_TOKEN_cases p). Qed.

(** X3: [isAtEndOfInput] answers [true] whenever every token of the input
    was consumed, whatever the input holds; when no token of the input is
    itself an instance of [EOF], it answers [true] only then. *)
Theorem isAtEndOfInput_iff (p : Parser) :
  (js_length (_input p) <= inputIdx p + 1 -> isAtEndOfInput p = true) /\
  (Forall (fun t => instanceOf (Some t) EOF = false) (_input p) ->
   isAtEndOfInput p = true -> js_length (_input p) <= inputIdx p + 1).
Proof.
  split.
  - intros Hge. unfold isAtEndOfInput. rewrite LA_past_end by exact Hge.
    reflexivity.
  - intros Hno Hat.
    destruct (Z.le_gt_cases (js_length (_input p)) (inputIdx p + 1))
      as [Hge | Hlt]; [exact Hge | exfalso].
    unfold isAtEndOfInput, LA, js_index in Hat.
    destruct (Z.leb_spec (js_length (_input p)) (inputIdx p + 1)); [lia |].
    destruct (Z.ltb_spec (inputIdx p + 1) 0); [discriminate Hat |].
    destruct (_input p !! Z.to_nat (inputIdx p + 1)) as [t |] eqn:Hlook;
      [| discriminate Hat].
    rewrite Forall_forall in Hno.
    rewrite (Hno t) in Hat; [discriminate |].
    eapply list_elem_of_lookup_2. exact Hlook.
Qed.

Lemma isAtEndOfInput_iff_witness :
  let ta := mkToken TokA "a" 0 1 false in
  let p := new_Parser [ta; mkToken EOF "" 1 1 false] false in
  let q := new_Parser [ta; ta] false in
  isAtEndOfInput (consumeToken (consumeToken p)) = true /\
  isAtEndOfInput (consumeToken q) = false.
Proof.
  intros ta p q. split.
  - apply (isAtEndOfInput_iff (consumeToken (consumeToken p))).
    vm_compute. discriminate.
  - destruct (isAtEndOfInput (consumeToken q)) eqn:Hat; [| reflexivity].
    exfalso.
    assert (Hlen : js_length (_input (consumeToken q))
                   <= inputIdx (consumeToken q) + 1).
    { apply (isAtEndOfInput_iff (consumeToken q)).
      - repeat constructor.
      - exact Hat. }
    vm_compute in Hlen. apply Hlen. reflexivity.
Defined.

Section EndOfInputFacts.

Variable C : ParserClass.

(** X4: at the end of the input, consuming [EOF] (or a class that [EOF]
    inherits from) succeeds every time: it answers the end of input token,
    saves no error and still advances the input index, now past the token
    vector, where the parser remains at the end of the input. *)
Theorem consume_EOF_at_end (T : TokClass) (idx : Z) (p : Parser) (n : nat) :
  isSubclassOf EOF T = true ->
  js_length (_input p) <= inputIdx p + 1 ->
  consumeInternal C T idx p
    = (Ret (Some new_EOF), set_inputIdx p (inputIdx p + 1)) /\
  Nat.iter n (fun q => snd (consumeInternal C T idx q)) p
    = set_inputIdx p (inputIdx p + Z.of_nat n) /\
  isAtEndOfInput (set_inputIdx p (inputIdx p + Z.of_nat n)) = true.
Proof.
  intros Hsub Hend.
  assert (Hone : forall q, js_length (_input q) <= inputIdx q + 1 ->
            consumeInternal C T idx q
              = (Ret (Some new_EOF), set_inputIdx q (inputIdx q + 1))).
  { intros q Hq. unfold consumeInternal.
    rewrite (consumeInternalOptimized_match C T q new_EOF).
    - reflexivity.
    - apply LA_past_end. exact Hq.
    - exact Hsub. }
  split; [exact (Hone p Hend) |]. split.
  - induction n as [| n IH].
    + cbn [Nat.iter]. rewrite Z.add_0_r. destruct p; reflexivity.
    + rewrite Nat.iter_succ, IH, Hone.
      * cbn [snd set_inputIdx inputIdx]. f_equal. lia.
      * cbn [set_inputIdx inputIdx _input]. lia.
  - unfold isAtEndOfInput. rewrite LA_past_end; [reflexivity |].
    cbn [set_inputIdx inputIdx _input]. lia.
Qed.

End EndOfInputFacts.

Lemma consume_EOF_at_end_witness :
  let C0 := sample_class [] in
  let p := consumeToken (new_Parser [mkToken TokA "a" 0 1 false] true) in
  consumeInternal C0 EOF 1 p
    = (Ret (Some new_EOF), set_inputIdx p (inputIdx p + 1)) /\
  Nat.iter 3 (fun q => snd (consumeInternal C0 EOF 1 q)) p
    = set_inputIdx p (inputIdx p + Z.of_nat 3) /\
  isAtEndOfInput (set_inputIdx p (inputIdx p + Z.of_nat 3)) = true.
Proof.
  intros C0 p.
  apply (consume_EOF_at_end C0 EOF 1 p 3).
  - reflexivity.
  - vm_compute. discriminate.
Defined.

(** ** Further properties of the re-synchronisation *)

Lemma lookahead_window_succ (p : Parser) (from : Z) (n : nat) :
  lookahead_window p from (S n)
    = LA p from :: lookahead_window (consumeToken p) from n.
Proof.
  unfold lookahead_window. cbn [seq map]. rewrite Z.add_0_r. f_equal.
  rewrite <- seq_shift, map_map. apply map_ext. intros i.
  rewrite LA_shift. f_equal. lia.
Qed.

Lemma without_EOF_add (tok : option Token) (acc rest : list (option Token)) :
  addToResyncTokens tok acc ++ without_EOF rest
    = acc ++ without_EOF (tok :: rest).
Proof.
  unfold addToResyncTokens, without_EOF, push. cbn [List.filter].
  destruct (negb (instanceOf tok EOF)); [| reflexivity].
  rewrite <- app_assoc. reflexivity.
Qed.

(** A token that differs from a later one under [instanceof] is not the
    last of the input: skipping it moves forward. *)
Lemma skip_in_range (T : TokClass) (p : Parser) (k : Z) :
  1 <= k ->
  instanceOf (LA p 1) T = false -> instanceOf (LA p k) T = true ->
  inputIdx p <= js_length (_input p) - 2.
Proof.
  intros Hk H1 Hk'.
  destruct (Z.le_gt_cases (inputIdx p) (js_length (_input p) - 2))
    as [Hle | Hgt]; [exact Hle | exfalso].
  rewrite LA_past_end in H1 by lia. rewrite LA_past_end in Hk' by lia.
  congruence.
Qed.

Lemma reSyncTo_loop_collects (T : TokClass) :
  forall (n fuel : nat) (p : Parser) (acc : list (option Token)),
    (forall i, (i < n)%nat -> instanceOf (LA p (1 + Z.of_nat i)) T = false) ->
    instanceOf (LA p (1 + Z.of_nat n)) T = true ->
    (n < fuel)%nat ->
    reSyncTo_loop fuel T (LA p 1) acc p =
      (Ret (dropRight (acc ++ without_EOF (lookahead_window p 2 n))),
       set_inputIdx p (inputIdx p + Z.of_nat n)).
Proof.
  induction n as [| n IH]; intros fuel p acc Hbefore Hat Hfuel;
    (destruct fuel as [| fuel]; [lia |]); cbn [reSyncTo_loop].
  - change (1 + Z.of_nat 0) with 1 in Hat. rewrite Hat. cbn [negb].
    unfold lookahead_window, without_EOF. cbn [seq map List.filter].
    rewrite app_nil_r, Z.add_0_r. destruct p; reflexivity.
  - pose proof (Hbefore 0%nat ltac:(lia)) as H0.
    change (1 + Z.of_nat 0) with 1 in H0. rewrite H0. cbn [negb].
    rewrite SKIP_TOKEN_in_range
      by (apply (skip_in_range T p (1 + Z.of_nat (S n))); [lia | easy | easy]).
    change (LA p 2) with (LA p (1 + 1)). rewrite <- (LA_shift p 1).
    change (set_inputIdx p (inputIdx p + 1)) with (consumeToken p).
    rewrite (IH fuel (consumeToken p)).
    + rewrite lookahead_window_succ, LA_shift.
      change (1 + 1) with 2. rewrite without_EOF_add.
      unfold consumeToken. cbn [set_inputIdx inputIdx].
      f_equal. f_equal. lia.
    + intros i Hi. rewrite LA_shift.
      replace (1 + Z.of_nat i + 1) with (1 + Z.of_nat (S i)) by lia.
      apply Hbefore. lia.
    + rewrite LA_shift.
      replace (1 + Z.of_nat n + 1) with (1 + Z.of_nat (S n)) by lia.
      exact Hat.
    + lia.
Qed.

(** X5: when the first token that is an instance of [T] is [LA(n + 1)],
    [reSyncTo(T)] skips exactly the [n] tokens before it and stops in front
    of it.  The tokens it answers, which the rule wrapper stores as
    [resyncedTokens], are [LA(2)] ... [LA(n + 1)] without end of input
    tokens and without the last of them: the offending token [LA(1)] is
    never among them. *)
Theorem reSyncTo_skipped_tokens (fuel : nat) (T : TokClass) (p : Parser)
  (n : nat) :
  (forall i, (i < n)%nat -> instanceOf (LA p (1 + Z.of_nat i)) T = false) ->
  instanceOf (LA p (1 + Z.of_nat n)) T = true ->
  (n < fuel)%nat ->
  reSyncTo fuel T p =
    (Ret (dropRight (without_EOF (lookahead_window p 2 n))),
     set_inputIdx p (inputIdx p + Z.of_nat n)) /\
  instanceOf (LA (set_inputIdx p (inputIdx p + Z.of_nat n)) 1) T = true.
Proof.
  intros Hbefore Hat Hfuel. split.
  - unfold reSyncTo.
    rewrite (reSyncTo_loop_collects T n fuel p [] Hbefore Hat Hfuel).
    reflexivity.
  - unfold LA in *. cbn [set_inputIdx inputIdx _input].
    replace (inputIdx p + Z.of_nat n + 1) with (inputIdx p + (1 + Z.of_nat n))
      by lia.
    exact Hat.
Qed.

Lemma reSyncTo_skipped_tokens_witness :
  let ta := mkToken TokA "a" 0 1 false in
  let tb := mkToken TokB "b" 1 2 false in
  let tc := mkToken TokComma "," 2 3 false in
  let p := new_Parser [ta; tb; tb; tc; ta] true in
  reSyncTo 4 TokComma p = (Ret [Some tb; Some tb], set_inputIdx p 2) /\
  reSyncTo 6 EOF p = (Ret [Some tb; Some tb; Some tc], set_inputIdx p 4).
Proof.
  intros ta tb tc p. split.
  - refine (proj1 (reSyncTo_skipped_tokens 4 TokComma p 3 _ _ _)).
    + intros i Hi.
      destruct i as [| [| [| i]]]; [reflexivity | reflexivity | reflexivity | lia].
    + reflexivity.
    + lia.
  - refine (proj1 (reSyncTo_skipped_tokens 6 EOF p 5 _ _ _)).
    + intros i Hi.
      destruct i as [| [| [| [| [| i]]]]]; try reflexivity. lia.
    + reflexivity.
    + lia.
Defined.

Section ResyncMoreFacts.

Variable C : ParserClass.

Lemma findReSyncTokenType_loop_first (all : list TokClass) (p : Parser) :
  idx_ok p ->
  forall (n fuel : nat) (k : Z) (t : Token),
    2 <= k ->
    (forall i t', (i < n)%nat -> LA p (k - 1 + Z.of_nat i) = Some t' ->
                  tokenType t' ∉ all) ->
    LA p (k - 1 + Z.of_nat n) = Some t ->
    tokenType t ∈ all ->
    (n < fuel)%nat ->
    findReSyncTokenType_loop fuel all p (LA p (k - 1)) k = Ret (tokenType t).
Proof.
  intros Hidx.
  induction n as [| n IH]; intros fuel k t Hk Hbefore Hat Hin Hfuel;
    (destruct fuel as [| fuel]; [lia |]); cbn [findReSyncTokenType_loop].
  - rewrite Z.add_0_r in Hat. rewrite Hat.
    rewrite (proj2 (contains_true all (tokenType t)) Hin). reflexivity.
  - destruct (LA_some p (k - 1) Hidx ltac:(lia)) as [t0 Ht0].
    rewrite Ht0.
    pose proof (Hbefore 0%nat t0 ltac:(lia)) as Hnot.
    rewrite Z.add_0_r in Hnot. specialize (Hnot Ht0).
    destruct (contains all (tokenType t0)) eqn:Econt.
    + exfalso. apply Hnot. apply contains_true. exact Econt.
    + replace k with (k + 1 - 1) at 1 by lia.
      apply (IH fuel (k + 1) t); [lia | | | exact Hin | lia].
      * intros i t' Hi Ht'. apply (Hbefore (S i) t'); [lia |].
        rewrite <- Ht'. f_equal. lia.
      * rewrite <- Hat. f_equal. lia.
Qed.

(** X6: [findReSyncTokenType] answers the class of the first token, from
    [LA(1)] on, whose own class (its constructor, not a class it inherits
    from) is listed in the flattened follow sets of the rule stack. *)
Theorem findReSyncTokenType_first_match (fuel : nat) (p : Parser) (n : nat)
  (t : Token) :
  idx_ok p ->
  (forall i t', (i < n)%nat -> LA p (1 + Z.of_nat i) = Some t' ->
                tokenType t' ∉ flattenFollowSet C p) ->
  LA p (1 + Z.of_nat n) = Some t ->
  tokenType t ∈ flattenFollowSet C p ->
  (n < fuel)%nat ->
  findReSyncTokenType C fuel p = Ret (tokenType t).
Proof.
  intros Hidx Hbefore Hat Hin Hfuel. unfold findReSyncTokenType.
  change (LA p 1) with (LA p (2 - 1)).
  apply (findReSyncTokenType_loop_first _ p Hidx n fuel 2 t);
    [lia | | | exact Hin | exact Hfuel].
  - intros i t' Hi Ht'. apply (Hbefore i t' Hi).
    rewrite <- Ht'. f_equal.
  - rewrite <- Hat. f_equal.
Qed.

Lemma imap_last_lookup {A B : Type} (f : nat -> A -> B) (l : list A) :
  last (imap f l) = (fun x => f (pred (length l)) x) <$> last l.
Proof.
  revert f. induction l as [| x l IH]; intros f; [reflexivity |].
  destruct l as [| y l]; [reflexivity |].
  change (imap f (x :: y :: l)) with (f 0%nat x :: imap (f ∘ S) (y :: l)).
  change (last (f 0%nat x :: imap (f ∘ S) (y :: l)))
    with (last (imap (f ∘ S) (y :: l))).
  rewrite IH. reflexivity.
Qed.

Lemma js_index_last {A : Type} (l : list A) :
  js_index l (js_length l - 1) = last l.
Proof.
  unfold js_index, js_length. destruct l as [| x l]; [reflexivity |].
  destruct (Z.ltb_spec (Z.of_nat (length (x :: l)) - 1) 0) as [Hneg | _].
  - cbn [length] in Hneg. lia.
  - rewrite last_lookup. f_equal. cbn [length]. lia.
Qed.

(** X7: inside a rule the stack of follow keys has one key for each rule of
    the rule stack, the key of the first invoked rule is the end of input
    key and the key of the current rule, [getCurrFollowKey()], is the last
    one.  So every class of the re-sync set of the current rule is a class
    of the flattened follow set, which begins with [EOF]. *)
Theorem current_follow_key_is_last (p : Parser) :
  RULE_STACK p <> [] ->
  length (buildFullFollowKeyStack p) = length (RULE_STACK p) /\
  head (buildFullFollowKeyStack p) = Some EOF_FOLLOW_KEY /\
  last (buildFullFollowKeyStack p) = Some (getCurrFollowKey p) /\
  head (flattenFollowSet C p) = Some EOF /\
  (forall T, isInCurrentRuleReSyncSet C T p = true ->
             T ∈ flattenFollowSet C p).
Proof.
  intros Hne.
  assert (Hlast : last (buildFullFollowKeyStack p)
                  = Some (getCurrFollowKey p)).
  { unfold buildFullFollowKeyStack. rewrite imap_last_lookup.
    unfold getCurrFollowKey.
    destruct (RULE_STACK p) as [| r0 rs] eqn:Estack; [congruence |].
    destruct rs as [| r1 rs].
    - reflexivity.
    - set (l := r0 :: r1 :: rs).
      destruct (Z.eqb_spec (js_length l) 1) as [Hone | _].
      { unfold js_length, l in Hone. cbn [length] in Hone. lia. }
      rewrite js_index_last.
      destruct (last l) as [x |] eqn:Ex;
        [| apply last_None in Ex; discriminate Ex].
      cbn [fmap option_fmap option_map].
      rewrite bool_decide_eq_false_2
        by (unfold l; cbn [length Nat.pred]; lia).
      f_equal. f_equal.
      + f_equal. unfold js_length, l. cbn [length Nat.pred]. lia.
      + f_equal. unfold js_length, l. cbn [length Nat.pred]. lia. }
  assert (Hhead : head (buildFullFollowKeyStack p) = Some EOF_FOLLOW_KEY).
  { unfold buildFullFollowKeyStack.
    destruct (RULE_STACK p) as [| r0 rs]; [congruence | reflexivity]. }
  split; [unfold buildFullFollowKeyStack; apply length_imap |].
  split; [exact Hhead |]. split; [exact Hlast |]. split.
  - unfold flattenFollowSet.
    destruct (buildFullFollowKeyStack p) as [| k ks]; [discriminate |].
    injection Hhead as ->. reflexivity.
  - intros T HT. unfold isInCurrentRuleReSyncSet in HT.
    apply contains_true in HT. unfold flattenFollowSet.
    apply last_Some in Hlast as [l' Hl']. rewrite Hl', map_app, concat_app.
    apply elem_of_app. right. cbn [map concat]. rewrite app_nil_r. exact HT.
Qed.

Lemma reSyncTo_loop_lands (T : TokClass) :
  forall (fuel : nat) (p : Parser) (acc toks : list (option Token))
         (q : Parser),
    reSyncTo_loop fuel T (LA p 1) acc p = (Ret toks, q) ->
    instanceOf (LA q 1) T = true.
Proof.
  induction fuel as [| fuel IH]; intros p acc toks q Hrun;
    cbn [reSyncTo_loop] in Hrun; [discriminate |].
  destruct (instanceOf (LA p 1) T) eqn:Einst; cbn [negb] in Hrun.
  - injection Hrun as _ <-. exact Einst.
  - pose proof (SKIP_TOKEN_cases p) as Hskip.
    destruct (SKIP_TOKEN p) as [tok p'] eqn:Eskip. cbn [fst snd] in Hskip.
    destruct Hskip as [Htok _]. subst tok.
    exact (IH p' _ toks q Hrun).
Qed.

(** X8: when the wrapper of a rule answers an exception of the rule body
    with a re-sync, the parser is left in front of a token that is an
    instance of a class of the follow set of this very rule invocation, the
    input index has only moved forwards, and the value is the recovery
    value of the rule. *)
Theorem resync_recovery_lands_in_follow (fuel : nat)
  (impl : list JsValue -> M JsValue) (config : IRuleConfig)
  (args : list JsValue) (p p2 q : Parser) (e : RecognitionException)
  (v : JsValue) :
  impl args p = (Throw (Recognition e), p2) ->
  wrappedGrammarRule_try_catch C fuel impl config args p = (Ret v, q) ->
  exists T toks,
    T ∈ getFollowSetFromFollowKey C (getCurrFollowKey p2) /\
    instanceOf (LA q 1) T = true /\
    v = recoveryValue config /\
    inputIdx p2 <= inputIdx q /\
    q = write_resyncedTokens e toks (set_inputIdx p2 (inputIdx q)).
Proof.
  intros Himpl Hrun. unfold wrappedGrammarRule_try_catch in Hrun.
  rewrite Himpl in Hrun.
  destruct ((js_length (RULE_STACK p2) =? 1)
            || default DEFAULT_RULE_CONFIG_resyncEnabled (resyncEnabled config)
               && negb (isBackTracking p2) && recoveryEnabled p2);
    [| discriminate].
  destruct (findReSyncTokenType C fuel p2) as [T | |]; [| discriminate ..].
  destruct (isInCurrentRuleReSyncSet C T p2) eqn:Eset; [| discriminate].
  destruct (reSyncTo fuel T p2) as [[toks | |] q3] eqn:Esync;
    [| discriminate ..].
  injection Hrun as <- <-.
  exists T, toks.
  pose proof (reSyncTo_loop_resynced T fuel (LA p2 1) [] p2 _ _ Esync)
    as [Hq3 Hle].
  split; [apply contains_true; exact Eset |].
  split; [| split; [reflexivity | split; [exact Hle |]]].
  - rewrite (LA_frame q3 (write_resyncedTokens e toks q3)) by reflexivity.
    exact (reSyncTo_loop_lands T fuel p2 [] toks q3 Esync).
  - cbn [write_resyncedTokens inputIdx set_errors]. rewrite <- Hq3.
    reflexivity.
Qed.

End ResyncMoreFacts.

Lemma current_follow_key_is_last_witness :
  let p := mkParser [] true [] (-1) [] ["top"; "list"; "item"] [1; 1; 2]
             None 0 in
  last (buildFullFollowKeyStack p)
    = Some (FollowKey (Some "item") (Some 2) (Some "list")) /\
  head (flattenFollowSet (sample_class []) p) = Some EOF.
Proof.
  intros p.
  destruct (current_follow_key_is_last (sample_class []) p)
    as [_ [_ [Hlast [Hhead _]]]].
  - discriminate.
  - split; [exact Hlast | exact Hhead].
Defined.

Lemma findReSyncTokenType_first_match_witness :
  let SubComma := Extends "SubComma" TokComma in
  let C0 := mkParserClass "P" (fun _ => [TokComma]) (fun _ => [])
              default_canTokenTypeBeInsertedInRecovery
              default_getTokenToInsert (fun _ _ => "mismatch")
              (fun _ _ => EmptyString) (fun _ _ _ => EmptyString)
              (fun _ => mkFirstAfterRepetition None None true) in
  let ta := mkToken TokA "a" 0 1 false in
  let tsub := mkToken SubComma ";" 1 2 false in
  let tc := mkToken TokComma "," 2 3 false in
  let p := mkParser [] true [ta; tsub; tc; ta] (-1) [] ["list"; "item"]
             [1; 1] None 0 in
  instanceOf (LA p 2) TokComma = true /\
  findReSyncTokenType C0 3 p = Ret TokComma.
Proof.
  intros SubComma C0 ta tsub tc p. split; [reflexivity |].
  apply (findReSyncTokenType_first_match C0 3 p 2 tc).
  - unfold idx_ok. simpl. lia.
  - intros i t' Hi Ht'.
    assert (Hall : flattenFollowSet C0 p = [EOF; TokComma]) by reflexivity.
    rewrite Hall.
    destruct i as [| [| i]]; [| | lia]; vm_compute in Ht';
      injection Ht' as <-; intros Hin;
      repeat (apply elem_of_cons in Hin as [Hin | Hin]; [discriminate Hin |]);
      apply elem_of_nil in Hin; exact Hin.
  - reflexivity.
  - assert (Hall : flattenFollowSet C0 p = [EOF; TokComma]) by reflexivity.
    rewrite Hall. apply elem_of_cons. right. apply elem_of_cons. left.
    reflexivity.
  - lia.
Defined.

Lemma resync_recovery_lands_in_follow_witness :
  let C0 := sample_class [] in
  let tb := mkToken TokB "b" 0 1 false in
  let p := ruleInvocationStateUpdate "top" 1 (new_Parser [tb] true) in
  let e := mismatch_exception C0 TokA tb p in
  let p2 := after_mismatch C0 TokA tb p in
  let q := write_resyncedTokens e [] (set_inputIdx p2 0) in
  exists T toks,
    T ∈ getFollowSetFromFollowKey C0 (getCurrFollowKey p2) /\
    instanceOf (LA q 1) T = true /\
    JsUndefined = recoveryValue DEFAULT_RULE_CONFIG /\
    inputIdx p2 <= inputIdx q /\
    q = write_resyncedTokens e toks (set_inputIdx p2 (inputIdx q)).
Proof.
  intros C0 tb p e p2 q.
  apply (resync_recovery_lands_in_follow C0 5 (sample_rule C0)
           DEFAULT_RULE_CONFIG [] p p2 q e JsUndefined).
  - vm_compute. reflexivity.
  - vm_compute. reflexivity.
Defined.

(** ** Further properties of the rule wrapper *)

Section WrapperMoreFacts.

Variable C : ParserClass.

(** X9: an exception of the rule body that is not a recognition exception
    is never answered with a recovery, not even by the first invoked rule:
    the wrapper raises it again unchanged, after the exit path has popped
    both rule stacks; the input index stays and no saved error is lost. *)
Theorem rule_wrapper_rethrows_other_errors (fuel : nat) (name : string)
  (impl : list JsValue -> M JsValue) (config : IRuleConfig) (idx : Z)
  (args : list JsValue) (p : Parser) (e : Exn) (q2 : Parser) :
  impl args (ruleInvocationStateUpdate name idx p) = (Throw e, q2) ->
  isRecognitionException e = false ->
  idx_ok q2 ->
  exists q,
    wrappedGrammarRule C fuel name impl config idx args p = (Throw e, q) /\
    RULE_STACK q = pop (RULE_STACK q2) /\
    RULE_OCCURRENCE_STACK q = pop (RULE_OCCURRENCE_STACK q2) /\
    inputIdx q = inputIdx q2 /\
    (forall x, x ∈ errors q2 -> x ∈ errors q).
Proof.
  intros Himpl Hnot Hidx.
  assert (Htc : wrappedGrammarRule_try_catch C fuel impl config args
                  (ruleInvocationStateUpdate name idx p) = (Throw e, q2)).
  { unfold wrappedGrammarRule_try_catch. rewrite Himpl.
    destruct e; [discriminate Hnot | reflexivity | reflexivity]. }
  rewrite (wrappedGrammarRule_eq C fuel name impl config idx args p _ _ Htc)
    by discriminate.
  destruct (ruleFinallyStateUpdate q2) as [rf q] eqn:Efin.
  destruct (ruleFinallyStateUpdate_frame _ _ _ Efin)
    as (h1 & h2 & _ & _ & _ & h6 & h7 & _ & h9).
  rewrite (h9 Hidx). exists q. repeat split; assumption.
Qed.

(** X10: the wrapper of a rule that was invoked by another rule performs no
    re-sync when the rule was defined with [resyncEnabled: false], or while
    the parser is backtracking, or when the recovery is disabled: a
    recognition exception of the body is raised again as it is, for the
    calling rule to handle, and the wrapper only pops the rule stacks. *)
Theorem nested_rule_without_resync_rethrows (fuel : nat) (name : string)
  (impl : list JsValue -> M JsValue) (config : IRuleConfig) (idx : Z)
  (args : list JsValue) (p : Parser) (e : RecognitionException)
  (q2 : Parser) :
  impl args (ruleInvocationStateUpdate name idx p)
    = (Throw (Recognition e), q2) ->
  2 <= js_length (RULE_STACK q2) ->
  resyncEnabled config = Some false \/ isBackTracking q2 = true \/
    recoveryEnabled q2 = false ->
  wrappedGrammarRule C fuel name impl config idx args p
    = (Throw (Recognition e), exit_stacks q2).
Proof.
  intros Himpl Hdepth Hoff.
  assert (Htc : wrappedGrammarRule_try_catch C fuel impl config args
                  (ruleInvocationStateUpdate name idx p)
                = (Throw (Recognition e), q2)).
  { unfold wrappedGrammarRule_try_catch. rewrite Himpl.
    destruct (Z.eqb_spec (js_length (RULE_STACK q2)) 1) as [Hone | _];
      [lia |].
    cbn [orb].
    destruct Hoff as [Hcfg | [Hbt | Hrec]].
    - rewrite Hcfg. reflexivity.
    - rewrite Hbt. cbn [negb]. rewrite andb_false_r. reflexivity.
    - rewrite Hrec, andb_false_r. reflexivity. }
  rewrite (wrappedGrammarRule_eq C fuel name impl config idx args p _ _ Htc)
    by discriminate.
  rewrite ruleFinallyStateUpdate_eq.
  rewrite bool_decide_eq_false_2; [reflexivity |].
  unfold js_length in Hdepth.
  destruct (RULE_STACK q2) as [| r0 [| r1 rs]]; cbn [length] in Hdepth;
    [lia | lia |].
  unfold pop. cbn [removelast]. destruct rs; discriminate.
Qed.

End WrapperMoreFacts.

Lemma rule_wrapper_rethrows_other_errors_witness :
  let C0 := sample_class [] in
  let p := new_Parser [mkToken TokA "a" 0 1 false] true in
  exists q,
    wrappedGrammarRule C0 5 "top" (fun _ => throw (JsError "boom"))
      DEFAULT_RULE_CONFIG 1 [] p = (Throw (JsError "boom"), q) /\
    RULE_STACK q = [].
Proof.
  intros C0 p.
  destruct (rule_wrapper_rethrows_other_errors C0 5 "top"
              (fun _ => throw (JsError "boom")) DEFAULT_RULE_CONFIG 1 [] p
              (JsError "boom") (ruleInvocationStateUpdate "top" 1 p))
    as [q [Hrun [Hstack _]]].
  - reflexivity.
  - reflexivity.
  - unfold idx_ok. simpl. lia.
  - exists q. split; [exact Hrun | exact Hstack].
Defined.

Lemma nested_rule_without_resync_rethrows_witness :
  let C0 := sample_class [] in
  let tb := mkToken TokB "b" 0 1 false in
  let p := mkParser [] true [tb] (-1) [] ["top"] [1] None 0 in
  let p1 := ruleInvocationStateUpdate "item" 2 p in
  wrappedGrammarRule C0 5 "item" (sample_rule C0)
    (mkRuleConfig None (Some false)) 2 [] p
    = (Throw (Recognition (mismatch_exception C0 TokA tb p1)),
       exit_stacks (after_mismatch C0 TokA tb p1)).
Proof.
  intros C0 tb p p1.
  apply (nested_rule_without_resync_rethrows C0 5 "item" (sample_rule C0)
           (mkRuleConfig None (Some false)) 2 [] p).
  - vm_compute. reflexivity.
  - vm_compute. discriminate.
  - left. reflexivity.
Defined.

(** ** Further properties of the DSL methods *)

(** X11: [OPTION] answers [false] only when its predicate or its look-ahead
    function has answered [false], and then the action was not invoked:
    whatever the action is, the outcome is the same.  It answers [true]
    only when both have answered [true] and the action was invoked and has
    returned; the parser is then as the action left it. *)
Theorem option_outcomes (lookAheadFunc : Parser -> bool)
  (predicate : option (Parser -> bool)) (action : M JsValue) (p q : Parser)
  (r : Res bool) :
  optionInternal lookAheadFunc predicate action p = (r, q) ->
  let asked := default (fun _ => true) predicate p && lookAheadFunc p in
  (r = Ret false ->
     asked = false /\
     forall action' : M JsValue,
       optionInternal lookAheadFunc predicate action' p = (Ret false, q)) /\
  (r = Ret true -> asked = true /\ exists v, action p = (Ret v, q)).
Proof.
  unfold optionInternal, bind, ret.
  destruct predicate as [pred |]; cbn [default id];
    [destruct (pred p); cbn [negb andb] |];
    (destruct (lookAheadFunc p);
     [destruct (action p) as [[v | e |] q'] |]);
    intros [= <- <-]; cbv zeta;
    (split; intros Hr); try discriminate Hr; auto; eauto.
Qed.

Lemma option_outcomes_witness :
  let C0 := sample_class [] in
  let p := new_Parser [mkToken TokB "b" 0 1 false] false in
  let la := fun p => instanceOf (LA p 1) TokA in
  let out := optionInternal la None (sample_rule C0 []) p in
  fst out = Ret false /\
  forall action' : M JsValue,
    optionInternal la None action' p = (Ret false, snd out).
Proof.
  intros C0 p la out. split; [reflexivity |].
  refine (proj2 (proj1 (option_outcomes la None (sample_rule C0 []) p
                          (snd out) (fst out) _)
                   _)).
  - reflexivity.
  - reflexivity.
Defined.

Section DslMoreFacts.

Variable C : ParserClass.

Lemma throw_saved_eq {A : Type} (kind : RecognitionKind) (msg : string)
  (t : Token) (p : Parser) :
  throw_saved (A := A) kind msg (Some t) p
    = (Throw (Recognition (saved_exception kind msg t p)),
       after_saving (saved_exception kind msg t p) p).
Proof. reflexivity. Qed.

Lemma raiseEarlyExitException_eq {A : Type} (occurrence : Z)
  (prodType : PROD_TYPE) (errMsg : option string) (p : Parser) (t : Token) :
  LA p 1 = Some t ->
  let e := saved_exception EarlyExitException
             (early_exit_message C occurrence prodType errMsg t p) t p in
  raiseEarlyExitException (A := A) C occurrence prodType errMsg p
    = (Throw (Recognition e), after_saving e p).
Proof.
  intros HLA e. unfold raiseEarlyExitException. rewrite HLA.
  rewrite throw_saved_eq. unfold e, early_exit_message.
  destruct errMsg; reflexivity.
Qed.

(** X12: when the look-ahead function admits no first iteration,
    [AT_LEAST_ONE] and [AT_LEAST_ONE_SEP] raise an EarlyExitException for
    the next token, saved in [errors] with the rule stacks, and consume
    nothing; no recovery inside the repetition is attempted, whatever the
    recovery flag.  In the same state [MANY_SEP] answers the empty array
    and, with the recovery disabled, [MANY] returns: both leave the parser
    as it was. *)
Theorem zero_iterations (fuel : nat) (name : string) (occ : Z)
  (la : Parser -> bool) (pred : option (Parser -> bool))
  (separator : TokClass) (action : M JsValue) (errMsg : option string)
  (p : Parser) (t : Token) :
  LA p 1 = Some t ->
  let early := fun prodType =>
    saved_exception EarlyExitException
      (early_exit_message C occ prodType errMsg t p) t p in
  (with_predicate pred la p = false ->
     atLeastOneInternal C (S fuel) name occ la pred action errMsg p
       = (Throw (Recognition (early REPETITION_MANDATORY)),
          after_saving (early REPETITION_MANDATORY) p) /\
     (recoveryEnabled p = false ->
      manyInternal C (S (S fuel)) name occ la pred action p = (Ret tt, p))) /\
  (la p = false ->
     atLeastOneSepFirstInternal C fuel name occ la separator action errMsg p
       = (Throw (Recognition (early REPETITION_MANDATORY_WITH_SEPARATOR)),
          after_saving (early REPETITION_MANDATORY_WITH_SEPARATOR) p) /\
     manySepFirstInternal C fuel name occ la separator action p
       = (Ret [], p)).
Proof.
  intros HLA early. split.
  - intros Hla. split.
    + cbn [atLeastOneInternal]. unfold bind at 1. rewrite Hla.
      rewrite (raiseEarlyExitException_eq occ REPETITION_MANDATORY errMsg p t
                 HLA).
      reflexivity.
    + intros Hrec. cbn [manyInternal while_do]. unfold bind at 1.
      rewrite Hla, Hrec. reflexivity.
  - intros Hla. split.
    + unfold atLeastOneSepFirstInternal. rewrite Hla.
      exact (raiseEarlyExitException_eq occ
               REPETITION_MANDATORY_WITH_SEPARATOR errMsg p t HLA).
    + unfold manySepFirstInternal. rewrite Hla. reflexivity.
Qed.

(** X13: [OR] takes the alternative that its look-ahead function picks and
    does nothing else.  When the function picks none (-1) it raises a
    NoViableAltException for the next token, saved in [errors] with the
    rule stacks, without consuming input; an index outside the array of
    alternatives ends in the TypeError of a property read on
    [undefined]. *)
Theorem or_outcomes (laFunc : Parser -> Z) (alts : list (M JsValue))
  (errMsgTypes : option string) (occ : Z) (p : Parser) (t : Token) :
  LA p 1 = Some t ->
  let e := saved_exception NoViableAltException
             (no_alt_message C occ errMsgTypes t p) t p in
  (laFunc p = -1 ->
     orInternal C laFunc alts errMsgTypes occ p
       = (Throw (Recognition e), after_saving e p)) /\
  (forall alt, laFunc p <> -1 -> js_index alts (laFunc p) = Some alt ->
     orInternal C laFunc alts errMsgTypes occ p = alt p) /\
  (laFunc p <> -1 -> js_index alts (laFunc p) = None ->
     orInternal C laFunc alts errMsgTypes occ p = (Throw TypeError, p)).
Proof.
  intros HLA e. unfold orInternal. split; [| split].
  - intros ->. cbn [Z.eqb negb]. unfold raiseNoAltException.
    rewrite HLA, throw_saved_eq. unfold e, no_alt_message.
    destruct errMsgTypes; reflexivity.
  - intros alt Hne Halt. apply Z.eqb_neq in Hne. rewrite Hne, Halt.
    reflexivity.
  - intros Hne Halt. apply Z.eqb_neq in Hne. rewrite Hne, Halt. reflexivity.
Qed.

(** X14: while the parser is backtracking, the recovery inside a
    repetition is never attempted: [attemptInRepetitionRecovery] changes
    nothing, and [MANY] is the plain loop of its action. *)
Theorem no_repetition_recovery_while_backtracking (fuel : nat)
  (name : string) (occ : Z) (la : Parser -> bool)
  (pred : option (Parser -> bool)) (action : M JsValue) (p : Parser) :
  isBackTracking p = true ->
  (forall (prodFunc : M unit),
     attemptInRepetitionRecovery C fuel prodFunc la name occ p
       = (Ret None, p)) /\
  (forall q,
     while_do fuel (with_predicate pred la) action p = (Ret tt, q) ->
     isBackTracking q = true ->
     manyInternal C (S fuel) name occ la pred action p = (Ret tt, q)).
Proof.
  assert (Hoff : forall (prodFunc : M unit) la' p',
            isBackTracking p' = true ->
            attemptInRepetitionRecovery C fuel prodFunc la' name occ p'
              = (Ret None, p')).
  { intros prodFunc la' p' Hbt. unfold attemptInRepetitionRecovery.
    destruct ((js_length (RULE_STACK p') =? 1)
              && far_isEndOfRule
                   (firstAfterRepetition C
                      (getKeyForAutomaticLookahead name occ p'))
              && bool_decide
                   (far_token
                      (firstAfterRepetition C
                         (getKeyForAutomaticLookahead name occ p')) = None)).
    - unfold shouldInRepetitionRecoveryBeTried. rewrite Hbt.
      destruct (instanceOf (LA p' 1) EOF); reflexivity.
    - unfold shouldInRepetitionRecoveryBeTried. rewrite Hbt.
      destruct (far_token _) as [tokAfter |]; [| reflexivity].
      destruct (far_occurrence _); [| reflexivity].
      destruct (instanceOf (LA p' 1) tokAfter); reflexivity. }
  intros Hbt. split; [intros prodFunc; apply Hoff; exact Hbt |].
  intros q Hloop Hq. cbn [manyInternal]. unfold bind at 1. rewrite Hloop.
  destruct (recoveryEnabled q); [| reflexivity].
  unfold bind, ret. rewrite Hoff by exact Hq. reflexivity.
Qed.

End DslMoreFacts.

Lemma zero_iterations_witness :
  let C0 := sample_class [] in
  let tb := mkToken TokB "b" 0 1 false in
  let p := mkParser [] true [tb] (-1) [] ["list"] [1] None 0 in
  let la := fun p => instanceOf (LA p 1) TokA in
  let e := saved_exception EarlyExitException
             "Expecting at least one item but found: 'b'" tb p in
  atLeastOneInternal C0 1 "AT_LEAST_ONE1" 1 la None (sample_rule C0 [])
    (Some "item") p = (Throw (Recognition e), after_saving e p) /\
  manySepFirstInternal C0 0 "MANY_SEP1" 1 la TokComma (sample_rule C0 []) p
    = (Ret [], p).
Proof.
  intros C0 tb p la e.
  destruct (zero_iterations C0 0 "AT_LEAST_ONE1" 1 la None TokComma
              (sample_rule C0 []) (Some "item") p tb) as [Hone Hsep];
    [reflexivity |].
  split.
  - exact (proj1 (Hone eq_refl)).
  - exact (proj2 (Hsep eq_refl)).
Defined.

Lemma or_outcomes_witness :
  let C0 := sample_class [] in
  let tb := mkToken TokB "b" 0 1 false in
  let p := mkParser [] false [tb] (-1) [] ["top"] [1] None 0 in
  let e := saved_exception NoViableAltException
             "Expecting: a letter  but found: 'b'" tb p in
  orInternal C0 (fun _ => -1) [sample_rule C0 []] (Some "a letter") 1 p
    = (Throw (Recognition e), after_saving e p).
Proof.
  intros C0 tb p e.
  destruct (or_outcomes C0 (fun _ => -1) [sample_rule C0 []]
              (Some "a letter") 1 p tb) as [Hnone _];
    [reflexivity |].
  exact (Hnone eq_refl).
Defined.

Lemma no_repetition_recovery_while_backtracking_witness :
  let C0 := sample_class [] in
  let tb := mkToken TokB "b" 0 1 false in
  let p := mkParser [] true [tb] (-1) [1] ["top"] [1] None 0 in
  attemptInRepetitionRecovery C0 5 (ret tt)
    (fun p => instanceOf (LA p 1) TokA) "MANY1" 1 p = (Ret None, p).
Proof.
  intros C0 tb p.
  destruct (no_repetition_recovery_while_backtracking C0 5 "MANY1" 1
              (fun p => instanceOf (LA p 1) TokA) None (sample_rule C0 []) p)
    as [Hoff _]; [reflexivity |].
  exact (Hoff (ret tt)).
Defined.

(** ** The separators of a repetition with separator *)

Lemma from_input_frame (p q : Parser) (tok : option Token) :
  _input q = _input p -> from_input p tok -> from_input q tok.
Proof. unfold from_input. intros ->. auto. Qed.

Lemma LA_from_input (p : Parser) (k : Z) (t : Token) :
  LA p k = Some t -> from_input p (Some t).
Proof.
  unfold LA. intros HLA. exists t. split; [reflexivity |].
  destruct (js_length (_input p) <=? inputIdx p + k).
  - right. congruence.
  - left. eapply js_index_In. exact HLA.
Qed.

Lemma separator_from_input_frame (separator : TokClass) (p q : Parser)
  (toks : list (option Token)) :
  _input q = _input p ->
  Forall (separator_from_input separator p) toks ->
  Forall (separator_from_input separator q) toks.
Proof.
  intros Hin Hall. eapply Forall_impl; [exact Hall |].
  intros tok [Hinst Hfrom]. split; [exact Hinst |].
  eapply from_input_frame; eassumption.
Qed.

Section SeparatorFacts.

Variable C : ParserClass.

Lemma generateErrorMessage_input (expected : TokClass)
  (next0 : option Token) (acc : list (option Token)) (p : Parser)
  (r : Res unit) (q : Parser) :
  generateErrorMessage C expected next0 acc p = (r, q) ->
  _input q = _input p.
Proof.
  unfold generateErrorMessage. destruct next0; intros [= _ <-]; reflexivity.
Qed.

(** A value that the recovery inside a repetition answers is the value of
    the production it has entered again. *)
Lemma tryInRepetitionRecovery_loop_provenance {A : Type}
  (grammarRule : M A) (la : Parser -> bool) (expected resync : TokClass)
  (next0 : option Token) :
  forall (fuel : nat) (curr : option Token) (acc : list (option Token))
         (p : Parser) (x : A) (q : Parser),
    tryInRepetitionRecovery_loop C fuel grammarRule la expected resync next0
      curr acc p = (Ret (Some x), q) ->
    exists p', grammarRule p' = (Ret x, q) /\ _input p' = _input p.
Proof.
  induction fuel as [| fuel IH]; intros curr acc p x q Hrun;
    cbn [tryInRepetitionRecovery_loop] in Hrun; [discriminate |].
  destruct (instanceOf curr expected).
  { unfold bind, ret in Hrun.
    destruct (generateErrorMessage C expected next0 acc p) as [[u | e |] p1];
      discriminate. }
  destruct (la p).
  { unfold bind, ret in Hrun.
    destruct (generateErrorMessage C expected next0 acc p)
      as [[u | e |] p1] eqn:Egen; [| discriminate ..].
    destruct (grammarRule p1) as [[y | e |] q1] eqn:Erule;
      [| discriminate ..].
    injection Hrun as <- <-. exists p1. split; [exact Erule |].
    eapply generateErrorMessage_input. exact Egen. }
  destruct (instanceOf curr resync); [discriminate |].
  pose proof (SKIP_TOKEN_frame p) as [[_ [_ [_ [_ Hin]]]] _].
  destruct (SKIP_TOKEN p) as [curr' p1]. cbn [snd] in Hin.
  destruct (IH _ _ _ _ _ Hrun) as [p' [Hrule Hp']].
  exists p'. split; [exact Hrule | congruence].
Qed.

Lemma attemptInRepetitionRecovery_provenance {A : Type} (fuel : nat)
  (prodFunc : M A) (la : Parser -> bool) (name : string) (occ : Z)
  (p : Parser) (x : A) (q : Parser) :
  attemptInRepetitionRecovery C fuel prodFunc la name occ p
    = (Ret (Some x), q) ->
  exists p', prodFunc p' = (Ret x, q) /\ _input p' = _input p.
Proof.
  unfold attemptInRepetitionRecovery.
  match goal with
  | |- context [if ?c then (Some EOF, Some 1) else _] => destruct c
  end; cbv beta iota;
    (match goal with
     | |- context [shouldInRepetitionRecoveryBeTried C ?a ?b p] =>
         destruct (shouldInRepetitionRecoveryBeTried C a b p);
         [| discriminate]
     end);
    (try match goal with
         | |- context [match ?a with Some _ => _ | None => _ end] =>
             destruct a; [| discriminate]
         end);
    unfold tryInRepetitionRecovery;
    (destruct (findReSyncTokenType C fuel p); [| discriminate ..]);
    intros Hrun;
    destruct (tryInRepetitionRecovery_loop_provenance _ _ _ _ _ _ _ _ _ _ _
                Hrun) as [p' [Hrule Hp']];
    exists p'; (split; [exact Hrule | exact Hp']).
Qed.

Variable separator : TokClass.
Variable action : M JsValue.
Hypothesis action_disciplined : disciplined action.

Lemma action_input (p : Parser) (v : JsValue) (q : Parser) :
  action p = (Ret v, q) -> _input q = _input p.
Proof.
  intros Hrun.
  destruct (action_disciplined p _ q Hrun) as [(_ & _ & _ & _ & Hin) _];
    [discriminate | exact Hin].
Qed.

Lemma separator_loop_result :
  forall (fuel : nat) (acc : list (option Token)) (p : Parser)
         (res : list (option Token)) (q : Parser),
    separator_loop C fuel separator action acc p = (Ret res, q) ->
    exists news,
      res = acc ++ news /\
      Forall (separator_from_input separator p) news /\
      _input q = _input p.
Proof.
  induction fuel as [| fuel IH]; intros acc p res q Hrun;
    cbn [separator_loop] in Hrun; [discriminate |].
  destruct (separatorLookAheadFunc separator p) eqn:Ela.
  - unfold separatorLookAheadFunc in Ela.
    destruct (LA p 1) as [t |] eqn:HLA; [| discriminate Ela].
    unfold bind at 1 in Hrun. unfold CONSUME, CONSUME1, consumeInternal in Hrun.
    rewrite (consumeInternalOptimized_match C separator p t HLA Ela) in Hrun.
    unfold bind at 1 in Hrun.
    destruct (action (consumeToken p)) as [[v | e |] p1] eqn:Eact;
      [| discriminate ..].
    destruct (IH _ _ _ _ Hrun) as [news [-> [Hall Hin]]].
    pose proof (action_input _ _ _ Eact) as Hin1.
    exists (Some t :: news). split; [| split].
    + unfold push. rewrite <- app_assoc. reflexivity.
    + constructor.
      * split; [exact Ela | eapply LA_from_input; exact HLA].
      * eapply separator_from_input_frame; [| exact Hall].
        rewrite Hin1. reflexivity.
    + rewrite Hin, Hin1. reflexivity.
  - injection Hrun as <- <-. exists []. split; [| split].
    + rewrite app_nil_r. reflexivity.
    + constructor.
    + reflexivity.
Qed.

Lemma repetitionSepSecondInternal_result (name : string) (occ : Z) :
  forall (fuel : nat) (acc : list (option Token)) (p : Parser)
         (res : list (option Token)) (q : Parser),
    repetitionSepSecondInternal C fuel name occ separator action acc p
      = (Ret res, q) ->
    exists news,
      res = acc ++ news /\ Forall (separator_from_input separator p) news.
Proof.
  induction fuel as [| fuel IH]; intros acc p res q Hrun;
    cbn [repetitionSepSecondInternal] in Hrun; [discriminate |].
  unfold bind at 1 in Hrun.
  destruct (separator_loop C fuel separator action acc p)
    as [[sr | e |] q1] eqn:Eloop; [| discriminate ..].
  destruct (separator_loop_result _ _ _ _ _ Eloop) as [news1 [-> [Hall1 Hin1]]].
  destruct (recoveryEnabled q1).
  - unfold bind, ret in Hrun.
    destruct (attemptInRepetitionRecovery C fuel _ _ name occ q1)
      as [[again | e |] q2] eqn:Eatt; [| discriminate ..].
    injection Hrun as <- <-.
    destruct again as [x |]; cbn [default].
    + destruct (attemptInRepetitionRecovery_provenance _ _ _ _ _ _ _ _ Eatt)
        as [p' [Hrule Hp']].
      destruct (IH _ _ _ _ Hrule) as [news2 [-> Hall2]].
      exists (news1 ++ news2). split; [rewrite app_assoc; reflexivity |].
      apply Forall_app. split; [exact Hall1 |].
      eapply separator_from_input_frame; [| exact Hall2]. congruence.
    + exists news1. split; [reflexivity | exact Hall1].
  - injection Hrun as <- <-. exists news1. split; [reflexivity | exact Hall1].
Qed.

Lemma sep_iterations_result (fuel : nat) (name : string) (occ : Z)
  (p : Parser) (res : list (option Token)) (q : Parser) :
  sep_iterations C fuel name occ separator action p = (Ret res, q) ->
  Forall (separator_from_input separator p) res.
Proof.
  change (sep_iterations C fuel name occ separator action)
    with (_ <- action ;;
          repetitionSepSecondInternal C (S fuel) name occ separator action []).
  unfold bind at 1.
  destruct (action p) as [[v | e |] p1] eqn:Eact; [| discriminate ..].
  intros Hrun.
  destruct (repetitionSepSecondInternal_result _ _ _ _ _ _ _ Hrun)
    as [news [-> Hall]].
  cbn [app]. eapply separator_from_input_frame; [| exact Hall].
  symmetry. eapply action_input. exact Eact.
Qed.

(** X15: every token of the array that [MANY_SEP] or [AT_LEAST_ONE_SEP]
    answers is an instance of the separator class that was read from the
    input (or is the end of input token): the [CONSUME] of a separator
    never enters the recovery, also when the repetition is entered again
    by the recovery inside repetitions. *)
Theorem separators_come_from_the_input (fuel : nat) (name : string)
  (occ : Z) (la : Parser -> bool) (errMsg : option string) (p : Parser)
  (res : list (option Token)) (q : Parser) :
  manySepFirstInternal C fuel name occ la separator action p = (Ret res, q) \/
  atLeastOneSepFirstInternal C fuel name occ la separator action errMsg p
    = (Ret res, q) ->
  Forall (separator_from_input separator p) res.
Proof.
  unfold manySepFirstInternal, atLeastOneSepFirstInternal.
  intros [Hrun | Hrun]; destruct (la p).
  - eapply sep_iterations_result. exact Hrun.
  - injection Hrun as <- <-. constructor.
  - eapply sep_iterations_result. exact Hrun.
  - unfold raiseEarlyExitException in Hrun.
    destruct (LA p 1); discriminate Hrun.
Qed.

End SeparatorFacts.

Lemma separators_come_from_the_input_witness :
  let C0 := sample_class [] in
  let ta := mkToken TokA "a" 0 1 false in
  let tc := mkToken TokComma "," 1 2 false in
  let p := mkParser [] true [ta; tc; ta; tc; ta] (-1) [] ["list"] [1]
             None 0 in
  let out := manySepFirstInternal C0 5 "MANY_SEP1" 1
               (fun p => instanceOf (LA p 1) TokA) TokComma
               (sample_rule C0 []) p in
  fst out = Ret [Some tc; Some tc] /\
  Forall (separator_from_input TokComma p) [Some tc; Some tc].
Proof.
  intros C0 ta tc p out. split; [reflexivity |].
  apply (separators_come_from_the_input C0 TokComma (sample_rule C0 [])
           (sample_rule_disciplined C0 []) 5 "MANY_SEP1" 1
           (fun p => instanceOf (LA p 1) TokA) None p [Some tc; Some tc]
           (snd out)).
  left. reflexivity.
Defined.

(** ** The recovery inside a repetition *)

Lemma lookahead_window_snoc (p : Parser) (from : Z) (n : nat) :
  lookahead_window p from (S n)
    = lookahead_window p from n ++ [LA p (from + Z.of_nat n)].
Proof.
  unfold lookahead_window. rewrite seq_S, map_app. reflexivity.
Qed.

Lemma without_EOF_snoc (toks : list (option Token)) (tok : option Token) :
  without_EOF (toks ++ [tok]) = addToResyncTokens tok (without_EOF toks).
Proof.
  unfold without_EOF, addToResyncTokens, push. rewrite List.filter_app.
  cbn [List.filter]. destruct (negb (instanceOf tok EOF)); [reflexivity |].
  apply app_nil_r.
Qed.

Section RepetitionRecoveryFacts.

Variable C : ParserClass.

Section Loop.

Context {A : Type}.
Variable grammarRule : M A.
Variable la : Parser -> bool.
Variable expected resync : TokClass.
Variable p0 : Parser.
Variable t : Token.

(** The parser after [n] tokens were skipped. *)
Let at_n (n : nat) : Parser :=
  set_inputIdx (saveLexerState p0) (inputIdx p0 + Z.of_nat n).

(** The exception that [generateErrorMessage] saves after [n] tokens were
    skipped. *)
Let error_at (n : nat) : RecognitionException :=
  set_resyncedTokens
    (saved_exception MismatchedTokenException
       (getMisMatchTokenErrorMessage C expected t) t p0)
    (dropRight (without_EOF (lookahead_window p0 2 n))).

Lemma tryInRepetitionRecovery_loop_skips (n : nat) :
  (n = 0%nat \/ inputIdx p0 + Z.of_nat n < js_length (_input p0)) ->
  (forall i, (i < n)%nat ->
     instanceOf (LA (at_n i) 1) expected = false /\
     la (at_n i) = false /\
     instanceOf (LA (at_n i) 1) resync = false) ->
  forall (k i fuel : nat),
    (i + k = n)%nat ->
    tryInRepetitionRecovery_loop C (k + fuel) grammarRule la expected resync
      (Some t) (LA (at_n i) 1) (without_EOF (lookahead_window p0 2 i))
      (at_n i)
    = tryInRepetitionRecovery_loop C fuel grammarRule la expected resync
        (Some t) (LA (at_n n) 1) (without_EOF (lookahead_window p0 2 n))
        (at_n n).
Proof.
  intros Hrange Hbefore.
  induction k as [| k IH]; intros i fuel Hik.
  { replace i with n by lia. reflexivity. }
  destruct (Hbefore i ltac:(lia)) as (Hexp & Hla & Hrs).
  cbn [Nat.add tryInRepetitionRecovery_loop]. rewrite Hexp, Hla, Hrs.
  assert (Hskip : SKIP_TOKEN (at_n i) = (LA (at_n (S i)) 1, at_n (S i))).
  { unfold SKIP_TOKEN.
    destruct (Z.leb_spec (inputIdx (at_n i))
                (js_length (_input (at_n i)) - 2)) as [_ | Hgt].
    - assert (Hnext : consumeToken (at_n i) = at_n (S i)).
      { unfold at_n, consumeToken. cbn [set_inputIdx inputIdx]. f_equal.
        lia. }
      rewrite Hnext. reflexivity.
    - exfalso. unfold at_n in Hgt.
      cbn [set_inputIdx inputIdx _input saveLexerState set_savedTokenIdx]
        in Hgt.
      destruct Hrange as [Hzero | Hin]; lia. }
  rewrite Hskip.
  assert (Hacc : addToResyncTokens (LA (at_n (S i)) 1)
                   (without_EOF (lookahead_window p0 2 i))
                 = without_EOF (lookahead_window p0 2 (S i))).
  { rewrite lookahead_window_snoc, without_EOF_snoc. f_equal.
    unfold at_n, LA, saveLexerState.
    cbn [set_inputIdx _input inputIdx set_savedTokenIdx].
    replace (inputIdx p0 + Z.of_nat (S i) + 1)
      with (inputIdx p0 + (2 + Z.of_nat i)) by lia.
    reflexivity. }
  rewrite Hacc. apply IH. lia.
Qed.

Lemma tryInRepetitionRecovery_loop_stops (n fuel : nat) :
  let cur := LA (at_n n) 1 in
  let run :=
    tryInRepetitionRecovery_loop C (S fuel) grammarRule la expected resync
      (Some t) cur (without_EOF (lookahead_window p0 2 n)) (at_n n) in
  (instanceOf cur expected = true ->
     run = (Ret None, after_saving (error_at n) (at_n n))) /\
  (instanceOf cur expected = false -> la (at_n n) = true ->
     run = (match fst (grammarRule (after_saving (error_at n) (at_n n))) with
            | Ret x => Ret (Some x)
            | Throw ex => Throw ex
            | OutOfFuel => OutOfFuel
            end,
            snd (grammarRule (after_saving (error_at n) (at_n n))))) /\
  (instanceOf cur expected = false -> la (at_n n) = false ->
   instanceOf cur resync = true ->
     run = (Ret None, saveLexerState p0)).
Proof.
  intros cur run. subst cur run. cbn [tryInRepetitionRecovery_loop].
  assert (Hgen : generateErrorMessage C expected (Some t)
                   (without_EOF (lookahead_window p0 2 n)) (at_n n)
                 = (Ret tt, after_saving (error_at n) (at_n n)))
    by reflexivity.
  split; [| split].
  - intros ->. unfold bind at 1. rewrite Hgen. reflexivity.
  - intros -> ->. unfold bind at 1. rewrite Hgen. unfold bind, ret.
    destruct (grammarRule (after_saving (error_at n) (at_n n))) as [[x | ex |] q1];
      reflexivity.
  - intros -> -> ->. unfold restoreLexerState, at_n, saveLexerState.
    reflexivity.
Qed.

End Loop.

(** X16: the recovery inside a repetition skips tokens up to the first
    position where the expected token is next, or another iteration can
    start, or the re-sync token is next; at that position the three tests
    are made in this order.  When [n] tokens were skipped before that
    position: if the expected token is next, or else if another iteration
    can start, exactly one MismatchedTokenException is saved for the token
    that was [LA(1)] at the start, with the rule stacks, whose
    [resyncedTokens] are [LA(2)] ... [LA(n + 1)] without end of input
    tokens and without the last one, and in the second case the repetition
    is entered again and its outcome is the outcome; only otherwise, with
    the re-sync token next, the recovery gives up: the input index is
    restored and nothing was saved. *)
Theorem in_repetition_recovery_outcomes {A : Type} (fuel : nat)
  (grammarRule : M A) (la : Parser -> bool) (expected resync : TokClass)
  (p : Parser) (t : Token) (n : nat) :
  LA p 1 = Some t ->
  findReSyncTokenType C fuel p = Ret resync ->
  (n < fuel)%nat ->
  (n = 0%nat \/ inputIdx p + Z.of_nat n < js_length (_input p)) ->
  let at_ := fun i : nat =>
    set_inputIdx (saveLexerState p) (inputIdx p + Z.of_nat i) in
  let e :=
    set_resyncedTokens
      (saved_exception MismatchedTokenException
         (getMisMatchTokenErrorMessage C expected t) t p)
      (dropRight (without_EOF (lookahead_window p 2 n))) in
  (forall i, (i < n)%nat ->
     instanceOf (LA (at_ i) 1) expected = false /\
     la (at_ i) = false /\
     instanceOf (LA (at_ i) 1) resync = false) ->
  let run := tryInRepetitionRecovery C fuel grammarRule la expected p in
  (instanceOf (LA (at_ n) 1) expected = true ->
     run = (Ret None, after_saving e (at_ n))) /\
  (instanceOf (LA (at_ n) 1) expected = false -> la (at_ n) = true ->
     run = (match fst (grammarRule (after_saving e (at_ n))) with
            | Ret x => Ret (Some x)
            | Throw ex => Throw ex
            | OutOfFuel => OutOfFuel
            end,
            snd (grammarRule (after_saving e (at_ n))))) /\
  (instanceOf (LA (at_ n) 1) expected = false -> la (at_ n) = false ->
   instanceOf (LA (at_ n) 1) resync = true ->
     run = (Ret None, saveLexerState p)).
Proof.
  intros Ht Hfind Hfuel Hrange at_ e Hbefore run.
  assert (Hstart : saveLexerState p = at_ 0%nat).
  { unfold at_. rewrite Z.add_0_r. destruct p; reflexivity. }
  assert (Hrun : run
            = tryInRepetitionRecovery_loop C (S (fuel - S n)) grammarRule la
                expected resync (Some t) (LA (at_ n) 1)
                (without_EOF (lookahead_window p 2 n)) (at_ n)).
  { unfold run, tryInRepetitionRecovery. rewrite Hfind. cbv zeta.
    transitivity
      (tryInRepetitionRecovery_loop C (n + S (fuel - S n)) grammarRule la
         expected resync (Some t) (LA (at_ 0%nat) 1)
         (without_EOF (lookahead_window p 2 0)) (at_ 0%nat)).
    - rewrite <- Hstart. change (LA (saveLexerState p) 1) with (LA p 1).
      rewrite Ht. replace (n + S (fuel - S n))%nat with fuel by lia.
      reflexivity.
    - exact (tryInRepetitionRecovery_loop_skips grammarRule la expected
               resync p t n Hrange Hbefore n 0%nat (S (fuel - S n))
               ltac:(lia)). }
  rewrite Hrun.
  exact (tryInRepetitionRecovery_loop_stops grammarRule la expected resync p
           t n (fuel - S n)).
Qed.

End RepetitionRecoveryFacts.

Lemma in_repetition_recovery_outcomes_witness :
  let C0 := sample_class [] in
  let ta := mkToken TokA "a" 0 1 false in
  let tb := mkToken TokB "b" 1 2 false in
  let tc := mkToken TokComma "," 2 3 false in
  let p := mkParser [] true [tb; tb; tc; ta] (-1) [] ["list"] [1] None 0 in
  let la := fun p => instanceOf (LA p 1) TokComma in
  let at_2 := set_inputIdx (saveLexerState p) 1 in
  let e :=
    set_resyncedTokens
      (saved_exception MismatchedTokenException
         (getMisMatchTokenErrorMessage C0 TokA tb) tb p)
      [Some tb] in
  tryInRepetitionRecovery C0 6 (ret tt) la TokA p
    = (Ret (Some tt), after_saving e at_2).
Proof.
  intros C0 ta tb tc p la at_2 e.
  refine (proj1 (proj2 (in_repetition_recovery_outcomes C0 6 (ret tt) la TokA
                          EOF p tb 2 _ _ _ _ _)) _ _).
  - reflexivity.
  - vm_compute. reflexivity.
  - lia.
  - right. vm_compute. reflexivity.
  - intros i Hi.
    destruct i as [| [| i]]; [vm_compute; auto | vm_compute; auto | lia].
  - vm_compute. reflexivity.
  - vm_compute. reflexivity.
Defined.

(** ** The utilities of the grammar AST *)

Module gast_util_facts.

Import gast gast_util.

Lemma cloneProduction_constructor (prod : IProduction) (next : nat) :
  constructor_of (fst (cloneProduction prod next)) = constructor_of prod.
Proof.
  unfold cloneProduction.
  destruct prod as [o name d t | o d | o name r occ | o ty occ | o d occ
                   | o d occ | o d occ | o d sep occ | o d sep occ | o d occ];
    try reflexivity;
    gast_facts.visit_equations; destruct (visit_each d next); reflexivity.
Qed.

(** X17: a production is a sequence or a branching, never both, and the
    non terminals are the only productions that are neither; the class of
    a production, and with it both answers, is kept by
    [cloneProduction]. *)
Theorem production_kinds (prod : IProduction) (next : nat) :
  let clone := fst (cloneProduction prod next) in
  isSequenceProd prod && isBranchingProd prod = false /\
  (isSequenceProd prod || isBranchingProd prod = false
     <-> instanceof prod CNonTerminal = true) /\
  constructor_of clone = constructor_of prod /\
  isSequenceProd clone = isSequenceProd prod /\
  isBranchingProd clone = isBranchingProd prod.
Proof.
  intros clone.
  assert (Hc : constructor_of clone = constructor_of prod)
    by apply cloneProduction_constructor.
  split; [| split; [| split; [exact Hc | split]]].
  - destruct prod; reflexivity.
  - destruct prod; vm_compute; split; congruence.
  - unfold isSequenceProd, instanceof. rewrite Hc. reflexivity.
  - unfold isBranchingProd, instanceof. rewrite Hc. reflexivity.
Qed.

(** X18: [getProductionDslName] answers [undefined] exactly for a [Rule]
    and for a [Flat], which have no entry in the table of names; the
    productions of two different classes never share a name, and a clone
    has the name of its original. *)
Theorem dsl_names (prod : IProduction) (next : nat) :
  (getProductionDslName prod = None
     <-> instanceof prod CRule || instanceof prod CFlat = true) /\
  (forall other,
     getProductionDslName prod <> None ->
     getProductionDslName other = getProductionDslName prod ->
     constructor_of other = constructor_of prod) /\
  getProductionDslName (fst (cloneProduction prod next))
    = getProductionDslName prod.
Proof.
  split; [| split].
  - destruct prod; vm_compute; split; congruence.
  - intros other. unfold getProductionDslName. cbv zeta.
    destruct (constructor_of prod), (constructor_of other);
      vm_compute; congruence.
  - unfold getProductionDslName. rewrite cloneProduction_constructor.
    reflexivity.
Qed.

Lemma some_with_pure {A S : Type} (f : A -> S -> option (bool * S))
  (g : A -> bool) (arr : list A) :
  Forall (fun x => forall s, f x s = Some (g x, s)) arr ->
  forall s, some_with f arr s = Some (existsb g arr, s).
Proof.
  induction 1 as [| x xs Hx _ IH]; intros s; cbn [some_with existsb];
    [reflexivity |].
  rewrite Hx. destruct (g x); [reflexivity | apply IH].
Qed.

Lemma every_with_pure {A S : Type} (f : A -> S -> option (bool * S))
  (g : A -> bool) (arr : list A) :
  Forall (fun x => forall s, f x s = Some (g x, s)) arr ->
  forall s, every_with f arr s = Some (forallb g arr, s).
Proof.
  induction 1 as [| x xs Hx _ IH]; intros s; cbn [every_with forallb];
    [reflexivity |].
  rewrite Hx. destruct (g x); [apply IH | reflexivity].
Qed.

Lemma children_below (d : list IProduction) (fuel : nat) :
  forallb reference_free d = true ->
  (list_max (map height d) <= fuel)%nat ->
  Forall (fun x => reference_free x = true /\ (height x <= fuel)%nat) d.
Proof.
  induction d as [| x xs IH]; intros Hrf Hh; [constructor |].
  cbn [forallb map list_max fold_right] in Hrf, Hh.
  change (fold_right Init.Nat.max 0%nat (map height xs))
    with (list_max (map height xs)) in Hh.
  apply andb_true_iff in Hrf as [Hx Hxs].
  constructor; [split; [exact Hx | lia] |].
  apply IH; [exact Hxs | lia].
Qed.

Lemma isOptionalProd_pure (referencedDefinition : IProduction -> list IProduction) :
  forall (fuel : nat) (prod : IProduction) (visited : list nat),
    reference_free prod = true -> (height prod <= fuel)%nat ->
    isOptionalProd referencedDefinition fuel prod visited
      = Some (optional_shape prod, visited).
Proof.
  induction fuel as [| fuel IH]; intros prod visited Hrf Hh.
  { destruct prod; cbn [height] in Hh; lia. }
  assert (Hkids : forall d,
            forallb reference_free d = true ->
            (list_max (map height d) <= fuel)%nat ->
            Forall (fun x => forall s,
                      isOptionalProd referencedDefinition fuel x s
                        = Some (optional_shape x, s)) d).
  { intros d Hd Hm. eapply Forall_impl; [apply children_below; eassumption |].
    cbn. intros x [Hx Hhx] s. apply IH; assumption. }
  destruct prod as [o name d t | o d | o name r occ | o ty occ | o d occ
                   | o d occ | o d occ | o d sep occ | o d sep occ | o d occ];
    cbn [reference_free height] in Hrf, Hh; try discriminate Hrf;
    try reflexivity.
  all: cbn [isOptionalProd]; unfold instanceof, instanceof_AbstractProduction;
    cbn [constructor_of]; cbn -[some_with every_with isOptionalProd].
  all: first [ apply every_with_pure | apply some_with_pure ];
    apply Hkids; [exact Hrf | lia].
Qed.

Lemma existsb_map_ext {A : Type} (f : A -> bool) (g : A -> A) (l : list A) :
  Forall (fun x => f (g x) = f x) l -> existsb f (map g l) = existsb f l.
Proof.
  induction 1 as [| x xs Hx _ IH]; cbn [map existsb]; [reflexivity |].
  rewrite Hx, IH. reflexivity.
Qed.

Lemma forallb_map_ext {A : Type} (f : A -> bool) (g : A -> A) (l : list A) :
  Forall (fun x => f (g x) = f x) l -> forallb f (map g l) = forallb f l.
Proof.
  induction 1 as [| x xs Hx _ IH]; cbn [map forallb]; [reflexivity |].
  rewrite Hx, IH. reflexivity.
Qed.

Lemma list_max_map_ext {A : Type} (f : A -> nat) (g : A -> A) (l : list A) :
  Forall (fun x => f (g x) = f x) l ->
  list_max (map f (map g l)) = list_max (map f l).
Proof.
  induction 1 as [| x xs Hx _ IH]; cbn [map list_max fold_right];
    [reflexivity |].
  rewrite Hx. unfold list_max in IH. rewrite IH. reflexivity.
Qed.

(** Shape, height and the absence of non terminals are read off the
    structure of a tree. *)
Lemma structure_determines (node : IProduction) :
  optional_shape (structure node) = optional_shape node /\
  height (structure node) = height node /\
  reference_free (structure node) = reference_free node.
Proof.
  induction node as [node IH] using gast_facts.IProduction_ind_nested.
  assert (H1 : Forall (fun x => optional_shape (structure x)
                               = optional_shape x) (definition_of node))
    by (eapply Forall_impl; [exact IH |]; cbn; tauto).
  assert (H2 : Forall (fun x => height (structure x) = height x)
                 (definition_of node))
    by (eapply Forall_impl; [exact IH |]; cbn; tauto).
  assert (H3 : Forall (fun x => reference_free (structure x)
                               = reference_free x) (definition_of node))
    by (eapply Forall_impl; [exact IH |]; cbn; tauto).
  destruct node as [o name d t | o d | o name r occ | o ty occ | o d occ
                   | o d occ | o d occ | o d sep occ | o d sep occ | o d occ];
    cbn [definition_of] in H1, H2, H3;
    cbn [structure optional_shape height reference_free];
    rewrite ?(existsb_map_ext _ _ _ H1), ?(forallb_map_ext _ _ _ H1),
      ?(forallb_map_ext _ _ _ H3), ?(list_max_map_ext _ _ _ H2);
    repeat split; reflexivity.
Qed.

(** X19: on a tree without non terminals [isOptionalProd] ends within as
    many nested calls as the tree has levels and is a function of the tree
    alone: the answer depends neither on [alreadyVisited], which it leaves
    as it is, nor on the rule references, and the clone of the tree gets
    the same answer. *)
Theorem isOptionalProd_reference_free (prod : IProduction) :
  reference_free prod = true ->
  exists answer,
    forall (referencedDefinition : IProduction -> list IProduction)
           (fuel : nat) (alreadyVisited : list nat) (next : nat),
      (height prod <= fuel)%nat ->
      isOptionalProd referencedDefinition fuel prod alreadyVisited
        = Some (answer, alreadyVisited) /\
      isOptionalProd referencedDefinition fuel
        (fst (cloneProduction prod next)) alreadyVisited
        = Some (answer, alreadyVisited).
Proof.
  intros Hrf. exists (optional_shape prod).
  intros referencedDefinition fuel visited next Hh.
  split; [apply isOptionalProd_pure; assumption |].
  pose proof (gast_facts.visit_copies prod next) as Hcopy.
  unfold cloneProduction. destruct (visit prod next) as [clone next'].
  destruct Hcopy as [Hs _]. cbn [fst].
  destruct (structure_determines prod) as (p1 & p2 & p3).
  destruct (structure_determines clone) as (c1 & c2 & c3).
  rewrite Hs in c1, c2, c3.
  rewrite isOptionalProd_pure by congruence. congruence.
Qed.

Lemma isOptionalProd_reference_free_witness :
  let a := Terminal 1 TokA 1 in
  let b := Terminal 2 TokB 1 in
  let prod := Rule 7 "list"
                [Alternation 6 [Flat 3 [a]; Flat 5 [Option 4 [b] 1]] 1]
                "list" in
  exists answer,
    forall (referencedDefinition : IProduction -> list IProduction)
           (fuel : nat) (alreadyVisited : list nat) (next : nat),
      (height prod <= fuel)%nat ->
      isOptionalProd referencedDefinition fuel prod alreadyVisited
        = Some (answer, alreadyVisited) /\
      isOptionalProd referencedDefinition fuel
        (fst (cloneProduction prod next)) alreadyVisited
        = Some (answer, alreadyVisited).
Proof.
  intros a b prod. apply (isOptionalProd_reference_free prod). reflexivity.
Defined.

Lemma some_with_grows {A : Type} (f : A -> list nat -> option (bool * list nat))
  (arr : list A) :
  Forall (fun x => forall s b s', f x s = Some (b, s') ->
                     exists more, s' = s ++ more) arr ->
  forall s b s', some_with f arr s = Some (b, s') ->
                 exists more, s' = s ++ more.
Proof.
  induction 1 as [| x xs Hx _ IH]; intros s b s' Hrun;
    cbn [some_with] in Hrun.
  - injection Hrun as _ <-. exists []. rewrite app_nil_r. reflexivity.
  - destruct (f x s) as [[[|] s1] |] eqn:Ex; [| | discriminate].
    + injection Hrun as _ <-. eapply Hx. exact Ex.
    + destruct (Hx _ _ _ Ex) as [m1 ->].
      destruct (IH _ _ _ Hrun) as [m2 ->].
      exists (m1 ++ m2). rewrite app_assoc. reflexivity.
Qed.

Lemma every_with_grows {A : Type} (f : A -> list nat -> option (bool * list nat))
  (arr : list A) :
  Forall (fun x => forall s b s', f x s = Some (b, s') ->
                     exists more, s' = s ++ more) arr ->
  forall s b s', every_with f arr s = Some (b, s') ->
                 exists more, s' = s ++ more.
Proof.
  induction 1 as [| x xs Hx _ IH]; intros s b s' Hrun;
    cbn [every_with] in Hrun.
  - injection Hrun as _ <-. exists []. rewrite app_nil_r. reflexivity.
  - destruct (f x s) as [[[|] s1] |] eqn:Ex; [| | discriminate].
    + destruct (Hx _ _ _ Ex) as [m1 ->].
      destruct (IH _ _ _ Hrun) as [m2 ->].
      exists (m1 ++ m2). rewrite app_assoc. reflexivity.
    + injection Hrun as _ <-. eapply Hx. exact Ex.
Qed.

Lemma isOptionalProd_grows
  (referencedDefinition : IProduction -> list IProduction) :
  forall fuel prod visited answer visited',
    isOptionalProd referencedDefinition fuel prod visited
      = Some (answer, visited') ->
    exists more, visited' = visited ++ more.
Proof.
  induction fuel as [| fuel IH]; intros prod visited answer visited'
    Hrun; cbn [isOptionalProd] in Hrun; [discriminate |].
  assert (Hall : forall d,
            Forall (fun x => forall s b s',
                      isOptionalProd referencedDefinition fuel x s
                        = Some (b, s') ->
                      exists more, s' = s ++ more) d).
  { intros d. apply Forall_forall. intros x _ s b s'. apply IH. }
  destruct (instanceof prod COption || instanceof prod CRepetition
            || instanceof prod CRepetitionWithSeparator).
  { injection Hrun as _ <-. exists []. rewrite app_nil_r. reflexivity. }
  destruct (instanceof prod CAlternation).
  { eapply some_with_grows; [apply Hall | exact Hrun]. }
  destruct (instanceof prod CNonTerminal
            && bool_decide (oid_of prod ∈ visited)).
  { injection Hrun as _ <-. exists []. rewrite app_nil_r. reflexivity. }
  destruct (instanceof_AbstractProduction prod).
  - destruct (every_with_grows _ _ (Hall _) _ _ _ Hrun) as [more ->].
    destruct (instanceof prod CNonTerminal).
    + exists ([oid_of prod] ++ more). unfold push.
      rewrite <- app_assoc. reflexivity.
    + exists more. reflexivity.
  - injection Hrun as _ <-. exists []. rewrite app_nil_r. reflexivity.
Qed.

(** What an answer of [isOptionalProd] for a non terminal tells. *)
Lemma isOptionalProd_non_terminal
  (referencedDefinition : IProduction -> list IProduction) (fuel : nat)
  (prod : IProduction) (alreadyVisited : list nat) (answer : bool)
  (visited' : list nat) :
  isOptionalProd referencedDefinition fuel prod alreadyVisited
    = Some (answer, visited') ->
  instanceof prod CNonTerminal = true ->
  (oid_of prod ∈ alreadyVisited ->
     answer = false /\ visited' = alreadyVisited) /\
  oid_of prod ∈ visited'.
Proof.
  intros Hrun Hnt.
  destruct fuel as [| fuel]; cbn [isOptionalProd] in Hrun; [discriminate |].
  destruct prod as [o name d t | o d | o name r occ | o ty occ | o d occ
                   | o d occ | o d occ | o d sep occ | o d sep occ | o d occ];
    try discriminate Hnt.
  unfold instanceof, instanceof_AbstractProduction in Hrun.
  cbn [constructor_of oid_of] in *.
  cbn -[every_with isOptionalProd bool_decide] in Hrun.
  destruct (bool_decide (o ∈ alreadyVisited)) eqn:Evis.
  - injection Hrun as <- <-. apply bool_decide_eq_true in Evis.
    split; [intros _; split; reflexivity | exact Evis].
  - apply bool_decide_eq_false in Evis. split; [intros Hin; contradiction |].
    destruct (every_with_grows _ _
                ltac:(apply Forall_forall; intros x _ s b s';
                      apply isOptionalProd_grows) _ _ _ Hrun) as [more ->].
    unfold push. apply elem_of_app. left. apply elem_of_app. right.
    apply list_elem_of_singleton. reflexivity.
Qed.

(** A non terminal that was visited is answered at once, whatever rule it
    references. *)
Lemma isOptionalProd_visited_at_once
  (referencedDefinition : IProduction -> list IProduction) (fuel : nat)
  (prod : IProduction) (alreadyVisited : list nat) :
  instanceof prod CNonTerminal = true ->
  oid_of prod ∈ alreadyVisited ->
  isOptionalProd referencedDefinition (S fuel) prod alreadyVisited
    = Some (false, alreadyVisited).
Proof.
  intros Hnt Hin.
  destruct prod as [o name d t | o d | o name r occ | o ty occ | o d occ
                   | o d occ | o d occ | o d sep occ | o d sep occ | o d occ];
    try discriminate Hnt.
  cbn [isOptionalProd]. unfold instanceof. cbn [constructor_of oid_of] in *.
  rewrite (bool_decide_eq_true_2 (o ∈ alreadyVisited) Hin). reflexivity.
Qed.

Lemma height_positive (prod : IProduction) : (1 <= height prod)%nat.
Proof. destruct prod; cbn [height]; lia. Qed.

Lemma height_child (prod x : IProduction) :
  x ∈ definition_of prod -> (height x < height prod)%nat.
Proof.
  intros Hx.
  assert (Hmax : forall d : list IProduction,
            x ∈ d -> (height x <= list_max (map height d))%nat).
  { induction d as [| y ys IH]; intros Hin.
    - apply elem_of_nil in Hin. contradiction.
    - cbn [map list_max fold_right].
      change (fold_right Init.Nat.max 0%nat (map height ys))
        with (list_max (map height ys)).
      apply elem_of_cons in Hin as [-> | Hin]; [lia |].
      specialize (IH Hin). lia. }
  destruct prod as [o name d t | o d | o name r occ | o ty occ | o d occ
                   | o d occ | o d occ | o d sep occ | o d sep occ | o d occ];
    cbn [definition_of] in Hx;
    try (apply elem_of_nil in Hx; contradiction);
    cbn [height]; specialize (Hmax d Hx); lia.
Qed.

Lemma unvisited_app (nts visited more : list nat) :
  (unvisited nts (visited ++ more) <= unvisited nts visited)%nat.
Proof.
  unfold unvisited. apply subseteq_size. intros x Hx.
  apply elem_of_difference in Hx as [Hin Hnot].
  apply elem_of_difference. split; [exact Hin |].
  intros Hold. apply Hnot. apply elem_of_list_to_set, elem_of_app.
  left. apply elem_of_list_to_set in Hold. exact Hold.
Qed.

Lemma unvisited_push (nts visited : list nat) (o : nat) :
  o ∈ nts -> o ∉ visited ->
  (unvisited nts (push visited o) < unvisited nts visited)%nat.
Proof.
  intros Hin Hnot. unfold unvisited, push. apply subset_size. split.
  - intros x Hx. apply elem_of_difference in Hx as [Hx Hnew].
    apply elem_of_difference. split; [exact Hx |].
    intros Hold. apply Hnew. apply elem_of_list_to_set, elem_of_app.
    left. apply elem_of_list_to_set in Hold. exact Hold.
  - intros Hsub.
    assert (Ho : o ∈ (list_to_set nts ∖ list_to_set visited : gset nat)).
    { apply elem_of_difference. split; [apply elem_of_list_to_set; exact Hin |].
      intros Hold. apply Hnot. apply elem_of_list_to_set in Hold.
      exact Hold. }
    apply Hsub in Ho. apply elem_of_difference in Ho as [_ Hnew].
    apply Hnew. apply elem_of_list_to_set, elem_of_app. right.
    apply list_elem_of_singleton. reflexivity.
Qed.

Lemma some_with_ends {A : Type}
  (f : A -> list nat -> option (bool * list nat)) (Inv : list nat -> Prop)
  (arr : list A) :
  (forall s more, Inv s -> Inv (s ++ more)) ->
  Forall (fun x => forall s, Inv s ->
            exists b more, f x s = Some (b, s ++ more)) arr ->
  forall s, Inv s -> exists b more, some_with f arr s = Some (b, s ++ more).
Proof.
  intros Hinv. induction 1 as [| x xs Hx _ IH]; intros s Hs;
    cbn [some_with].
  - exists false, []. rewrite app_nil_r. reflexivity.
  - destruct (Hx s Hs) as (b & m1 & ->). destruct b.
    + exists true, m1. reflexivity.
    + destruct (IH (s ++ m1) (Hinv _ _ Hs)) as (b & m2 & ->).
      exists b, (m1 ++ m2). rewrite app_assoc. reflexivity.
Qed.

Lemma every_with_ends {A : Type}
  (f : A -> list nat -> option (bool * list nat)) (Inv : list nat -> Prop)
  (arr : list A) :
  (forall s more, Inv s -> Inv (s ++ more)) ->
  Forall (fun x => forall s, Inv s ->
            exists b more, f x s = Some (b, s ++ more)) arr ->
  forall s, Inv s -> exists b more, every_with f arr s = Some (b, s ++ more).
Proof.
  intros Hinv. induction 1 as [| x xs Hx _ IH]; intros s Hs;
    cbn [every_with].
  - exists true, []. rewrite app_nil_r. reflexivity.
  - destruct (Hx s Hs) as (b & m1 & ->). destruct b.
    + destruct (IH (s ++ m1) (Hinv _ _ Hs)) as (b & m2 & ->).
      exists b, (m1 ++ m2). rewrite app_assoc. reflexivity.
    + exists false, m1. reflexivity.
Qed.

Section OptionalEnds.

Variable referencedDefinition : IProduction -> list IProduction.

(** The productions of a grammar: a collection closed under the
    [definition] that [isOptionalProd] reads, of trees of at most [H]
    levels, whose non terminal objects are listed in [nts]. *)
Variable G : IProduction -> Prop.
Variable nts : list nat.
Variable H : nat.
Hypothesis G_closed :
  forall prod x, G prod -> x ∈ definition_read referencedDefinition prod ->
                 G x.
Hypothesis G_height : forall prod, G prod -> (height prod <= H)%nat.
Hypothesis G_nts :
  forall prod, G prod -> instanceof prod CNonTerminal = true ->
               oid_of prod ∈ nts.

Lemma isOptionalProd_ends :
  forall (fuel : nat) (prod : IProduction) (visited : list nat) (h u : nat),
    G prod -> (height prod <= h)%nat -> (h <= H)%nat ->
    (unvisited nts visited <= u)%nat -> (h + u * H <= fuel)%nat ->
    exists answer more,
      isOptionalProd referencedDefinition fuel prod visited
        = Some (answer, visited ++ more).
Proof.
  induction fuel as [| fuel IH]; intros prod visited h u HG Hh HhH Hu Hfuel.
  { pose proof (height_positive prod). lia. }
  pose proof (height_positive prod) as Hpos.
  assert (Hkids : forall (d : list IProduction) (h' u' : nat),
            (forall x, x ∈ d -> G x /\ (height x <= h')%nat) ->
            (h' <= H)%nat -> (h' + u' * H <= fuel)%nat ->
            Forall (fun x => forall s, (unvisited nts s <= u')%nat ->
                      exists b more,
                        isOptionalProd referencedDefinition fuel x s
                          = Some (b, s ++ more)) d).
  { intros d h' u' Hd Hh' Hf. apply Forall_forall. intros x Hx s Hs.
    destruct (Hd x Hx) as [HGx Hhx].
    exact (IH x s h' u' HGx Hhx Hh' Hs Hf). }
  assert (Hinv : forall u' s more,
            (unvisited nts s <= u')%nat ->
            (unvisited nts (s ++ more) <= u')%nat).
  { intros u' s more Hs. pose proof (unvisited_app nts s more). lia. }
  assert (Hown : forall x, x ∈ definition_of prod ->
            instanceof prod CNonTerminal = false ->
            G x /\ (height x <= h - 1)%nat).
  { intros x Hx Hnt. split.
    - apply (G_closed prod x HG).
      destruct prod; try exact Hx; discriminate Hnt.
    - pose proof (height_child prod x Hx). lia. }
  cbn [isOptionalProd].
  destruct (instanceof prod COption || instanceof prod CRepetition
            || instanceof prod CRepetitionWithSeparator).
  { exists true, []. rewrite app_nil_r. reflexivity. }
  destruct (instanceof prod CAlternation) eqn:Ealt.
  { apply (some_with_ends _ (fun s => (unvisited nts s <= u)%nat) _ (Hinv u)).
    - apply (Hkids _ (h - 1)%nat u); [| lia | lia].
      intros x Hx. apply Hown; [exact Hx |].
      destruct prod; try discriminate Ealt; reflexivity.
    - exact Hu. }
  destruct (instanceof prod CNonTerminal) eqn:Ent; cbn [andb].
  - destruct (bool_decide (oid_of prod ∈ visited)) eqn:Evis.
    { exists false, []. rewrite app_nil_r. reflexivity. }
    apply bool_decide_eq_false in Evis.
    assert (Habs : instanceof_AbstractProduction prod = true)
      by (destruct prod; try discriminate Ent; reflexivity).
    rewrite Habs.
    pose proof (unvisited_push nts visited (oid_of prod)
                  (G_nts prod HG Ent) Evis) as Hless.
    destruct (every_with_ends (isOptionalProd referencedDefinition fuel)
                (fun s => (unvisited nts s <= u - 1)%nat)
                (definition_read referencedDefinition prod)
                (Hinv (u - 1)%nat)) with (s := push visited (oid_of prod))
      as (b & more & Hrun).
    + apply (Hkids _ H (u - 1)%nat); [| lia | nia].
      intros x Hx. split; [exact (G_closed prod x HG Hx) |].
      apply G_height. exact (G_closed prod x HG Hx).
    + lia.
    + exists b, ([oid_of prod] ++ more). rewrite Hrun. unfold push.
      rewrite <- app_assoc. reflexivity.
  - destruct (instanceof_AbstractProduction prod) eqn:Eabs.
    + assert (Hread : definition_read referencedDefinition prod
                      = definition_of prod)
        by (destruct prod; try discriminate Ent; reflexivity).
      rewrite Hread.
      apply (every_with_ends _ (fun s => (unvisited nts s <= u)%nat) _
               (Hinv u)).
      * apply (Hkids _ (h - 1)%nat u); [| lia | lia].
        intros x Hx. apply Hown; [exact Hx | reflexivity].
      * exact Hu.
    + exists false, []. rewrite app_nil_r. reflexivity.
Qed.

(** X20: on the productions of a grammar with finitely many non terminal
    objects [isOptionalProd] always ends, also when rules reference
    themselves or each other: a number of nested calls that is the number
    of levels of a rule for every non terminal not yet in [alreadyVisited],
    and once more, is enough.  It only ever appends to [alreadyVisited].
    A non terminal that is in [alreadyVisited] is answered [false] at
    once, whatever rule it references, and one that is not is in the
    array afterwards. *)
Theorem isOptionalProd_visited (fuel : nat) (prod : IProduction)
  (alreadyVisited : list nat) :
  G prod ->
  (H * S (unvisited nts alreadyVisited) <= fuel)%nat ->
  exists answer more,
    isOptionalProd referencedDefinition fuel prod alreadyVisited
      = Some (answer, alreadyVisited ++ more) /\
    (instanceof prod CNonTerminal = true ->
       (oid_of prod ∈ alreadyVisited ->
          answer = false /\ more = [] /\
          forall otherDefinition : IProduction -> list IProduction,
            isOptionalProd otherDefinition fuel prod alreadyVisited
              = Some (false, alreadyVisited)) /\
       oid_of prod ∈ alreadyVisited ++ more).
Proof.
  intros HG Hfuel.
  destruct (isOptionalProd_ends fuel prod alreadyVisited H
              (unvisited nts alreadyVisited) HG (G_height prod HG)
              ltac:(lia) ltac:(lia) ltac:(lia)) as (answer & more & Hrun).
  exists answer, more. split; [exact Hrun |].
  intros Hnt.
  destruct (isOptionalProd_non_terminal _ _ _ _ _ _ Hrun Hnt)
    as [Hvis Hin].
  split; [| exact Hin].
  intros Hold. destruct (Hvis Hold) as [-> Heq].
  split; [reflexivity |]. split.
  - apply (app_inv_head alreadyVisited). rewrite app_nil_r. exact Heq.
  - intros otherDefinition.
    pose proof (height_positive prod). pose proof (G_height prod HG).
    destruct fuel as [| fuel]; [nia |].
    apply isOptionalProd_visited_at_once; assumption.
Qed.

End OptionalEnds.

Lemma isOptionalProd_visited_witness :
  let nt := NonTerminal 1 "list" (Some 2%nat) 1 in
  let rule := Rule 2 "list" [nt] "list" in
  let referencedDefinition := fun _ : IProduction => [nt] in
  (exists answer more,
     isOptionalProd referencedDefinition 4 rule [] = Some (answer, more)) /\
  isOptionalProd referencedDefinition 4 rule [] = Some (false, [1%nat]) /\
  isOptionalProd referencedDefinition 2 nt [1%nat] = Some (false, [1%nat]).
Proof.
  intros nt rule referencedDefinition.
  assert (Hclosed : forall prod x : IProduction,
            prod = rule \/ prod = nt ->
            x ∈ definition_read referencedDefinition prod ->
            x = rule \/ x = nt).
  { intros prod x [-> | ->] Hx; right;
      apply list_elem_of_singleton in Hx; exact Hx. }
  assert (Hheight : forall prod : IProduction,
            prod = rule \/ prod = nt -> (height prod <= 2)%nat).
  { intros prod [-> | ->]; cbn; lia. }
  assert (Hnts : forall prod : IProduction,
            prod = rule \/ prod = nt ->
            instanceof prod CNonTerminal = true -> oid_of prod ∈ [1%nat]).
  { intros prod [-> | ->] Hnt; [discriminate Hnt |].
    apply list_elem_of_singleton. reflexivity. }
  split; [| split; [reflexivity |]].
  - destruct (isOptionalProd_visited referencedDefinition
                (fun x => x = rule \/ x = nt) [1%nat] 2 Hclosed Hheight Hnts
                4 rule []) as (answer & more & Hrun & _).
    + left. reflexivity.
    + vm_compute. lia.
    + exists answer, more. exact Hrun.
  - destruct (isOptionalProd_visited referencedDefinition
                (fun x => x = rule \/ x = nt) [1%nat] 2 Hclosed Hheight Hnts
                2 nt [1%nat]) as (answer & more & Hrun & Hnt).
    + right. reflexivity.
    + vm_compute. lia.
    + destruct (Hnt eq_refl) as [Hvis _].
      destruct Hvis as (-> & -> & _).
      * apply list_elem_of_singleton. reflexivity.
      * exact Hrun.
Defined.

End gast_util_facts.

(** ** The productions that self analysis caches *)

Module analysis_more_facts.

Import gast analysis.

Lemma visit_each_all_copies (d : list IProduction) (next : nat) :
  let '(d', next') := visit_each d next in
  map structure d' = map structure d /\
  forallb references_unset d' = true /\
  (next <= next')%nat /\
  Forall (fun o => (next <= o < next')%nat) (flat_map oids d').
Proof.
  apply gast_facts.visit_each_copies. apply Forall_forall.
  intros x _. apply gast_facts.visit_copies.
Qed.

Lemma visit_each_NoDup (d : list IProduction) :
  Forall (fun x => forall next, NoDup (oids (fst (visit x next)))) d ->
  forall next, NoDup (flat_map oids (fst (visit_each d next))).
Proof.
  induction 1 as [| x xs Hx _ IH]; intros next; cbn [visit_each].
  - constructor.
  - pose proof (gast_facts.visit_copies x next) as Hcx.
    specialize (Hx next).
    destruct (visit x next) as [x' n1]. cbn [fst] in Hx.
    destruct Hcx as (_ & _ & _ & Hrx).
    pose proof (visit_each_all_copies xs n1) as Hcxs.
    specialize (IH n1).
    destruct (visit_each xs n1) as [xs' n2]. cbn [fst] in IH |- *.
    destruct Hcxs as (_ & _ & _ & Hrxs).
    cbn [flat_map]. apply NoDup_app. split; [exact Hx |].
    split; [| exact IH].
    intros o Ho Ho'. rewrite Forall_forall in Hrx, Hrxs.
    specialize (Hrx o Ho). specialize (Hrxs o Ho'). lia.
Qed.

Lemma visit_NoDup (node : IProduction) :
  forall next, NoDup (oids (fst (visit node next))).
Proof.
  induction node as [node IH] using gast_facts.IProduction_ind_nested.
  intros next.
  destruct node as [o name d t | o d | o name r occ | o ty occ | o d occ
                   | o d occ | o d occ | o d sep occ | o d sep occ | o d occ];
    cbn [definition_of] in IH;
    try (cbn; apply NoDup_singleton).
  all: gast_facts.visit_equations;
    pose proof (visit_each_NoDup d IH next) as Hnd;
    pose proof (visit_each_all_copies d next) as Hcd;
    destruct (visit_each d next) as [d' n']; cbn [fst] in Hnd |- *;
    destruct Hcd as (_ & _ & _ & Hr);
    cbn [oids]; apply NoDup_cons; (split; [| exact Hnd]);
    intros Hin; rewrite Forall_forall in Hr; specialize (Hr _ Hin); lia.
Qed.

Lemma clone_productions_copies (t : HashTable IProduction) :
  forall next,
    let '(t', next') := clone_productions t next in
    ht_keys t' = ht_keys t /\
    map structure (ht_values t') = map structure (ht_values t) /\
    forallb references_unset (ht_values t') = true /\
    NoDup (flat_map oids (ht_values t')) /\
    Forall (fun o => (next <= o < next')%nat) (flat_map oids (ht_values t')) /\
    (next <= next')%nat.
Proof.
  induction t as [| [key value] rest IH]; intros next;
    cbn [clone_productions].
  - repeat split; [constructor | constructor | lia].
  - unfold cloneProduction.
    pose proof (gast_facts.visit_copies value next) as Hc.
    pose proof (visit_NoDup value next) as Hnd.
    destruct (visit value next) as [clone n1]. cbn [fst] in Hnd.
    destruct Hc as (Hs & Hu & Hle & Hr).
    specialize (IH n1). destruct (clone_productions rest n1) as [others n2].
    destruct IH as (Hk & Hs' & Hu' & Hnd' & Hr' & Hle').
    unfold ht_keys, ht_values in *. cbn [map fst snd forallb flat_map].
    rewrite Hk, Hs, Hs', Hu, Hu'.
    repeat split; [| | lia].
    + apply NoDup_app. split; [exact Hnd |]. split; [| exact Hnd'].
      intros o Ho Ho'. rewrite Forall_forall in Hr, Hr'.
      specialize (Hr o Ho). specialize (Hr' o Ho'). lia.
    + apply Forall_app. split.
      * eapply Forall_impl; [exact Hr |]. cbn. intros o Ho. lia.
      * eapply Forall_impl; [exact Hr' |]. cbn. intros o Ho. lia.
Qed.

(** X21: the loop of self analysis that clones the productions of the
    instance fills a table with the same keys in the same order, whose
    values are deep copies of the originals: same structure, no rule
    reference, and node objects that are all new and pairwise distinct, so
    that no node is shared between two productions of the new table or
    with a production of the instance. *)
Theorem clone_productions_deep_copies (orgProductions : HashTable IProduction)
  (next : nat) :
  Forall (fun o => (o < next)%nat) (flat_map oids (ht_values orgProductions)) ->
  let clonedProductions := fst (clone_productions orgProductions next) in
  ht_keys clonedProductions = ht_keys orgProductions /\
  map structure (ht_values clonedProductions)
    = map structure (ht_values orgProductions) /\
  forallb references_unset (ht_values clonedProductions) = true /\
  NoDup (flat_map oids (ht_values clonedProductions)) /\
  (forall o, o ∈ flat_map oids (ht_values clonedProductions) ->
             o ∉ flat_map oids (ht_values orgProductions)).
Proof.
  intros Hold clonedProductions. unfold clonedProductions.
  pose proof (clone_productions_copies orgProductions next) as H.
  destruct (clone_productions orgProductions next) as [t' next'].
  destruct H as (Hk & Hs & Hu & Hnd & Hr & _). cbn [fst].
  repeat split; try assumption.
  intros o Ho Ho'. rewrite Forall_forall in Hold, Hr.
  specialize (Hold o Ho'). specialize (Hr o Ho). lia.
Qed.

Lemma clone_productions_deep_copies_witness :
  let item := Rule 1 "item" [Terminal 0 TokA 1] "item" in
  let list := Rule 4 "list"
                [NonTerminal 2 "item" (Some 1%nat) 1;
                 Repetition 3 [] 1] "list" in
  let orgProductions := [("item", item); ("list", list)] in
  let clonedProductions := fst (clone_productions orgProductions 5) in
  ht_keys clonedProductions = ["item"; "list"] /\
  NoDup (flat_map oids (ht_values clonedProductions)).
Proof.
  intros item list orgProductions clonedProductions.
  destruct (clone_productions_deep_copies orgProductions 5)
    as (Hk & _ & _ & Hnd & _).
  - repeat (constructor; [lia |]). constructor.
  - split; [exact Hk | exact Hnd].
Defined.

End analysis_more_facts.

(** ** The definition of the rules of a grammar *)

Module definition_facts.

Import gast analysis definition.

Lemma ht_get_put {V : Type} (t : HashTable V) (key : string) (value : V) :
  ht_get (ht_put t key value) key = Some value.
Proof.
  induction t as [| [k v] rest IH]; cbn [ht_put ht_get].
  - rewrite bool_decide_eq_true_2 by reflexivity. reflexivity.
  - destruct (bool_decide (k = key)) eqn:Ek; cbn [ht_get]; rewrite Ek;
      [reflexivity | exact IH].
Qed.

Lemma ht_containsKey_put {V : Type} (t : HashTable V) (key : string)
  (value : V) :
  ht_containsKey (ht_put t key value) key = true.
Proof.
  unfold ht_containsKey.
  induction t as [| [k v] rest IH]; cbn [ht_put existsb fst].
  - rewrite bool_decide_eq_true_2 by reflexivity. reflexivity.
  - destruct (bool_decide (k = key)) eqn:Ek; cbn [existsb fst]; rewrite Ek;
      [reflexivity | exact IH].
Qed.

Section RuleFacts.

Variable C : ParserClass.
Variable validateRuleName : string -> string -> list IParserDefinitionError.
Variable validateRuleDoesNotAlreadyExist :
  string -> list string -> string -> list IParserDefinitionError.
Variable buildTopProduction :
  string -> string -> gmap string TokClass -> nat -> IProduction * nat.

Abbreviation rule := (RULE C validateRuleName validateRuleDoesNotAlreadyExist
                        buildTopProduction).

Lemma constructor_definitionErrors_lookup (cls : string) (w : World) :
  CLASS_TO_DEFINITION_ERRORS (constructor_definitionErrors cls w) !! cls
    = Some (default [] (CLASS_TO_DEFINITION_ERRORS w !! cls)).
Proof.
  unfold constructor_definitionErrors.
  destruct (CLASS_TO_DEFINITION_ERRORS w !! cls) as [errs |] eqn:E.
  - rewrite bool_decide_eq_true_2 by eauto. cbn [negb]. exact E.
  - rewrite bool_decide_eq_false_2 by (intros [x Hx]; discriminate).
    cbn [negb set_definition_errors CLASS_TO_DEFINITION_ERRORS].
    apply lookup_insert_eq.
Qed.

(** X23: [RULE] builds the GAST of a rule only when the instance holds no
    production of that name.  A second [RULE] of the same name on the same
    instance builds nothing, no node is allocated, and the instance keeps
    the production of the first implementation unless the class cache
    holds a production of that name, which then takes its place; the name
    is appended to [definedRulesNames] both times. *)
Theorem first_definition_wins (fuel : nat) (name : string)
  (impl1 impl2 : list JsValue -> M JsValue) (text1 text2 : string)
  (config1 config2 : IRuleConfig) (this : RuleState) (w : World)
  (errs : list IParserDefinitionError) :
  CLASS_TO_DEFINITION_ERRORS w !! className this = Some errs ->
  ht_containsKey (_productions this) name = false ->
  let built :=
    fst (buildTopProduction text1 name (tokensMap this) (nextOid w)) in
  exists f1 this1 w1 f2 this2 w2,
    rule fuel name impl1 text1 config1 this w = (Ret f1, this1, w1) /\
    rule fuel name impl2 text2 config2 this1 w1 = (Ret f2, this2, w2) /\
    ht_get (_productions this1) name = Some built /\
    nextOid w2 = nextOid w1 /\
    ht_get (_productions this2) name
      = Some (default built
                (ht_get (getProductionsForClass w1 (className this)) name)) /\
    definedRulesNames this2 = definedRulesNames this ++ [name; name].
Proof.
  intros Herrs Hfresh built.
  set (ruleErrors := validateRuleName name (className this) ++
                     validateRuleDoesNotAlreadyExist name
                       (definedRulesNames this) (className this)).
  set (this1 := set__productions
                  (set_definedRulesNames this
                     (push (definedRulesNames this) name))
                  (ht_put (_productions this) name built)).
  set (w1 := set_nextOid
               (set_definition_errors w
                  (<[className this := errs ++ ruleErrors]>
                     (CLASS_TO_DEFINITION_ERRORS w)))
               (snd (buildTopProduction text1 name (tokensMap this)
                       (nextOid w)))).
  assert (H1 : rule fuel name impl1 text1 config1 this w
               = (Ret (wrappedGrammarRule C fuel name impl1 config1),
                  this1, w1)).
  { unfold RULE. cbn [className set_definedRulesNames _productions].
    rewrite Herrs, Hfresh. cbn [negb].
    cbn [nextOid set_definition_errors tokensMap set_definedRulesNames].
    unfold this1, w1, built, ruleErrors.
    destruct (buildTopProduction text1 name (tokensMap this) (nextOid w))
      as [prod next]. reflexivity. }
  assert (Hlook : CLASS_TO_DEFINITION_ERRORS w1 !! className this1
                  = Some (errs ++ ruleErrors)).
  { unfold w1, this1. cbn. apply lookup_insert_eq. }
  assert (Hhas : ht_containsKey (_productions this1) name = true).
  { unfold this1. cbn [_productions set__productions].
    apply ht_containsKey_put. }
  assert (Hcache : getProductionsForClass w1 (className this1)
                   = getProductionsForClass w1 (className this))
    by reflexivity.
  exists (wrappedGrammarRule C fuel name impl1 config1), this1, w1.
  unfold RULE at 2.
  cbn [className set_definedRulesNames _productions set__productions] in *.
  rewrite Hlook.
  change (_productions this1) with (ht_put (_productions this) name built).
  rewrite ht_containsKey_put. cbn [negb].
  change (className this1) with (className this).
  unfold getProductionsForClass. subst w1.
  cbn [CLASS_TO_GRAMMAR_PRODUCTIONS set_nextOid set_definition_errors].
  destruct (ht_get (default [] (CLASS_TO_GRAMMAR_PRODUCTIONS w
                                  !! className this)) name)
    as [cached |] eqn:Ecache;
    (eexists _, _, _; split; [exact H1 |]; split; [reflexivity |]);
    cbn [_productions definedRulesNames set__productions nextOid
         set_definedRulesNames set_definition_errors set_nextOid default];
    unfold this1 at 1; cbn [_productions set__productions];
    rewrite !ht_get_put; unfold this1, push;
    cbn [definedRulesNames set__productions set_definedRulesNames];
    rewrite <- app_assoc; repeat split; reflexivity.
Qed.

End RuleFacts.

Lemma first_definition_wins_witness :
  let C0 := sample_class [] in
  let build := fun (text name : string) (_ : gmap string TokClass)
                   (next : nat) =>
    (Rule next name [] text, S next) in
  let this := new_RuleState "P" ∅ in
  let w := constructor_definitionErrors "P"
             (mkWorld ∅ ∅ ∅ ∅ false 0 []) in
  exists f1 this1 w1 f2 this2 w2,
    RULE C0 (fun _ _ => []) (fun _ _ _ => []) build 5 "item"
      (sample_rule C0) "first" DEFAULT_RULE_CONFIG this w
      = (Ret f1, this1, w1) /\
    RULE C0 (fun _ _ => []) (fun _ _ _ => []) build 5 "item"
      (sample_rule C0) "second" DEFAULT_RULE_CONFIG this1 w1
      = (Ret f2, this2, w2) /\
    ht_get (_productions this2) "item" = Some (Rule 0 "item" [] "first").
Proof.
  intros C0 build this w.
  destruct (first_definition_wins C0 (fun _ _ => []) (fun _ _ _ => []) build
              5 "item" (sample_rule C0) (sample_rule C0) "first" "second"
              DEFAULT_RULE_CONFIG DEFAULT_RULE_CONFIG this w [])
    as (f1 & this1 & w1 & f2 & this2 & w2 & H1 & H2 & _ & _ & Hget & _).
  - reflexivity.
  - reflexivity.
  - exists f1, this1, w1, f2, this2, w2.
    split; [exact H1 |]. split; [exact H2 |].
    rewrite Hget. f_equal.
    assert (Hw1 : w1 = snd (RULE C0 (fun _ _ => []) (fun _ _ _ => []) build 5
                              "item" (sample_rule C0) "first"
                              DEFAULT_RULE_CONFIG this w))
      by (rewrite H1; reflexivity).
    rewrite Hw1. reflexivity.
Defined.

End definition_facts.

(** ** No saved error is ever dropped *)

Lemma errors_kept_same (p q : Parser) : errors q = errors p -> errors_kept p q.
Proof.
  intros Heq i x Hi. exists (resyncedTokens x). rewrite Heq, Hi.
  destruct x; reflexivity.
Qed.

Lemma errors_kept_refl (p : Parser) : errors_kept p p.
Proof. apply errors_kept_same. reflexivity. Qed.

Lemma errors_kept_trans (p q r : Parser) :
  errors_kept p q -> errors_kept q r -> errors_kept p r.
Proof.
  intros Hpq Hqr i x Hi.
  destruct (Hpq i x Hi) as [t1 H1]. destruct (Hqr i _ H1) as [t2 H2].
  exists t2. rewrite H2. reflexivity.
Qed.

Lemma errors_kept_push (p q : Parser) (e : RecognitionException) :
  errors q = errors p ++ [e] -> errors_kept p q.
Proof.
  intros Heq i x Hi. exists (resyncedTokens x). rewrite Heq.
  rewrite lookup_app_l by (eapply lookup_lt_Some; exact Hi).
  rewrite Hi. destruct x; reflexivity.
Qed.

Lemma errors_kept_write (e : RecognitionException)
  (toks : list (option Token)) (p : Parser) :
  errors_kept p (write_resyncedTokens e toks p).
Proof.
  intros i x Hi. unfold write_resyncedTokens. cbn [errors set_errors].
  rewrite list_lookup_fmap, Hi. cbn [fmap option_fmap option_map].
  destruct (bool_decide (excId x = excId e)).
  - exists toks. reflexivity.
  - exists (resyncedTokens x). destruct x; reflexivity.
Qed.

Lemma ret_keeps {A : Type} (a : A) : keeps_errors (ret a).
Proof. intros p r q [= _ <-]. apply errors_kept_refl. Qed.

Lemma bind_keeps {A B : Type} (m : M A) (k : A -> M B) :
  keeps_errors m -> (forall a, keeps_errors (k a)) -> keeps_errors (bind m k).
Proof.
  intros Hm Hk p r q Hrun. unfold bind in Hrun.
  destruct (m p) as [[a | e |] p1] eqn:Em.
  - eapply errors_kept_trans; [exact (Hm _ _ _ Em) | exact (Hk _ _ _ _ Hrun)].
  - injection Hrun as _ <-. exact (Hm _ _ _ Em).
  - injection Hrun as _ <-. exact (Hm _ _ _ Em).
Qed.

Lemma cond_keeps {A : Type} (c : Parser -> bool) (m1 m2 : M A) :
  keeps_errors m1 -> keeps_errors m2 ->
  keeps_errors (fun p => if c p then m1 p else m2 p).
Proof.
  intros H1 H2 p r q Hrun. destruct (c p); [eapply H1 | eapply H2]; exact Hrun.
Qed.

Lemma throw_saved_keeps {A : Type} (kind : RecognitionKind) (msg : string)
  (tok : option Token) :
  keeps_errors (throw_saved (A := A) kind msg tok).
Proof.
  intros p r q Hrun.
  destruct (throw_saved_run _ _ _ _ _ _ Hrun) as (e & _ & He & _).
  eapply errors_kept_push. exact He.
Qed.

Lemma while_do_keeps {A : Type} (cond : Parser -> bool) (body : M A) :
  keeps_errors body -> forall fuel, keeps_errors (while_do fuel cond body).
Proof.
  intros Hbody. induction fuel as [| fuel IH]; cbn [while_do].
  - intros p r q [= _ <-]. apply errors_kept_refl.
  - apply cond_keeps; [| apply ret_keeps].
    apply bind_keeps; [exact Hbody | intros _; exact IH].
Qed.

Section ErrorsFacts.

Variable C : ParserClass.

Lemma SKIP_TOKEN_errors (p : Parser) :
  errors (snd (SKIP_TOKEN p)) = errors p.
Proof. unfold SKIP_TOKEN. destruct (_ <=? _); reflexivity. Qed.

Lemma consumeInternalOptimized_keeps (T : TokClass) :
  keeps_errors (consumeInternalOptimized C T).
Proof.
  intros p r q Hrun. unfold consumeInternalOptimized in Hrun.
  destruct (instanceOf (LA p 1) T).
  - injection Hrun as _ <-. apply errors_kept_same. reflexivity.
  - destruct (LA p 1).
    + eapply throw_saved_keeps. exact Hrun.
    + injection Hrun as _ <-. apply errors_kept_refl.
Qed.

Lemma tryInRuleRecovery_keeps (T : TokClass) (follows : list TokClass) :
  keeps_errors (tryInRuleRecovery C T follows).
Proof.
  intros p r q Hrun. unfold tryInRuleRecovery in Hrun.
  destruct (canRecoverWithSingleTokenInsertion C T follows p).
  - injection Hrun as _ <-. apply errors_kept_refl.
  - destruct (canRecoverWithSingleTokenDeletion T p).
    + pose proof (SKIP_TOKEN_errors p) as Hs.
      destruct (SKIP_TOKEN p) as [tok p1]. injection Hrun as _ <-.
      apply errors_kept_same. exact Hs.
    + injection Hrun as _ <-. apply errors_kept_refl.
Qed.

Lemma consumeInternal_keeps (T : TokClass) (idx : Z) :
  keeps_errors (consumeInternal C T idx).
Proof.
  intros p r q Hrun. unfold consumeInternal in Hrun.
  destruct (consumeInternalOptimized C T p) as [[tok | e |] p1] eqn:Eopt;
    pose proof (consumeInternalOptimized_keeps T _ _ _ Eopt) as H1.
  - injection Hrun as _ <-. exact H1.
  - destruct (recoveryEnabled p1 && isMismatchedTokenException e
              && negb (isBackTracking p1)).
    + destruct (tryInRuleRecovery C T _ p1) as [[tok | e' |] p2] eqn:Etry;
        pose proof (tryInRuleRecovery_keeps T _ _ _ _ Etry) as H2;
        [| destruct (isInRuleRecoveryException e') |];
        injection Hrun as _ <-; eapply errors_kept_trans; eassumption.
    + injection Hrun as _ <-. exact H1.
  - injection Hrun as _ <-. exact H1.
Qed.

Lemma ruleFinallyStateUpdate_keeps : keeps_errors ruleFinallyStateUpdate.
Proof.
  intros p r q Hrun. rewrite ruleFinallyStateUpdate_eq in Hrun.
  destruct (bool_decide (pop (RULE_STACK p) = [])
            && negb (instanceOf (LA p 1) EOF)).
  - destruct (LA p 1); injection Hrun as _ <-.
    + eapply errors_kept_push. reflexivity.
    + apply errors_kept_same. reflexivity.
  - injection Hrun as _ <-. apply errors_kept_same. reflexivity.
Qed.

Lemma try_catch_keeps (fuel : nat) (impl : list JsValue -> M JsValue)
  (config : IRuleConfig) (args : list JsValue) :
  keeps_errors (impl args) ->
  keeps_errors (wrappedGrammarRule_try_catch C fuel impl config args).
Proof.
  intros Himpl p r q Hrun. unfold wrappedGrammarRule_try_catch in Hrun.
  destruct (impl args p) as [[v | e |] p1] eqn:Eimpl;
    pose proof (Himpl _ _ _ Eimpl) as H1;
    [injection Hrun as _ <-; exact H1 | | injection Hrun as _ <-; exact H1].
  destruct e as [exc | msg | msg];
    [| injection Hrun as _ <-; exact H1 ..].
  destruct (_ || _); [| injection Hrun as _ <-; exact H1].
  destruct (findReSyncTokenType C fuel p1) as [T | e' |];
    [| injection Hrun as _ <-; exact H1 ..].
  destruct (isInCurrentRuleReSyncSet C T p1);
    [| injection Hrun as _ <-; exact H1].
  destruct (reSyncTo fuel T p1) as [[toks | e' |] p2] eqn:Esync;
    pose proof (reSyncTo_loop_resynced T fuel _ _ _ _ _ Esync) as Hres;
    destruct (resynced_frame _ _ Hres) as (_ & _ & Herr & _);
    injection Hrun as _ <-;
    (eapply errors_kept_trans; [exact H1 |]).
  - eapply errors_kept_trans;
      [apply errors_kept_same; exact Herr | apply errors_kept_write].
  - apply errors_kept_same. exact Herr.
  - apply errors_kept_same. exact Herr.
Qed.

Lemma wrappedGrammarRule_keeps (fuel : nat) (name : string)
  (impl : list JsValue -> M JsValue) (config : IRuleConfig) (idx : Z)
  (args : list JsValue) :
  keeps_errors (impl args) ->
  keeps_errors (wrappedGrammarRule C fuel name impl config idx args).
Proof.
  intros Himpl p r q Hrun. unfold wrappedGrammarRule, try_finally in Hrun.
  destruct (wrappedGrammarRule_try_catch C fuel impl config args
              (ruleInvocationStateUpdate name idx p)) as [r1 p1] eqn:Etc.
  pose proof (try_catch_keeps fuel impl config args Himpl _ _ _ Etc) as H1.
  assert (H0 : errors_kept p (ruleInvocationStateUpdate name idx p))
    by (apply errors_kept_same; reflexivity).
  assert (Hfin : forall rf qf, ruleFinallyStateUpdate p1 = (rf, qf) ->
                               errors_kept p qf).
  { intros rf qf Efin.
    eapply errors_kept_trans; [exact H0 |].
    eapply errors_kept_trans; [exact H1 |].
    exact (ruleFinallyStateUpdate_keeps _ _ _ Efin). }
  destruct r1 as [v | e |].
  - destruct (ruleFinallyStateUpdate p1) as [[u | e' |] qf] eqn:Efin;
      injection Hrun as _ <-; eapply Hfin; reflexivity.
  - destruct (ruleFinallyStateUpdate p1) as [[u | e' |] qf] eqn:Efin;
      injection Hrun as _ <-; eapply Hfin; reflexivity.
  - injection Hrun as _ <-. eapply errors_kept_trans; eassumption.
Qed.

Lemma raiseNoAltException_keeps {A : Type} (occ : Z)
  (errMsgTypes : option string) :
  keeps_errors (raiseNoAltException (A := A) C occ errMsgTypes).
Proof.
  intros p r q Hrun. unfold raiseNoAltException in Hrun.
  destruct (LA p 1).
  - eapply throw_saved_keeps. exact Hrun.
  - injection Hrun as _ <-. apply errors_kept_refl.
Qed.

Lemma raiseEarlyExitException_keeps {A : Type} (occ : Z)
  (prodType : PROD_TYPE) (errMsg : option string) :
  keeps_errors (raiseEarlyExitException (A := A) C occ prodType errMsg).
Proof.
  intros p r q Hrun. unfold raiseEarlyExitException in Hrun.
  destruct (LA p 1).
  - eapply throw_saved_keeps. exact Hrun.
  - injection Hrun as _ <-. apply errors_kept_refl.
Qed.

Lemma orInternal_keeps (laFunc : Parser -> Z) (alts : list (M JsValue))
  (errMsgTypes : option string) (occ : Z) :
  (forall alt, alt ∈ alts -> keeps_errors alt) ->
  keeps_errors (orInternal C laFunc alts errMsgTypes occ).
Proof.
  intros Halts p r q Hrun. unfold orInternal in Hrun.
  destruct (negb (laFunc p =? -1)).
  - destruct (js_index alts (laFunc p)) as [alt |] eqn:Ealt.
    + eapply (Halts alt); [eapply js_index_In; exact Ealt | exact Hrun].
    + injection Hrun as _ <-. apply errors_kept_refl.
  - eapply raiseNoAltException_keeps. exact Hrun.
Qed.

Lemma optionInternal_keeps (la : Parser -> bool)
  (pred : option (Parser -> bool)) (action : M JsValue) :
  keeps_errors action -> keeps_errors (optionInternal la pred action).
Proof.
  intros Hact p r q Hrun.
  assert (Hrun' : forall r q,
            (_ <- action ;; ret true) p = (r, q) -> errors_kept p q).
  { intros r' q'. apply (bind_keeps action (fun _ => ret true));
      [exact Hact | intros _; apply ret_keeps]. }
  unfold optionInternal in Hrun.
  destruct pred as [pred |]; [destruct (negb (pred p)) |];
    try (destruct (la p)); try (eapply Hrun'; exact Hrun);
    injection Hrun as _ <-; apply errors_kept_refl.
Qed.

Lemma generateErrorMessage_keeps (expected : TokClass) (next0 : option Token)
  (acc : list (option Token)) :
  keeps_errors (generateErrorMessage C expected next0 acc).
Proof.
  intros p r q Hrun. unfold generateErrorMessage in Hrun.
  destruct next0; injection Hrun as _ <-.
  - eapply errors_kept_push. reflexivity.
  - apply errors_kept_refl.
Qed.

Lemma tryInRepetitionRecovery_loop_keeps {A : Type} (grammarRule : M A)
  (la : Parser -> bool) (expected resync : TokClass) (next0 : option Token) :
  keeps_errors grammarRule ->
  forall (fuel : nat) (curr : option Token) (acc : list (option Token)),
    keeps_errors (tryInRepetitionRecovery_loop C fuel grammarRule la expected
                    resync next0 curr acc).
Proof.
  intros Hrule. induction fuel as [| fuel IH]; intros curr acc p r q Hrun;
    cbn [tryInRepetitionRecovery_loop] in Hrun.
  { injection Hrun as _ <-. apply errors_kept_refl. }
  destruct (instanceOf curr expected).
  { revert Hrun. apply (bind_keeps _ (fun _ => ret None));
      [apply generateErrorMessage_keeps | intros _; apply ret_keeps]. }
  destruct (la p).
  { revert Hrun.
    apply (bind_keeps _ (fun _ => x <- grammarRule ;; ret (Some x)));
      [apply generateErrorMessage_keeps |].
    intros _. apply bind_keeps; [exact Hrule | intros x; apply ret_keeps]. }
  destruct (instanceOf curr resync).
  { injection Hrun as _ <-. apply errors_kept_same.
    unfold restoreLexerState. destruct (savedTokenIdx p); reflexivity. }
  pose proof (SKIP_TOKEN_errors p) as Hs.
  destruct (SKIP_TOKEN p) as [tok p1]. cbn [snd] in Hs.
  eapply errors_kept_trans; [apply errors_kept_same; exact Hs |].
  exact (IH _ _ _ _ _ Hrun).
Qed.

Lemma attemptInRepetitionRecovery_keeps {A : Type} (fuel : nat)
  (prodFunc : M A) (la : Parser -> bool) (name : string) (occ : Z) :
  keeps_errors prodFunc ->
  keeps_errors (attemptInRepetitionRecovery C fuel prodFunc la name occ).
Proof.
  intros Hprod p r q. unfold attemptInRepetitionRecovery.
  match goal with
  | |- context [if ?c then (Some EOF, Some 1) else _] => destruct c
  end; cbv beta iota;
    (match goal with
     | |- context [shouldInRepetitionRecoveryBeTried C ?a ?b p] =>
         destruct (shouldInRepetitionRecoveryBeTried C a b p)
     end);
    try (intros [= _ <-]; apply errors_kept_refl);
    (try match goal with
         | |- context [match ?a with Some _ => _ | None => _ end] =>
             destruct a; [| intros [= _ <-]; apply errors_kept_refl]
         end);
    unfold tryInRepetitionRecovery;
    (destruct (findReSyncTokenType C fuel p);
     [| intros [= _ <-]; apply errors_kept_refl ..]);
    intros Hrun;
    (eapply errors_kept_trans;
     [| exact (tryInRepetitionRecovery_loop_keeps _ _ _ _ _ Hprod _ _ _ _ _ _
                 Hrun)]);
    apply errors_kept_same; reflexivity.
Qed.

Lemma recovery_step_keeps {A B : Type} (fuel : nat) (prodFunc : M A)
  (la : Parser -> bool) (name : string) (occ : Z) (k : option A -> B)
  (b : B) :
  keeps_errors prodFunc ->
  keeps_errors
    (fun p =>
       if recoveryEnabled p then
         (again <- attemptInRepetitionRecovery C fuel prodFunc la name occ ;;
          ret (k again)) p
       else (Ret b, p)).
Proof.
  intros Hprod. apply cond_keeps; [| apply ret_keeps].
  apply bind_keeps; [apply attemptInRepetitionRecovery_keeps; exact Hprod |].
  intros again. apply ret_keeps.
Qed.

Lemma manyInternal_keeps (name : string) (occ : Z) (la : Parser -> bool)
  (action : M JsValue) :
  keeps_errors action ->
  forall fuel pred,
    keeps_errors (manyInternal C fuel name occ la pred action).
Proof.
  intros Hact. induction fuel as [| fuel IH]; intros pred;
    cbn [manyInternal].
  - intros p r q [= _ <-]. apply errors_kept_refl.
  - apply bind_keeps; [apply while_do_keeps; exact Hact |].
    intros _. apply (recovery_step_keeps fuel _ _ name occ (fun _ => tt) tt).
    apply IH.
Qed.

Lemma atLeastOneInternal_keeps (name : string) (occ : Z)
  (la : Parser -> bool) (action : M JsValue) (errMsg : option string) :
  keeps_errors action ->
  forall fuel pred,
    keeps_errors (atLeastOneInternal C fuel name occ la pred action errMsg).
Proof.
  intros Hact. induction fuel as [| fuel IH]; intros pred;
    cbn [atLeastOneInternal].
  - intros p r q [= _ <-]. apply errors_kept_refl.
  - apply bind_keeps.
    + apply cond_keeps; [| apply raiseEarlyExitException_keeps].
      apply bind_keeps; [exact Hact |].
      intros _. apply while_do_keeps. exact Hact.
    + intros _.
      apply (recovery_step_keeps fuel _ _ name occ (fun _ => tt) tt).
      apply IH.
Qed.

Lemma separator_loop_keeps (separator : TokClass) (action : M JsValue) :
  keeps_errors action ->
  forall fuel acc, keeps_errors (separator_loop C fuel separator action acc).
Proof.
  intros Hact. induction fuel as [| fuel IH]; intros acc;
    cbn [separator_loop].
  - intros p r q [= _ <-]. apply errors_kept_refl.
  - apply cond_keeps; [| apply ret_keeps].
    apply bind_keeps; [apply consumeInternal_keeps |].
    intros sep. apply bind_keeps; [exact Hact |]. intros _. apply IH.
Qed.

Lemma repetitionSepSecondInternal_keeps (name : string) (occ : Z)
  (separator : TokClass) (action : M JsValue) :
  keeps_errors action ->
  forall fuel acc,
    keeps_errors (repetitionSepSecondInternal C fuel name occ separator
                    action acc).
Proof.
  intros Hact. induction fuel as [| fuel IH]; intros acc;
    cbn [repetitionSepSecondInternal].
  - intros p r q [= _ <-]. apply errors_kept_refl.
  - apply bind_keeps; [apply separator_loop_keeps; exact Hact |].
    intros sr.
    apply (recovery_step_keeps fuel _ _ name occ (default sr) sr).
    apply IH.
Qed.

Lemma sep_iterations_keeps (fuel : nat) (name : string) (occ : Z)
  (separator : TokClass) (action : M JsValue) :
  keeps_errors action ->
  keeps_errors (sep_iterations C fuel name occ separator action).
Proof.
  intros Hact. unfold sep_iterations.
  apply bind_keeps; [exact Hact |]. intros _.
  apply bind_keeps; [apply separator_loop_keeps; exact Hact |].
  intros sr. apply (recovery_step_keeps fuel _ _ name occ (default sr) sr).
  apply repetitionSepSecondInternal_keeps. exact Hact.
Qed.

Lemma BACKTRACK_keeps (grammarRule : M JsValue)
  (isValid : JsValue -> M bool) :
  keeps_errors grammarRule -> (forall v, keeps_errors (isValid v)) ->
  keeps_errors (BACKTRACK grammarRule isValid).
Proof.
  intros Hrule Hvalid p r q Hrun. rewrite BACKTRACK_eq in Hrun.
  cbv zeta in Hrun.
  set (p0 := set_isBackTrackingStack p (push (isBackTrackingStack p) 1))
    in Hrun.
  destruct ((ruleResult <- grammarRule ;; isValid ruleResult) p0)
    as [r1 q1] eqn:Ebody.
  pose proof (bind_keeps grammarRule isValid Hrule Hvalid _ _ _ Ebody) as H1.
  destruct r1 as [b | e |]; injection Hrun as _ <-;
    try (apply errors_kept_same; reflexivity).
  eapply errors_kept_trans; [| exact H1].
  apply errors_kept_same. reflexivity.
Qed.

(** X24: no method of the parsing DSL drops a saved error or moves it: an
    error that is in [errors] stays at its index while the parse goes on,
    and nothing of it changes but its [resyncedTokens], which the rule
    wrapper writes.  This holds for [CONSUME], and for a rule, [OPTION],
    [OR], [MANY], [AT_LEAST_ONE], [MANY_SEP], [AT_LEAST_ONE_SEP] and
    [BACKTRACK] whenever it holds for the actions they are given. *)
Theorem dsl_keeps_errors (fuel : nat) (name : string) (occ : Z)
  (T : TokClass) (la : Parser -> bool) (pred : option (Parser -> bool))
  (errMsg : option string) (config : IRuleConfig) (args : list JsValue) :
  keeps_errors (consumeInternal C T occ) /\
  (forall impl,
     keeps_errors (impl args) ->
     keeps_errors (wrappedGrammarRule C fuel name impl config occ args)) /\
  (forall action,
     keeps_errors action ->
     keeps_errors (optionInternal la pred action) /\
     keeps_errors (manyInternal C fuel name occ la pred action) /\
     keeps_errors (atLeastOneInternal C fuel name occ la pred action errMsg) /\
     keeps_errors (manySepFirstInternal C fuel name occ la T action) /\
     keeps_errors (atLeastOneSepFirstInternal C fuel name occ la T action
                     errMsg)) /\
  (forall laFunc alts,
     (forall alt, alt ∈ alts -> keeps_errors alt) ->
     keeps_errors (orInternal C laFunc alts errMsg occ)) /\
  (forall grammarRule isValid,
     keeps_errors grammarRule -> (forall v, keeps_errors (isValid v)) ->
     keeps_errors (BACKTRACK grammarRule isValid)).
Proof.
  split; [apply consumeInternal_keeps |].
  split; [intros impl; apply wrappedGrammarRule_keeps |].
  split; [| split; [intros laFunc alts; apply orInternal_keeps
                   | intros grammarRule isValid; apply BACKTRACK_keeps]].
  intros action Hact.
  split; [apply optionInternal_keeps; exact Hact |].
  split; [apply manyInternal_keeps; exact Hact |].
  split; [apply atLeastOneInternal_keeps; exact Hact |].
  split.
  - unfold manySepFirstInternal.
    apply cond_keeps; [apply sep_iterations_keeps; exact Hact | apply ret_keeps].
  - unfold atLeastOneSepFirstInternal.
    apply cond_keeps;
      [apply sep_iterations_keeps; exact Hact
      | apply raiseEarlyExitException_keeps].
Qed.

End ErrorsFacts.

(** ** What holds when a repetition returns *)

Lemma while_do_exit {A : Type} (cond : Parser -> bool) (body : M A) :
  forall (fuel : nat) (p q : Parser),
    while_do fuel cond body p = (Ret tt, q) -> cond q = false.
Proof.
  induction fuel as [| fuel IH]; intros p q Hrun; cbn [while_do] in Hrun;
    [discriminate |].
  destruct (cond p) eqn:Ec.
  - unfold bind in Hrun.
    destruct (body p) as [[v | e |] p1]; [| discriminate ..].
    exact (IH _ _ Hrun).
  - injection Hrun as <-. exact Ec.
Qed.

Section ExitFacts.

Variable C : ParserClass.

Lemma separator_loop_exit (separator : TokClass) (action : M JsValue) :
  forall (fuel : nat) (acc res : list (option Token)) (p q : Parser),
    separator_loop C fuel separator action acc p = (Ret res, q) ->
    separatorLookAheadFunc separator q = false.
Proof.
  induction fuel as [| fuel IH]; intros acc res p q Hrun;
    cbn [separator_loop] in Hrun; [discriminate |].
  destruct (separatorLookAheadFunc separator p) eqn:Ec.
  - unfold bind in Hrun.
    destruct (CONSUME C separator p) as [[tok | e |] p1]; [| discriminate ..].
    destruct (action p1) as [[v | e |] p2]; [| discriminate ..].
    exact (IH _ _ _ _ Hrun).
  - injection Hrun as _ <-. exact Ec.
Qed.

(** X25: with the recovery disabled, a repetition returns only when no
    further iteration can start: after [MANY] and [AT_LEAST_ONE] the
    look-ahead function (with the predicate, when there is one) answers
    [false], and after a [MANY_SEP] or [AT_LEAST_ONE_SEP] that has made its
    first iteration the next token is not a separator. *)
Theorem repetition_exit_condition (fuel : nat) (name : string) (occ : Z)
  (la : Parser -> bool) (pred : option (Parser -> bool))
  (separator : TokClass) (action : M JsValue) (errMsg : option string)
  (p q : Parser) :
  disciplined action ->
  recoveryEnabled p = false ->
  (manyInternal C fuel name occ la pred action p = (Ret tt, q) ->
     with_predicate pred la q = false) /\
  (atLeastOneInternal C fuel name occ la pred action errMsg p = (Ret tt, q) ->
     with_predicate pred la q = false) /\
  (forall res,
     la p = true ->
     manySepFirstInternal C fuel name occ la separator action p
       = (Ret res, q) \/
     atLeastOneSepFirstInternal C fuel name occ la separator action errMsg p
       = (Ret res, q) ->
     instanceOf (LA q 1) separator = false).
Proof.
  intros Hact Hrec.
  assert (Hflag : forall {A : Type} (m : M A) (a : A) p1 q1,
            disciplined m -> m p1 = (Ret a, q1) ->
            recoveryEnabled q1 = recoveryEnabled p1).
  { intros A m a p1 q1 Hm Hrun.
    destruct (Hm _ _ _ Hrun) as [(_ & _ & _ & Hr & _) _];
      [discriminate | exact Hr]. }
  split; [| split].
  - destruct fuel as [| fuel]; cbn [manyInternal]; [discriminate |].
    unfold bind at 1.
    destruct (while_do fuel (with_predicate pred la) action p)
      as [[[] | e |] p1] eqn:Eloop; [| discriminate ..].
    rewrite (Hflag _ _ _ _ _ (while_do_disciplined _ _ Hact fuel) Eloop), Hrec.
    intros [= <-]. exact (while_do_exit _ _ _ _ _ Eloop).
  - destruct fuel as [| fuel]; cbn [atLeastOneInternal]; [discriminate |].
    unfold bind at 1.
    destruct (with_predicate pred la p) eqn:Ela.
    + unfold bind at 1.
      destruct (action p) as [[v | e |] p0] eqn:Eact; [| discriminate ..].
      destruct (while_do fuel (with_predicate pred la) action p0)
        as [[[] | e |] p1] eqn:Eloop; [| discriminate ..].
      rewrite (Hflag _ _ _ _ _ (while_do_disciplined _ _ Hact fuel) Eloop),
        (Hflag _ _ _ _ _ Hact Eact), Hrec.
      intros [= <-]. exact (while_do_exit _ _ _ _ _ Eloop).
    + destruct (raiseEarlyExitException C occ REPETITION_MANDATORY errMsg p)
        as [[[] | e |] p1] eqn:Eraise; try discriminate.
      exfalso. unfold raiseEarlyExitException in Eraise.
      destruct (LA p 1); discriminate Eraise.
  - intros res Hla Hrun.
    assert (Hsep : sep_iterations C fuel name occ separator action p
                   = (Ret res, q)).
    { unfold manySepFirstInternal, atLeastOneSepFirstInternal in Hrun.
      rewrite Hla in Hrun. destruct Hrun as [Hrun | Hrun]; exact Hrun. }
    unfold sep_iterations in Hsep. unfold bind at 1 in Hsep.
    destruct (action p) as [[v | e |] p0] eqn:Eact; [| discriminate ..].
    unfold bind at 1 in Hsep.
    destruct (separator_loop C fuel separator action [] p0)
      as [[sr | e |] p1] eqn:Eloop; [| discriminate ..].
    rewrite (Hflag _ _ _ _ _ (separator_loop_disciplined C separator action
                                Hact fuel []) Eloop),
      (Hflag _ _ _ _ _ Hact Eact), Hrec in Hsep.
    injection Hsep as _ <-.
    exact (separator_loop_exit _ _ _ _ _ _ _ Eloop).
Qed.

End ExitFacts.

Lemma repetition_exit_condition_witness :
  let C0 := sample_class [] in
  let ta := mkToken TokA "a" 0 1 false in
  let tb := mkToken TokB "b" 1 2 false in
  let p := mkParser [] false [ta; ta; tb] (-1) [] ["list"] [1] None 0 in
  let la := fun p => instanceOf (LA p 1) TokA in
  let out := manyInternal C0 5 "MANY1" 1 la None (sample_rule C0 []) p in
  fst out = Ret tt /\ inputIdx (snd out) = 1 /\ la (snd out) = false.
Proof.
  intros C0 ta tb p la out.
  split; [reflexivity |]. split; [reflexivity |].
  refine (proj1 (repetition_exit_condition C0 5 "MANY1" 1 la None TokComma
                   (sample_rule C0 []) None p (snd out)
                   (sample_rule_disciplined C0 []) eq_refl) _).
  reflexivity.
Defined.

(** ** What a parse without errors means, and what [CONSUME] answers *)

Section ParseFacts.

Variable C : ParserClass.

(** X26: when the first invoked rule has ended and [errors] is empty, the
    rule body was not interrupted by a recognition exception, so the
    outcome is the outcome of the body and no recovery value stands in for
    it, the wrapper has consumed nothing, and a rule that returned has
    left the parser at the end of the input. *)
Theorem no_errors_means_input_matched (fuel : nat) (name : string)
  (impl : list JsValue -> M JsValue) (config : IRuleConfig) (idx : Z)
  (args : list JsValue) (p : Parser) (r : Res JsValue) (q : Parser) :
  RULE_STACK p = [] ->
  idx_ok p ->
  disciplined (impl args) ->
  (length (_input p) + 2 <= fuel)%nat ->
  wrappedGrammarRule C fuel name impl config idx args p = (r, q) ->
  errors q = [] ->
  exists q2,
    impl args (ruleInvocationStateUpdate name idx p) = (r, q2) /\
    (forall e, r <> Throw (Recognition e)) /\
    inputIdx q = inputIdx q2 /\
    (forall v, r = Ret v -> isAtEndOfInput q = true /\ RULE_STACK q = []).
Proof.
  intros Hstack Hidx Himpl Hfuel Hrun Hnone.
  destruct (impl args (ruleInvocationStateUpdate name idx p))
    as [r2 q2] eqn:Ebody.
  exists q2.
  destruct r2 as [v | e |].
  - destruct (top_rule_returns C fuel name impl config idx args p (Ret v) q2
                Hstack Hidx Himpl Ebody ltac:(discriminate)
                ltac:(discriminate)) as [t [HLA Hwrap]].
    destruct (instanceOf (Some t) EOF) eqn:Eend; cbn [negb] in Hwrap;
      rewrite Hwrap in Hrun; injection Hrun as <- <-.
    + split; [reflexivity |]. split; [discriminate |].
      split; [reflexivity |]. intros v' _. split.
      * unfold isAtEndOfInput.
        change (LA (exit_stacks q2) 1) with (LA q2 1). rewrite HLA. exact Eend.
      * destruct (top_body_state name idx impl args p (Ret v) q2 Hstack Hidx
                    Himpl Ebody ltac:(discriminate)) as (Hs & _).
        unfold exit_stacks. cbn [RULE_STACK set_RULE_OCCURRENCE_STACK
                                 set_RULE_STACK]. rewrite Hs. reflexivity.
    + exfalso. cbn [errors set_errors] in Hnone.
      destruct (errors q2); discriminate Hnone.
  - destruct e as [exc | msg | msg].
    + exfalso.
      destruct (top_rule_recovers C fuel name impl config idx args p exc q2
                  Hstack Hidx Himpl Hfuel Ebody)
        as (toks & q3 & _ & _ & _ & Hres & _ & Hwrap).
      rewrite Hwrap in Hrun. injection Hrun as _ <-.
      destruct (top_body_state name idx impl args p _ q2 Hstack Hidx Himpl
                  Ebody ltac:(discriminate)) as (_ & _ & _ & _ & _ & Hsaved).
      specialize (Hsaved exc eq_refl).
      destruct (resynced_frame _ _ Hres) as (_ & _ & Herr & _).
      unfold exit_stacks, write_resyncedTokens in Hnone.
      cbn [errors set_errors set_RULE_OCCURRENCE_STACK set_RULE_STACK]
        in Hnone.
      rewrite Herr in Hnone.
      destruct (errors q2) as [| x xs]; [| discriminate Hnone].
      apply elem_of_nil in Hsaved. exact Hsaved.
    + assert (Htc : wrappedGrammarRule_try_catch C fuel impl config args
                      (ruleInvocationStateUpdate name idx p)
                    = (Throw (InRuleRecoveryException msg), q2)).
      { unfold wrappedGrammarRule_try_catch. rewrite Ebody. reflexivity. }
      rewrite (wrappedGrammarRule_eq C fuel name impl config idx args p _ _
                 Htc) in Hrun by discriminate.
      destruct (top_body_state name idx impl args p _ q2 Hstack Hidx Himpl
                  Ebody ltac:(discriminate)) as (_ & _ & Hidx2 & _).
      destruct (ruleFinallyStateUpdate q2) as [rf qf] eqn:Efin.
      destruct (ruleFinallyStateUpdate_frame _ _ _ Efin)
        as (_ & _ & _ & _ & _ & h6 & _ & _ & h9).
      rewrite (h9 Hidx2) in Hrun. injection Hrun as <- <-.
      split; [reflexivity |]. split; [discriminate |].
      split; [exact h6 | discriminate].
    + assert (Htc : wrappedGrammarRule_try_catch C fuel impl config args
                      (ruleInvocationStateUpdate name idx p)
                    = (Throw (JsError msg), q2)).
      { unfold wrappedGrammarRule_try_catch. rewrite Ebody. reflexivity. }
      rewrite (wrappedGrammarRule_eq C fuel name impl config idx args p _ _
                 Htc) in Hrun by discriminate.
      destruct (top_body_state name idx impl args p _ q2 Hstack Hidx Himpl
                  Ebody ltac:(discriminate)) as (_ & _ & Hidx2 & _).
      destruct (ruleFinallyStateUpdate q2) as [rf qf] eqn:Efin.
      destruct (ruleFinallyStateUpdate_frame _ _ _ Efin)
        as (_ & _ & _ & _ & _ & h6 & _ & _ & h9).
      rewrite (h9 Hidx2) in Hrun. injection Hrun as <- <-.
      split; [reflexivity |]. split; [discriminate |].
      split; [exact h6 | discriminate].
  - unfold wrappedGrammarRule, try_finally, wrappedGrammarRule_try_catch
      in Hrun.
    rewrite Ebody in Hrun. injection Hrun as <- <-.
    split; [reflexivity |]. split; [discriminate |].
    split; [reflexivity | discriminate].
Qed.

(** X27: on every path on which [CONSUME] returns, by a match, by the
    insertion of a token or by the deletion of one, the token it answers is
    an instance of the expected class, provided the token that
    [getTokenToInsert] makes is one, as with the method of the base class:
    it is [LA(1)], the inserted token or [LA(2)], and never [undefined]. *)
Theorem consume_returns_expected_class (T : TokClass) (idx : Z) (p : Parser)
  (tok : option Token) (q : Parser) :
  instanceOf (Some (getTokenToInsert C T)) T = true ->
  consumeInternal C T idx p = (Ret tok, q) ->
  instanceOf tok T = true /\
  (exists t, tok = Some t) /\
  (tok = LA p 1 \/ tok = LA p 2 \/
   tok = Some (mark_inserted (getTokenToInsert C T))).
Proof.
  intros Hins Hrun.
  assert (Hmain : instanceOf tok T = true /\
            (tok = LA p 1 \/ tok = LA p 2 \/
             tok = Some (mark_inserted (getTokenToInsert C T)))).
  { unfold consumeInternal, consumeInternalOptimized in Hrun.
    destruct (instanceOf (LA p 1) T) eqn:Ematch.
    { injection Hrun as <- _. split; [exact Ematch | left; reflexivity]. }
    destruct (LA p 1) as [t |] eqn:HLA;
      [| cbn in Hrun; destruct (recoveryEnabled p); discriminate Hrun].
    rewrite (throw_saved_eq MismatchedTokenException _ t p) in Hrun.
    set (e := saved_exception MismatchedTokenException _ t p) in Hrun.
    set (p1 := after_saving e p) in Hrun.
    destruct (recoveryEnabled p1 && isMismatchedTokenException (Recognition e)
              && negb (isBackTracking p1)); [| discriminate Hrun].
    unfold tryInRuleRecovery in Hrun.
    destruct (canRecoverWithSingleTokenInsertion C T _ p1).
    { injection Hrun as <- _. split; [exact Hins | right; right; reflexivity]. }
    destruct (canRecoverWithSingleTokenDeletion T p1) eqn:Edel.
    - unfold canRecoverWithSingleTokenDeletion in Edel.
      change (LA p1 2) with (LA p 2) in Edel.
      pose proof (SKIP_TOKEN_cases p1) as Hskip.
      destruct (SKIP_TOKEN p1) as [nextTok p2]. cbn [fst snd] in Hskip.
      destruct Hskip as (_ & _ & Hin & Hout & _).
      injection Hrun as <- _.
      assert (Hnext : nextTok = LA p 2).
      { destruct (Z.le_gt_cases (inputIdx p1) (js_length (_input p1) - 2))
          as [Hle | Hgt].
        - destruct (Hin Hle) as [_ ->]. reflexivity.
        - destruct (Hout Hgt) as [_ ->]. symmetry.
          apply LA_past_end.
          change (inputIdx p1) with (inputIdx p) in Hgt.
          change (_input p1) with (_input p) in Hgt. lia. }
      rewrite Hnext. split; [exact Edel | right; left; reflexivity].
    - discriminate Hrun. }
  destruct Hmain as [Hinst Hwhich]. split; [exact Hinst |].
  split; [| exact Hwhich].
  destruct tok as [t |]; [eauto | discriminate Hinst].
Qed.

End ParseFacts.

Lemma no_errors_means_input_matched_witness :
  let C0 := sample_class [] in
  let p := new_Parser [mkToken TokA "a" 0 1 false;
                       mkToken TokComma "," 1 2 false;
                       mkToken TokA "a" 2 3 false] true in
  let out := wrappedGrammarRule C0 10 "list" (list_rule C0 10)
               DEFAULT_RULE_CONFIG 1 [] p in
  exists q2,
    list_rule C0 10 [] (ruleInvocationStateUpdate "list" 1 p)
      = (fst out, q2) /\
    (forall e, fst out <> Throw (Recognition e)) /\
    inputIdx (snd out) = inputIdx q2 /\
    (forall v, fst out = Ret v ->
               isAtEndOfInput (snd out) = true /\ RULE_STACK (snd out) = []).
Proof.
  intros C0 p out.
  apply (no_errors_means_input_matched C0 10 "list" (list_rule C0 10)
           DEFAULT_RULE_CONFIG 1 [] p (fst out) (snd out)).
  - reflexivity.
  - unfold idx_ok. simpl. lia.
  - apply list_rule_disciplined.
  - simpl. lia.
  - apply surjective_pairing.
  - vm_compute. reflexivity.
Defined.

Lemma consume_returns_expected_class_witness :
  let C0 := sample_class [TokB] in
  let tb := mkToken TokB "b" 0 1 false in
  let p := mkParser [] true [tb] (-1) [] ["top"] [1] None 0 in
  let out := consumeInternal C0 TokA 1 p in
  fst out = Ret (Some (mark_inserted (getTokenToInsert C0 TokA))) /\
  instanceOf (Some (mark_inserted (getTokenToInsert C0 TokA))) TokA = true.
Proof.
  intros C0 tb p out. split; [vm_compute; reflexivity |].
  refine (proj1 (consume_returns_expected_class C0 TokA 1 p
                   (Some (mark_inserted (getTokenToInsert C0 TokA)))
                   (snd out) _ _)).
  - vm_compute. reflexivity.
  - vm_compute. reflexivity.
Defined.

(** ** The construction of the instances of a grammar class *)

Module construction_facts.

Import gast analysis definition construction.

Lemma string_length_app (a b : string) :
  String.length (a +:+ b) = (String.length a + String.length b)%nat.
Proof.
  induction a as [| x a IH]; [reflexivity |].
  change (S (String.length (a +:+ b))
          = S (String.length a + String.length b)).
  f_equal. exact IH.
Qed.

Lemma join_app (sep : string) (l1 l2 : list string) :
  l1 <> [] -> l2 <> [] ->
  join sep (l1 ++ l2) = join sep l1 +:+ sep +:+ join sep l2.
Proof.
  intros H1 H2. induction l1 as [| x xs IH]; [contradiction |].
  destruct xs as [| y ys].
  - destruct l2 as [| z zs]; [contradiction | reflexivity].
  - change (join sep ((x :: y :: ys) ++ l2))
      with (x +:+ sep +:+ join sep ((y :: ys) ++ l2)).
    rewrite IH by discriminate.
    change (join sep (x :: y :: ys)) with (x +:+ sep +:+ join sep (y :: ys)).
    rewrite !analysis_facts.string_app_assoc. reflexivity.
Qed.

(** The aggregated error of a longer list of definition errors is another
    error. *)
Lemma definition_errors_detected_longer
  (errs more : list IParserDefinitionError) :
  errs <> [] -> more <> [] ->
  definition_errors_detected (errs ++ more) <> definition_errors_detected errs.
Proof.
  intros Herrs Hmore Heq. unfold definition_errors_detected in Heq.
  injection Heq as Heq. apply (f_equal String.length) in Heq.
  rewrite map_app, join_app in Heq.
  - rewrite !string_length_app in Heq. cbn [String.length NL] in Heq. lia.
  - destruct errs; [contradiction | discriminate].
  - destruct more; [contradiction | discriminate].
Qed.

Lemma concat_replicate_snoc {A : Type} (n : nat) (l : list A) :
  concat (replicate (S n) l) = concat (replicate n l) ++ l.
Proof.
  induction n as [| n IH]; cbn [replicate concat] in *.
  - rewrite app_nil_r. reflexivity.
  - rewrite IH at 1. rewrite app_assoc. reflexivity.
Qed.

Section ConstructFacts.

Variable C : ParserClass.
Variable validateRuleName : string -> string -> list IParserDefinitionError.
Variable validateRuleDoesNotAlreadyExist :
  string -> list string -> string -> list IParserDefinitionError.
Variable buildTopProduction :
  string -> string -> gmap string TokClass -> nat -> IProduction * nat.
Variable resolveGrammar :
  HashTable IProduction -> HashTable IProduction * list IParserDefinitionError.
Variable validateGrammar :
  list IProduction -> Z -> IgnoredParserIssues -> list IParserDefinitionError.
Variable computeAllProdsFollows :
  list IProduction -> HashTable (list TokClass).
Variable fuel : nat.

Abbreviation new_instance :=
  (construct C validateRuleName validateRuleDoesNotAlreadyExist
     buildTopProduction resolveGrammar validateGrammar computeAllProdsFollows
     fuel).
Abbreviation rules_defined :=
  (define_rules C validateRuleName validateRuleDoesNotAlreadyExist
     buildTopProduction fuel).
Abbreviation name_errors :=
  (rule_errors validateRuleName validateRuleDoesNotAlreadyExist).
Abbreviation first_analysis_errors :=
  (analysis_errors C validateRuleName validateRuleDoesNotAlreadyExist
     buildTopProduction resolveGrammar validateGrammar fuel).

Lemma RULE_frame (name : string) (impl : list JsValue -> M JsValue)
  (text : string) (config : IRuleConfig) (this : RuleState) (w : World)
  (errs : list IParserDefinitionError) :
  CLASS_TO_DEFINITION_ERRORS w !! definition.className this = Some errs ->
  exists f this' w',
    RULE C validateRuleName validateRuleDoesNotAlreadyExist
      buildTopProduction fuel name impl text config this w
      = (Ret f, this', w') /\
    definition.className this' = definition.className this /\
    definedRulesNames this' = push (definedRulesNames this) name /\
    CLASS_TO_DEFINITION_ERRORS w' !! definition.className this
      = Some (errs ++ validateRuleName name (definition.className this)
                   ++ validateRuleDoesNotAlreadyExist name
                        (definedRulesNames this) (definition.className this)) /\
    same_analysis w w'.
Proof.
  intros Herrs. unfold RULE, same_analysis.
  cbn [definition.className set_definedRulesNames]. rewrite Herrs.
  destruct (negb (ht_containsKey _ name)).
  - destruct (buildTopProduction _ _ _ _) as [prod next].
    eexists _, _, _. split; [reflexivity |]. cbn.
    rewrite lookup_insert_eq. repeat split; reflexivity.
  - destruct (ht_get _ name); eexists _, _, _; (split; [reflexivity |]);
      cbn; rewrite lookup_insert_eq; repeat split; reflexivity.
Qed.

Lemma define_rules_spec (rules : list RuleDefinition) :
  forall (this : RuleState) (w : World) (errs : list IParserDefinitionError),
    CLASS_TO_DEFINITION_ERRORS w !! definition.className this = Some errs ->
    exists this' w',
      rules_defined rules this w = (Ret tt, this', w') /\
      definition.className this' = definition.className this /\
      CLASS_TO_DEFINITION_ERRORS w' !! definition.className this
        = Some (errs ++ name_errors (definition.className this) rules
                          (definedRulesNames this)) /\
      same_analysis w w'.
Proof.
  induction rules as [| d rest IH]; intros this w errs Herrs.
  - exists this, w. cbn [define_rules rule_errors]. rewrite app_nil_r.
    repeat split; [exact Herrs].
  - destruct (RULE_frame (rule_name d) (rule_implementation d) (rule_text d)
                (rule_config d) this w errs Herrs)
      as (f & this1 & w1 & Hrule & Hcls & Hnames & Hlook & Hd & Hf & Hc).
    destruct (IH this1 w1 _ ltac:(rewrite Hcls; exact Hlook))
      as (this2 & w2 & Hrest & Hcls2 & Hlook2 & Hd2 & Hf2 & Hc2).
    rewrite Hcls, Hnames in Hlook2.
    exists this2, w2. cbn [define_rules]. rewrite Hrule, Hrest.
    split; [reflexivity |]. split; [congruence |]. split.
    + rewrite Hlook2. cbn [rule_errors]. rewrite <- !app_assoc.
      reflexivity.
    + unfold same_analysis. repeat split; congruence.
Qed.

Lemma constructor_definitionErrors_frame (cls : string) (w : World) :
  same_analysis w (constructor_definitionErrors cls w).
Proof.
  unfold same_analysis, constructor_definitionErrors.
  destruct (negb _); repeat split; reflexivity.
Qed.

(** The state in which a construction reaches the self analysis. *)
Lemma before_analysis_spec (G : GrammarClass) (w : World) :
  exists this' w',
    rules_defined (grammar_rules G)
      (new_RuleState (grammar_name G) (grammar_tokensMap G))
      (constructor_definitionErrors (grammar_name G) w)
      = (Ret tt, this', w') /\
    definition.className this' = grammar_name G /\
    CLASS_TO_DEFINITION_ERRORS w' !! grammar_name G
      = Some (default [] (CLASS_TO_DEFINITION_ERRORS w !! grammar_name G)
              ++ name_errors (grammar_name G) (grammar_rules G) []) /\
    same_analysis w w'.
Proof.
  destruct (define_rules_spec (grammar_rules G)
              (new_RuleState (grammar_name G) (grammar_tokensMap G))
              (constructor_definitionErrors (grammar_name G) w) _
              (definition_facts.constructor_definitionErrors_lookup
                 (grammar_name G) w))
    as (this' & w' & Hrun & Hcls & Hlook & Hd & Hf & Hc).
  destruct (constructor_definitionErrors_frame (grammar_name G) w)
    as (Hd0 & Hf0 & Hc0).
  exists this', w'. split; [exact Hrun |]. split; [exact Hcls |].
  split; [exact Hlook |]. unfold same_analysis. repeat split; congruence.
Qed.

(** The first construction of an instance of a class. *)
Lemma construct_first (G : GrammarClass) (w : World) :
  grammar_name G <> EmptyString ->
  CLASS_TO_SELF_ANALYSIS_DONE w !! grammar_name G = None ->
  let total :=
    default [] (CLASS_TO_DEFINITION_ERRORS w !! grammar_name G)
    ++ name_errors (grammar_name G) (grammar_rules G) []
    ++ first_analysis_errors G w in
  exists w1,
    new_instance G w
      = (if negb (isEmpty total) && negb (DEFER_DEFINITION_ERRORS_HANDLING w)
         then Throw (definition_errors_detected total) else Ret tt, w1) /\
    CLASS_TO_DEFINITION_ERRORS w1 !! grammar_name G = Some total /\
    is_Some (CLASS_TO_SELF_ANALYSIS_DONE w1 !! grammar_name G) /\
    DEFER_DEFINITION_ERRORS_HANDLING w1 = DEFER_DEFINITION_ERRORS_HANDLING w.
Proof.
  intros Hname Hfirst total.
  destruct (before_analysis_spec G w)
    as (this' & w' & Hrun & Hcls & Hlook & Hd & Hf & Hc).
  assert (Hinst : analysis.className (self_analysis_instance G this')
                  = grammar_name G) by exact Hcls.
  destruct (analysis_facts.performSelfAnalysis_first resolveGrammar
              validateGrammar computeAllProdsFollows
              (self_analysis_instance G this') w' _
              ltac:(rewrite Hinst; exact Hname)
              ltac:(rewrite Hinst, Hd; exact Hfirst)
              ltac:(rewrite Hinst; exact Hlook))
    as (r1 & w1 & new & H1 & _ & _ & _ & _ & _ & H7 & H8 & H9 & H10).
  assert (Htotal : total
            = (default [] (CLASS_TO_DEFINITION_ERRORS w !! grammar_name G)
               ++ name_errors (grammar_name G) (grammar_rules G) [])
              ++ resolver_errors resolveGrammar
                   (self_analysis_instance G this') w'
              ++ (if isEmpty (resolver_errors resolveGrammar
                                (self_analysis_instance G this') w')
                  then validation_errors resolveGrammar validateGrammar
                         (self_analysis_instance G this') w'
                  else [])).
  { unfold total, analysis_errors, before_analysis. rewrite Hrun.
    rewrite <- app_assoc. reflexivity. }
  rewrite <- Htotal in H7, H8. rewrite Hinst in H7, H9.
  exists w1. unfold construct. rewrite Hrun, H1, H8, Hf.
  split; [reflexivity |]. split; [exact H7 |]. split; [exact H9 |].
  congruence.
Qed.

(** A construction of an instance of a class whose analysis was done. *)
Lemma construct_later (G : GrammarClass) (w : World) :
  grammar_name G <> EmptyString ->
  is_Some (CLASS_TO_SELF_ANALYSIS_DONE w !! grammar_name G) ->
  let total :=
    default [] (CLASS_TO_DEFINITION_ERRORS w !! grammar_name G)
    ++ name_errors (grammar_name G) (grammar_rules G) [] in
  exists w1,
    new_instance G w
      = (if negb (isEmpty total) && negb (DEFER_DEFINITION_ERRORS_HANDLING w)
         then Throw (definition_errors_detected total) else Ret tt, w1) /\
    CLASS_TO_DEFINITION_ERRORS w1 !! grammar_name G = Some total /\
    is_Some (CLASS_TO_SELF_ANALYSIS_DONE w1 !! grammar_name G) /\
    DEFER_DEFINITION_ERRORS_HANDLING w1 = DEFER_DEFINITION_ERRORS_HANDLING w /\
    calls w1 = calls w.
Proof.
  intros Hname Hdone total.
  destruct (before_analysis_spec G w)
    as (this' & w' & Hrun & Hcls & Hlook & Hd & Hf & Hc).
  assert (Hinst : analysis.className (self_analysis_instance G this')
                  = grammar_name G) by exact Hcls.
  exists w'. unfold construct. rewrite Hrun.
  rewrite (analysis_facts.performSelfAnalysis_done resolveGrammar
             validateGrammar computeAllProdsFollows
             (self_analysis_instance G this') w' total
             ltac:(rewrite Hinst; exact Hname)
             ltac:(rewrite Hinst, Hd; exact Hdone)
             ltac:(rewrite Hinst; exact Hlook)).
  rewrite Hf, Hd. repeat split; [exact Hlook | exact Hdone | exact Hc].
Qed.

(** C8: the claim fails for a grammar class whose rule definitions report
    rule name errors.  The first construction of an instance raises the
    aggregated error of the whole list of definition errors.  The second
    construction runs no analysis again, but [RULE] has pushed the rule
    name errors to the cached list once more, so the error it raises
    aggregates a longer list and is another error than the first. *)
Theorem later_construction_error_grows (G : GrammarClass) (w : World) :
  grammar_name G <> EmptyString ->
  CLASS_TO_SELF_ANALYSIS_DONE w !! grammar_name G = None ->
  DEFER_DEFINITION_ERRORS_HANDLING w = false ->
  name_errors (grammar_name G) (grammar_rules G) [] <> [] ->
  let ruleErrors := name_errors (grammar_name G) (grammar_rules G) [] in
  let total :=
    default [] (CLASS_TO_DEFINITION_ERRORS w !! grammar_name G)
    ++ ruleErrors ++ first_analysis_errors G w in
  exists w1 w2,
    new_instance G w = (Throw (definition_errors_detected total), w1) /\
    new_instance G w1
      = (Throw (definition_errors_detected (total ++ ruleErrors)), w2) /\
    calls w2 = calls w1 /\
    definition_errors_detected (total ++ ruleErrors)
      <> definition_errors_detected total.
Proof.
  intros Hname Hfirst Hdefer Hrules ruleErrors total.
  assert (Htotal : total <> []).
  { unfold total. fold ruleErrors in Hrules.
    destruct (default [] _); [| discriminate].
    destruct ruleErrors; [contradiction | discriminate]. }
  destruct (construct_first G w Hname Hfirst)
    as (w1 & Hrun1 & Hlook1 & Hdone1 & Hdefer1).
  fold ruleErrors total in Hrun1, Hlook1.
  destruct (construct_later G w1 Hname Hdone1)
    as (w2 & Hrun2 & _ & _ & _ & Hcalls).
  rewrite Hlook1 in Hrun2. cbn [default] in Hrun2. fold ruleErrors in Hrun2.
  rewrite Hdefer1, Hdefer in Hrun2. rewrite Hdefer in Hrun1.
  exists w1, w2.
  split; [rewrite Hrun1; destruct total; [contradiction | reflexivity] |].
  split; [rewrite Hrun2; destruct total; [contradiction | reflexivity] |].
  split; [exact Hcalls |].
  apply definition_errors_detected_longer; assumption.
Qed.

(** X22: every construction of an instance of a class pushes the errors
    of the rule name checks to the list of definition errors that is cached
    for the class, while the errors of the resolver and of the validator
    are pushed by the first construction only: after [n + 1] constructions
    the list holds, after what it held before, the rule name errors, the
    errors of the analysis, and the rule name errors [n] times more. *)
Theorem rule_name_errors_accumulate (G : GrammarClass) (w : World)
  (n : nat) :
  grammar_name G <> EmptyString ->
  CLASS_TO_SELF_ANALYSIS_DONE w !! grammar_name G = None ->
  let ruleErrors := name_errors (grammar_name G) (grammar_rules G) [] in
  CLASS_TO_DEFINITION_ERRORS
    (Nat.iter (S n) (fun w => snd (new_instance G w)) w) !! grammar_name G
  = Some (default [] (CLASS_TO_DEFINITION_ERRORS w !! grammar_name G)
          ++ ruleErrors ++ first_analysis_errors G w
          ++ concat (replicate n ruleErrors)).
Proof.
  intros Hname Hfirst ruleErrors.
  assert (Hboth :
    CLASS_TO_DEFINITION_ERRORS
      (Nat.iter (S n) (fun w => snd (new_instance G w)) w) !! grammar_name G
    = Some (default [] (CLASS_TO_DEFINITION_ERRORS w !! grammar_name G)
            ++ ruleErrors ++ first_analysis_errors G w
            ++ concat (replicate n ruleErrors)) /\
    is_Some (CLASS_TO_SELF_ANALYSIS_DONE
               (Nat.iter (S n) (fun w => snd (new_instance G w)) w)
             !! grammar_name G)).
  { induction n as [| n [IHerrs IHdone]].
    - destruct (construct_first G w Hname Hfirst)
        as (w1 & Hrun1 & Hlook1 & Hdone1 & _).
      unfold Nat.iter. cbn [nat_rect replicate concat]. rewrite Hrun1.
      cbn [snd].
      rewrite app_nil_r. split; [exact Hlook1 | exact Hdone1].
    - rewrite Nat.iter_succ.
      destruct (construct_later G _ Hname IHdone)
        as (w2 & Hrun2 & Hlook2 & Hdone2 & _).
      cbv beta. rewrite Hrun2. cbn [snd]. split; [| exact Hdone2].
      rewrite Hlook2, IHerrs. cbn [default id].
      rewrite (concat_replicate_snoc n), <- !app_assoc. reflexivity. }
  exact (proj1 Hboth).
Qed.

End ConstructFacts.

Lemma later_construction_error_grows_witness :
  let C0 := sample_class [] in
  let invalid :=
    mkDefinitionError "Invalid grammar rule name: 1bad" INVALID_RULE_NAME
      "1bad" in
  let validateRuleName := fun name _ : string =>
    if bool_decide (name = "1bad") then [invalid] else [] in
  let validateRuleDoesNotAlreadyExist :=
    fun (_ : string) (_ : list string) (_ : string) =>
      @nil IParserDefinitionError in
  let build := fun (text name : string) (_ : gmap string TokClass)
                   (next : nat) =>
    (Rule next name [] text, S next) in
  let resolveGrammar := fun t : HashTable IProduction =>
    (t, @nil IParserDefinitionError) in
  let validateGrammar :=
    fun (_ : list IProduction) (_ : Z) (_ : IgnoredParserIssues) =>
      @nil IParserDefinitionError in
  let computeAllProdsFollows :=
    fun _ : list IProduction => @nil (string * list TokClass) in
  let G := mkGrammarClass "P" ∅ 5 ∅
             [mkRuleDefinition "1bad" (sample_rule C0) "text"
                DEFAULT_RULE_CONFIG] in
  let w := mkWorld ∅ ∅ ∅ ∅ false 0 [] in
  let new_P := construct C0 validateRuleName validateRuleDoesNotAlreadyExist
                 build resolveGrammar validateGrammar computeAllProdsFollows
                 5 G in
  exists w1 w2,
    new_P w = (Throw (definition_errors_detected [invalid]), w1) /\
    new_P w1 = (Throw (definition_errors_detected [invalid; invalid]), w2) /\
    calls w2 = calls w1 /\
    definition_errors_detected [invalid; invalid]
      <> definition_errors_detected [invalid].
Proof.
  intros C0 invalid validateRuleName validateRuleDoesNotAlreadyExist build
    resolveGrammar validateGrammar computeAllProdsFollows G w new_P.
  destruct (later_construction_error_grows C0 validateRuleName
              validateRuleDoesNotAlreadyExist build resolveGrammar
              validateGrammar computeAllProdsFollows 5 G w)
    as (w1 & w2 & H1 & H2 & H3 & H4).
  - discriminate.
  - reflexivity.
  - reflexivity.
  - vm_compute. discriminate.
  - exists w1, w2. split; [exact H1 |]. split; [exact H2 |].
    split; [exact H3 | exact H4].
Defined.

Lemma rule_name_errors_accumulate_witness :
  let C0 := sample_class [] in
  let invalid :=
    mkDefinitionError "Invalid grammar rule name: 1bad" INVALID_RULE_NAME
      "1bad" in
  let unresolved :=
    mkDefinitionError "Unresolved reference" UNRESOLVED_SUBRULE_REF
      "1bad" in
  let validateRuleName := fun name _ : string =>
    if bool_decide (name = "1bad") then [invalid] else [] in
  let validateRuleDoesNotAlreadyExist :=
    fun (_ : string) (_ : list string) (_ : string) =>
      @nil IParserDefinitionError in
  let build := fun (text name : string) (_ : gmap string TokClass)
                   (next : nat) =>
    (Rule next name [] text, S next) in
  let resolveGrammar := fun t : HashTable IProduction => (t, [unresolved]) in
  let validateGrammar :=
    fun (_ : list IProduction) (_ : Z) (_ : IgnoredParserIssues) =>
      @nil IParserDefinitionError in
  let computeAllProdsFollows :=
    fun _ : list IProduction => @nil (string * list TokClass) in
  let G := mkGrammarClass "P" ∅ 5 ∅
             [mkRuleDefinition "1bad" (sample_rule C0) "text"
                DEFAULT_RULE_CONFIG] in
  let w := mkWorld ∅ ∅ ∅ ∅ true 0 [] in
  let new_P := construct C0 validateRuleName validateRuleDoesNotAlreadyExist
                 build resolveGrammar validateGrammar computeAllProdsFollows
                 5 G in
  CLASS_TO_DEFINITION_ERRORS (Nat.iter 3 (fun w => snd (new_P w)) w) !! "P"
    = Some [invalid; unresolved; invalid; invalid].
Proof.
  intros C0 invalid unresolved validateRuleName
    validateRuleDoesNotAlreadyExist build resolveGrammar validateGrammar
    computeAllProdsFollows G w new_P.
  apply (rule_name_errors_accumulate C0 validateRuleName
           validateRuleDoesNotAlreadyExist build resolveGrammar
           validateGrammar computeAllProdsFollows 5 G w 2).
  - discriminate.
  - reflexivity.
Defined.

End construction_facts.
